(** * Build-time template resolver of @embroider/compat

    A shallow embedding of [packages/compat/src/resolver-transform.ts]:
    the scope stack, the rule index, the target functions that turn a name
    into a resolution, the diagnostics channel and the visitor that the
    template traversal drives.

    Strings are sequences of code units; a JavaScript object used as a map
    is a [gmap]; an array is a [list].  The resolver object ([this]) is a
    record that is passed explicitly; what the resolver mutates (the scope
    stack, the audit collector, the imports bound in the module) lives in
    [State] and is threaded by the monad [M], whose second outcome is a
    thrown exception. *)

From Stdlib Require Import String Ascii List Bool Arith Lia.
From stdpp Require Import base option list strings gmap.

Import ListNotations.
Open Scope string_scope.
Set Warnings "-register-all".
Open Scope list_scope.

(** ** Strings and arrays as JavaScript has them *)

(** The double quote, as a one-character string. *)
Definition dq : string := String (ascii_of_nat 34) EmptyString.

(** [s.startsWith(p)] *)
Definition startsWith (s p : string) : bool := String.prefix p s.

(** [s.slice(n)] for [0 <= n] *)
Fixpoint slice (n : nat) (s : string) : string :=
  match n, s with
  | O, _ => s
  | S n', String _ r => slice n' r
  | S _, EmptyString => EmptyString
  end.

(** [s.endsWith(p)] *)
Definition endsWith (s p : string) : bool :=
  (String.length p <=? String.length s)%nat
  && String.eqb (slice (String.length s - String.length p) s) p.

(** [s.includes(sub)] *)
Fixpoint String_includes (s sub : string) : bool :=
  String.prefix sub s
  || match s with
     | EmptyString => false
     | String _ r => String_includes r sub
     end.

(** [s.split(c)] for a separator [c] of one character: the pieces between
    the separators, never an empty array. *)
Fixpoint split_acc (c : ascii) (cur : string) (s : string) : list string :=
  match s with
  | EmptyString => [cur]
  | String a r =>
      if Ascii.eqb a c then cur :: split_acc c EmptyString r
      else split_acc c (cur +:+ String a EmptyString) r
  end.

Definition split (c : ascii) (s : string) : list string := split_acc c EmptyString s.

(** [arr.includes(x)] on an array of strings *)
Fixpoint Array_includes (arr : list string) (x : string) : bool :=
  match arr with
  | [] => false
  | y :: r => String.eqb y x || Array_includes r x
  end.

(** [arr.indexOf(x)]; [None] stands for [-1]. *)
Fixpoint Array_indexOf (arr : list string) (x : string) : option nat :=
  match arr with
  | [] => None
  | y :: r => if String.eqb y x then Some O else option_map S (Array_indexOf r x)
  end.

(** [parts[parts.length - 1]] of a split, which is never empty. *)
Fixpoint lastPart (parts : list string) : string :=
  match parts with
  | [] => EmptyString
  | [x] => x
  | _ :: r => lastPart r
  end.

(** ** Data model *)

(** Source locations ([Loc] of ./audit): start and end, line and column. *)
Record Loc := mkLoc { loc_start : nat * nat; loc_end : nat * nat }.

Definition builtInKeywords : list string :=
  [ "-get-dynamic-var"; "-in-element"; "-with-dynamic-vars"; "action"; "array";
    "component"; "concat"; "debugger"; "each-in"; "each"; "fn"; "get";
    "has-block-params"; "has-block"; "hasBlock"; "hasBlockParams"; "hash";
    "helper"; "if"; "in-element"; "input"; "let"; "link-to"; "loc"; "log";
    "modifier"; "mount"; "mut"; "on"; "outlet"; "partial"; "query-params";
    "readonly"; "textarea"; "unbound"; "unique-id"; "unless"; "with"; "yield" ].

(** An entry of [yieldsSafeComponents]: a boolean, or an object from field
    names to booleans. *)
Inductive SafeComponentsEntry :=
| SafeBool (b : bool)
| SafeFields (fields : gmap string bool).

(** An entry of [yieldsArguments]: the name of a source argument, or an
    object from field names to source arguments. *)
Inductive ArgumentsEntry :=
| ArgName (sourceArg : string)
| ArgFields (fields : gmap string string).

Inductive Disambiguation := AsComponent | AsHelper | AsData.

(** [PreprocessedComponentRule] of ./dependency-rules, with the fields the
    resolver reads. *)
Record PreprocessedComponentRule := {
  yieldsSafeComponents : list SafeComponentsEntry;
  yieldsArguments : list ArgumentsEntry;
  argumentsAreComponents : list string;
  safeToIgnore : bool;
  safeInteriorPaths : list string;
  disambiguate : gmap string Disambiguation;
}.

Record ComponentResolution := {
  component_specifier : string;
  yieldsComponents : list SafeComponentsEntry;
  component_yieldsArguments : list ArgumentsEntry;
  component_argumentsAreComponents : list string;
  component_nameHint : string;
}.

Record HelperResolution := { helper_nameHint : string; helper_specifier : string }.

Record ModifierResolution := { modifier_specifier : string; modifier_nameHint : string }.

Record ResolutionFail := { message : string; detail : string; fail_loc : Loc }.

Inductive Resolution :=
| Component (c : ComponentResolution)
| Helper (h : HelperResolution)
| Modifier (m : ModifierResolution)
| Error (f : ResolutionFail).

Inductive ComponentLocator :=
| LocatorLiteral (path : string)
| LocatorPath (path : string)
| LocatorOther.

(** The options of [UserConfig]. *)
Record UserConfig := {
  staticHelpers : bool;
  staticModifiers : bool;
  staticComponents : bool;
  allowUnsafeDynamicComponents : bool;
}.

(** *** The template tree (ASTv1 of @glimmer/syntax) *)

Record PathExpression := {
  original : string;
  this_ : bool;
  data : bool;
  parts : list string;
  path_loc : Loc;
}.

Inductive Expression :=
| EPath (p : PathExpression)
| SubExpression (path : Expression) (params : list Expression)
    (hash : list (string * Expression)) (loc : Loc)
| StringLiteral (value : string) (loc : Loc)
| OtherLiteral (loc : Loc).

(** A hash pair: its key and its value. *)
Definition HashPair : Type := string * Expression.

(** What a sub-expression, a mustache, a block statement and an element
    modifier have in common: callee, positional and named arguments. *)
Record Call := mkCall {
  call_path : Expression;
  call_params : list Expression;
  call_pairs : list HashPair;
  call_loc : Loc;
}.

Record TextNode := { chars : string; text_loc : Loc }.

Inductive ConcatPart :=
| PartText (t : TextNode)
| PartMustache (m : Call).

Inductive AttrValue :=
| AttrText (t : TextNode)
| AttrMustache (m : Call)
| AttrConcat (concat_parts : list ConcatPart) (loc : Loc).

Record AttrNode := { attr_name : string; attr_value : AttrValue }.

Inductive Statement :=
| MustacheStatement (m : Call)
| BlockStatement (head : Call)
    (program : list Statement) (program_blockParams : list string)
    (inverse : option (list Statement * list string))
| ElementNode (tag : string) (attributes : list AttrNode) (modifiers : list Call)
    (children : list Statement) (blockParams : list string) (loc : Loc)
| TextStatement (t : TextNode)
| CommentStatement (value : string).

Record Template := { body : list Statement; template_blockParams : list string }.

(** The node kinds [handleComponentHelper] is called with: the first
    positional argument or a hash value (an expression), or the value of
    an attribute. *)
Inductive Node :=
| ExpressionNode (e : Expression)
| MustacheNode (m : Call)
| TextNodeNode (t : TextNode)
| ConcatNode (concat_parts : list ConcatPart) (loc : Loc).

Definition nodeOfAttrValue (v : AttrValue) : Node :=
  match v with
  | AttrText t => TextNodeNode t
  | AttrMustache m => MustacheNode m
  | AttrConcat ps l => ConcatNode ps l
  end.

(** The type of the parent node, as far as a handler asks for it. *)
Inductive NodeType := TemplateType | BlockType | ElementNodeType | AttrNodeType | ConcatStatementType.

(** An [AttrNode] or a [HashPair], as [handleDynamicComponentArguments]
    receives them. *)
Inductive Attribute :=
| AttrNodeAttribute (a : AttrNode)
| HashPairAttribute (p : HashPair).

(** *** The scope stack *)

(** The two closures passed as [exit] to [enteringComponentBlock]: the one
    of the block statement handler captures [rootName], the one of the
    element handler reads [node.tag] when it runs. *)
Inductive ExitCallback :=
| BlockStatementCallback (rootName : string)
| ElementNodeCallback.

Record ComponentBlockMarker := {
  resolution : ComponentResolution;
  marker_argumentsAreComponents : list string;
  exit : ExitCallback;
}.

Inductive ScopeEntry :=
| blockParamsEntry (names : list string)
| componentBlockMarker (marker : ComponentBlockMarker).

(** *** Diagnostics *)

Record AuditMessage := {
  audit_message : string;
  audit_filename : string;
  audit_detail : string;
  audit_loc : Loc;
  audit_source : string;
}.

Inductive Exception :=
| TemplateResolverError (error_message : string) (error_loc : Loc) (moduleName : string)
| SnippetError (snippet : string)
| TypeError.

(** The handlers the traversal calls; recorded with the scope stack each
    of them leaves behind. *)
Inductive VisitorEvent :=
| ProgramEnter | ProgramExit
| BlockStatementVisit | SubExpressionVisit | MustacheStatementEnter
| ElementModifierStatementVisit
| ElementNodeEnter | ElementNodeExit.

(** What a resolver instance mutates while it runs: the scope stack, the
    messages handed to the audit handler, and the imports bound, each
    with its identifier.  [trace] keeps, for the properties of the
    traversal, the handlers that ran and the stack each of them left. *)
Record State := {
  stack : list ScopeEntry;
  audit : list AuditMessage;
  imports : list (string * string);
  trace : list (VisitorEvent * list ScopeEntry);
}.

Definition initialState : State :=
  {| stack := []; audit := []; imports := []; trace := [] |}.

Definition with_stack (st : list ScopeEntry) (s : State) : State :=
  {| stack := st; audit := audit s; imports := imports s; trace := trace s |}.

Definition with_audit (a : list AuditMessage) (s : State) : State :=
  {| stack := stack s; audit := a; imports := imports s; trace := trace s |}.

Definition with_imports (i : list (string * string)) (s : State) : State :=
  {| stack := stack s; audit := audit s; imports := i; trace := trace s |}.

Definition with_trace (t : list (VisitorEvent * list ScopeEntry)) (s : State) : State :=
  {| stack := stack s; audit := audit s; imports := imports s; trace := t |}.

(** ** The monad of the resolver: state, and exceptions that keep the state
    they were thrown in *)

Inductive Outcome (A : Type) :=
| Return (a : A) (s : State)
| Throw (e : Exception) (s : State).

Arguments Return {A} a s.
Arguments Throw {A} e s.

Definition M (A : Type) : Type := State -> Outcome A.

Definition ret {A} (a : A) : M A := fun s => Return a s.

Definition bind {A B} (m : M A) (k : A -> M B) : M B :=
  fun s => match m s with
           | Return a s' => k a s'
           | Throw e s' => Throw e s'
           end.

Definition throw {A} (e : Exception) : M A := fun s => Throw e s.

Notation "'let!' x ':=' m 'in' k" := (bind m (fun x => k))
  (at level 10, x pattern, m at level 100, k at level 200).

Notation "m ';;;' k" := (bind m (fun _ => k))
  (at level 100, k at level 200, right associativity).

(** [for (let x of l) { ... }] over an array whose elements are rewritten
    one by one. *)
Definition mapM {A B} (f : A -> M B) : list A -> M (list B) :=
  fix go (l : list A) : M (list B) :=
    match l with
    | [] => ret []
    | x :: r => let! y := f x in let! r' := go r in ret (y :: r')
    end.

(** The final state of a run, returned or thrown. *)
Definition finalState {A} (o : Outcome A) : State :=
  match o with
  | Return _ s => s
  | Throw _ s => s
  end.

(** ** ScopeStack

    The methods of the class over its [stack] array, the innermost entry
    first ([unshift] and [shift] work at index 0).  [pop] runs an exit
    callback and is defined with the resolver below. *)

Definition push (blockParams : list string) (stack0 : list ScopeEntry) : list ScopeEntry :=
  blockParamsEntry blockParams :: stack0.

Definition enteringComponentBlock (resolution0 : ComponentResolution) (exit0 : ExitCallback)
    (stack0 : list ScopeEntry) : list ScopeEntry :=
  componentBlockMarker
    {| resolution := resolution0;
       marker_argumentsAreComponents := component_argumentsAreComponents resolution0;
       exit := exit0 |} :: stack0.

Fixpoint inScope (stack0 : list ScopeEntry) (name : string) : bool :=
  match stack0 with
  | [] => false
  | blockParamsEntry names :: rest => if Array_includes names name then true else inScope rest name
  | componentBlockMarker _ :: rest => inScope rest name
  end.

(** [inScope(parts[0])]: without a first part the argument is [undefined],
    which no array of names includes. *)
Definition rootInScope (stack0 : list ScopeEntry) (rootName : option string) : bool :=
  match rootName with
  | Some name => inScope stack0 name
  | None => false
  end.

Definition pushArgument (next : ComponentBlockMarker) (sourceArg : string) : ComponentBlockMarker :=
  {| resolution := resolution next;
     marker_argumentsAreComponents := marker_argumentsAreComponents next ++ [sourceArg];
     exit := exit next |}.

(** The body of the loop of [safeComponentInScope] once the root segment
    is found at [positionalIndex] of the frame above the marker [next]:
    the answer, and the marker with what was pushed to its
    [argumentsAreComponents]. *)
Definition markerProvesSafe (parts0 : list string) (positionalIndex : nat)
    (next : ComponentBlockMarker) : bool * ComponentBlockMarker :=
  match parts0 with
  | [_] =>
      match yieldsComponents (resolution next) !! positionalIndex with
      | Some (SafeBool true) => (true, next)
      | _ =>
          match component_yieldsArguments (resolution next) !! positionalIndex with
          | Some (ArgName sourceArg) => (true, pushArgument next sourceArg)
          | _ => (false, next)
          end
      end
  | _ =>
      let field := default "undefined" (parts0 !! 1%nat) in
      match yieldsComponents (resolution next) !! positionalIndex with
      | Some (SafeFields entry) =>
          (match entry !! field with Some true => true | _ => false end, next)
      | _ =>
          match component_yieldsArguments (resolution next) !! positionalIndex with
          | Some (ArgFields argsEntry) =>
              match argsEntry !! field with
              | Some sourceArg => (true, pushArgument next sourceArg)
              | None => (false, next)
              end
          | _ => (false, next)
          end
      end
  end.

(** The loop over the adjacent entries [here = stack[i]] and
    [next = stack[i + 1]]. *)
Fixpoint scanScopes (parts0 : list string) (stack0 : list ScopeEntry)
    : bool * list ScopeEntry :=
  match stack0 with
  | [] => (false, [])
  | here :: rest =>
      match here, rest with
      | blockParamsEntry names, componentBlockMarker next :: rest' =>
          match Array_indexOf names (default "undefined" (head parts0)) with
          | None => let (b, r) := scanScopes parts0 rest in (b, here :: r)
          | Some positionalIndex =>
              let (b, next') := markerProvesSafe parts0 positionalIndex next in
              (b, here :: componentBlockMarker next' :: rest')
          end
      | _, _ => let (b, r) := scanScopes parts0 rest in (b, here :: r)
      end
  end.

(** The answer, and the stack with the marker that was written to. *)
Definition safeComponentInScope (stack0 : list ScopeEntry) (name : string)
    : bool * list ScopeEntry :=
  let parts0 := split "." name in
  if (2 <? length parts0)%nat then (false, stack0)
  else scanScopes parts0 stack0.

(** The fields of the node an exit callback reads when it runs: the tag of
    the element and the attributes or hash pairs of the node. *)
Record LiveNode := { live_tag : string; live_attributes : list Attribute }.

Fixpoint hashPairsOf (l : list Attribute) : list HashPair :=
  match l with
  | [] => []
  | HashPairAttribute p :: r => p :: hashPairsOf r
  | AttrNodeAttribute _ :: r => hashPairsOf r
  end.

Fixpoint attrNodesOf (l : list Attribute) : list AttrNode :=
  match l with
  | [] => []
  | AttrNodeAttribute a :: r => a :: attrNodesOf r
  | HashPairAttribute _ :: r => attrNodesOf r
  end.

(** Failure without state, for what is computed from the configuration
    alone. *)
Inductive Result (A : Type) :=
| Ok (a : A)
| Failed (e : Exception).

Arguments Ok {A} a.
Arguments Failed {A} e.

Definition liftResult {A} (r : Result A) : M A :=
  match r with
  | Ok a => ret a
  | Failed e => throw e
  end.

(** ** The resolver *)

(** [env]: the file being compiled, the names bound outside the template,
    and the two services the resolver asks of its host: binding an import
    to an identifier ([meta.jsutils.bindImport], given the specifier and
    the name hint) and building a path node ([syntax.builders.path]). *)
Record Env := {
  filename : string;
  contents : string;
  strict : bool;
  locals : option (list string);
  bindImport : string -> string -> string;
  buildersPath : string -> PathExpression;
}.

(** [syntax.builders.mustache(path)]: a mustache with that callee and no
    arguments. *)
Definition buildersMustache (p : PathExpression) : Call :=
  mkCall (EPath p) [] [] (path_loc p).

(** What the file imports from modules that are not part of it:
    [camelCase] of lodash, [dasherize] and [snippetToDasherizedName] of
    ./dasherize-component-name, [preprocessComponentRule] of
    ./dependency-rules over the rules as they are declared ([RawRule]),
    [join] of path, and the case conversions of the language. *)
Class Imports := {
  camelCase : string -> string;
  toUpperCase : string -> string;
  toLowerCase : string -> string;
  dasherize : string -> string;
  snippetToDasherizedName : string -> option string;
  RawRule : Type;
  preprocessComponentRule : RawRule -> PreprocessedComponentRule;
  join : string -> string -> string;
}.

Section Resolver.

Context `{Imports}.

(** One entry of [activePackageRules]; the entries of an object are in
    the order of [Object.entries]. *)
Record ActivePackageRules := {
  rule_components : option (list (string * RawRule));
  rule_appTemplates : option (list (string * RawRule));
  rule_addonTemplates : option (list (string * RawRule));
  roots : list string;
}.

Record CompatResolverOptions := {
  appRoot : string;
  modulePrefix : string;
  activePackageRules : list ActivePackageRules;
  options : UserConfig;
}.

(** A [TemplateResolver]: [auditHandler] says whether the constructor
    found [globalThis.embroider_audit]; the messages handed to it are
    appended to [audit] of the state. *)
Record TemplateResolver := {
  env : Env;
  config : CompatResolverOptions;
  auditHandler : bool;
}.

(** The two maps of the [rules] getter. *)
Record RuleIndex := {
  files : gmap string PreprocessedComponentRule;
  components : gmap string PreprocessedComponentRule;
}.

Definition humanReadableFile (this : TemplateResolver) (file : string) : string :=
  let appRoot0 := appRoot (config this) in
  let appRoot1 := if negb (endsWith appRoot0 "/") then appRoot0 +:+ "/" else appRoot0 in
  if startsWith file appRoot1 then slice (String.length appRoot1) file else file.

(** The error [reportError] throws: the message, detail and file in one
    line, the location, and the file as [moduleName]. *)
Definition resolverError (this : TemplateResolver) (dep : ResolutionFail) : Exception :=
  TemplateResolverError
    (message dep +:+ ": " +:+ detail dep +:+ " in " +:+ humanReadableFile this (filename (env this)))
    (fail_loc dep)
    (filename (env this)).

(** What [reportError] hands to the audit handler. *)
Definition auditMessageFor (this : TemplateResolver) (dep : ResolutionFail) : AuditMessage :=
  {| audit_message := message dep;
     audit_filename := filename (env this);
     audit_detail := detail dep;
     audit_loc := fail_loc dep;
     audit_source := contents (env this) |}.

Definition reportError (this : TemplateResolver) (dep : ResolutionFail) : M unit :=
  fun s =>
    if negb (auditHandler this) && negb (allowUnsafeDynamicComponents (options (config this)))
    then Throw (resolverError this dep) s
    else if auditHandler this
    then Return tt (with_audit (audit s ++ [auditMessageFor this dep]) s)
    else Return tt s.

(** [emit]: an error is reported; a component, modifier or helper is
    bound to an identifier, the binding is recorded in [imports], and
    the setter puts the identifier into the target; nothing happens
    without a resolution.  The target as the setter leaves it is the
    result. *)
Definition emit {T : Type} (this : TemplateResolver) (target : T)
    (resolution : option Resolution) (setter : T -> PathExpression -> T) : M T :=
  match resolution with
  | Some (Error f) => reportError this f ;;; ret target
  | Some (Component c) =>
      let name := bindImport (env this) (component_specifier c) (component_nameHint c) in
      fun s => Return (setter target (buildersPath (env this) name))
                 (with_imports (imports s ++ [(component_specifier c, name)]) s)
  | Some (Modifier m) =>
      let name := bindImport (env this) (modifier_specifier m) (modifier_nameHint m) in
      fun s => Return (setter target (buildersPath (env this) name))
                 (with_imports (imports s ++ [(modifier_specifier m, name)]) s)
  | Some (Helper h) =>
      let name := bindImport (env this) (helper_specifier h) (helper_nameHint h) in
      fun s => Return (setter target (buildersPath (env this) name))
                 (with_imports (imports s ++ [(helper_specifier h, name)]) s)
  | None => ret target
  end.

Definition staticComponentsEnabled (this : TemplateResolver) : bool :=
  staticComponents (options (config this)) || auditHandler this.

Definition staticHelpersEnabled (this : TemplateResolver) : bool :=
  staticHelpers (options (config this)) || auditHandler this.

Definition staticModifiersEnabled (this : TemplateResolver) : bool :=
  staticModifiers (options (config this)) || auditHandler this.

(** *** The rule index *)

Definition standardDasherize (snippet : string) : Result string :=
  match snippetToDasherizedName snippet with
  | None => Failed (SnippetError snippet)
  | Some name => Ok name
  end.

Fixpoint setComponents (entries : list (string * RawRule))
    (components0 : gmap string PreprocessedComponentRule)
    : Result (gmap string PreprocessedComponentRule) :=
  match entries with
  | [] => Ok components0
  | (snippet, rules0) :: rest =>
      let processedRules := preprocessComponentRule rules0 in
      match standardDasherize snippet with
      | Failed e => Failed e
      | Ok dasherizedName => setComponents rest (<[dasherizedName := processedRules]> components0)
      end
  end.

Fixpoint setAppTemplates (root : string) (entries : list (string * RawRule))
    (files0 : gmap string PreprocessedComponentRule) : gmap string PreprocessedComponentRule :=
  match entries with
  | [] => files0
  | (path, templateRules) :: rest =>
      setAppTemplates root rest (<[join root path := preprocessComponentRule templateRules]> files0)
  end.

Fixpoint setRoots (rootList : list string) (path : string) (processedRules : PreprocessedComponentRule)
    (files0 : gmap string PreprocessedComponentRule) : gmap string PreprocessedComponentRule :=
  match rootList with
  | [] => files0
  | root :: rest => setRoots rest path processedRules (<[join root path := processedRules]> files0)
  end.

Fixpoint setAddonTemplates (rootList : list string) (entries : list (string * RawRule))
    (files0 : gmap string PreprocessedComponentRule) : gmap string PreprocessedComponentRule :=
  match entries with
  | [] => files0
  | (path, templateRules) :: rest =>
      setAddonTemplates rootList rest
        (setRoots rootList path (preprocessComponentRule templateRules) files0)
  end.

Fixpoint collectRules (root : string) (packageRules : list ActivePackageRules) (index : RuleIndex)
    : Result RuleIndex :=
  match packageRules with
  | [] => Ok index
  | rule :: rest =>
      match match rule_components rule with
            | Some entries => setComponents entries (components index)
            | None => Ok (components index)
            end with
      | Failed e => Failed e
      | Ok components1 =>
          let files1 := match rule_appTemplates rule with
                        | Some entries => setAppTemplates root entries (files index)
                        | None => files index
                        end in
          let files2 := match rule_addonTemplates rule with
                        | Some entries => setAddonTemplates (roots rule) entries files1
                        | None => files1
                        end in
          collectRules root rest {| files := files2; components := components1 |}
      end
  end.

(** The [rules] getter.  It is memoized and reads the configuration
    only, so every access gives the same maps, or throws the same
    error. *)
Definition rules (this : TemplateResolver) : Result RuleIndex :=
  collectRules (appRoot (config this)) (activePackageRules (config this))
    {| files := ∅; components := ∅ |}.

Definition getRules (this : TemplateResolver) : M RuleIndex := liftResult (rules this).

Definition isIgnoredComponent (this : TemplateResolver) (dasherizedName : string) : M bool :=
  let! index := getRules this in
  ret (match components index !! dasherizedName with
       | Some rule => safeToIgnore rule
       | None => false
       end).

Definition findRules (this : TemplateResolver) (absPath : string)
    : M (option PreprocessedComponentRule) :=
  let! index := getRules this in
  ret (files index !! absPath).

Definition nameHint (path : string) : string :=
  lastPart (split "@" path) +:+ "_".

Definition capitalize (word : string) : M string :=
  match word with
  | EmptyString => throw TypeError
  | String c r => ret (toUpperCase (String c EmptyString) +:+ r)
  end.

(** *** Targets *)

Definition componentResolution (specifier : string)
    (componentRules : option PreprocessedComponentRule) (hint : string) : ComponentResolution :=
  {| component_specifier := specifier;
     yieldsComponents := match componentRules with Some r => yieldsSafeComponents r | None => [] end;
     component_yieldsArguments := match componentRules with Some r => yieldsArguments r | None => [] end;
     component_argumentsAreComponents :=
       match componentRules with Some r => argumentsAreComponents r | None => [] end;
     component_nameHint := hint |}.

Definition targetComponent (this : TemplateResolver) (name : string)
    : M (option ComponentResolution) :=
  if negb (staticComponentsEnabled this) then ret None
  else if Array_includes builtInKeywords name then ret None
  else
    let! ignored := isIgnoredComponent this name in
    if ignored then ret None
    else
      let! index := getRules this in
      ret (Some (componentResolution ("#embroider_compat/components/" +:+ name)
                   (components index !! name) (nameHint name))).

Definition unsafeMessage (impliedBecause : option (string * string)) : string :=
  match impliedBecause with
  | Some (componentName, argumentName) =>
      "argument " +:+ dq +:+ argumentName +:+ dq +:+ " to component " +:+ dq +:+ componentName
      +:+ dq +:+ " is treated as a component, but the value you're passing is dynamic"
  | None => "Unsafe dynamic component"
  end.

Definition targetComponentHelper (this : TemplateResolver) (component : ComponentLocator)
    (loc : Loc) (impliedBecause : option (string * string)) : M (option Resolution) :=
  if negb (staticComponentsEnabled this) then ret None
  else
    let message0 := unsafeMessage impliedBecause in
    match component with
    | LocatorOther =>
        ret (Some (Error {| message := message0;
                            detail := "cannot statically analyze this expression";
                            fail_loc := loc |}))
    | LocatorPath path =>
        let! ownComponentRules := findRules this (filename (env this)) in
        if match ownComponentRules with
           | Some r => Array_includes (safeInteriorPaths r) path
           | None => false
           end
        then ret None
        else ret (Some (Error {| message := message0; detail := path; fail_loc := loc |}))
    | LocatorLiteral path =>
        let! r := targetComponent this path in
        ret (option_map Component r)
    end.

Definition targetHelper (this : TemplateResolver) (path : string) : option HelperResolution :=
  if negb (staticHelpersEnabled this) then None
  else if Array_includes builtInKeywords path then None
  else Some {| helper_nameHint := nameHint path;
               helper_specifier := "#embroider_compat/helpers/" +:+ path |}.

Definition ambiguousDetail (path cap : string) : string :=
  dq +:+ "{{" +:+ path +:+ "}}" +:+ dq +:+ " is ambiguous and could mean " +:+ dq +:+ "{{this."
  +:+ path +:+ "}}" +:+ dq +:+ " or component " +:+ dq +:+ "<" +:+ cap +:+ " />" +:+ dq
  +:+ " or helper " +:+ dq +:+ "{{ (" +:+ path +:+ ") }}" +:+ dq
  +:+ ". Change it to one of those unambigous forms, or use a " +:+ dq +:+ "disambiguate" +:+ dq
  +:+ " packageRule to work around the problem if its in third-party code you cannot easily fix.".

Definition disagreeDetail (path cap : string) : string :=
  "this use of " +:+ dq +:+ "{{" +:+ path +:+ "}}" +:+ dq +:+ " could be helper " +:+ dq
  +:+ "{{ (" +:+ path +:+ ") }}" +:+ dq +:+ " or component " +:+ dq +:+ "<" +:+ cap +:+ " />" +:+ dq
  +:+ ", and your settings for staticHelpers and staticComponents do not agree. Either switch to one of the unambiguous forms, or make staticHelpers and staticComponents agree, or use a "
  +:+ dq +:+ "disambiguate" +:+ dq
  +:+ " packageRule to work around the problem if its in third-party code you cannot easily fix.".

Definition targetHelperOrComponent (this : TemplateResolver) (path : string) (loc : Loc)
    (hasArgs : bool) : M (option Resolution) :=
  if negb (staticHelpersEnabled this) && negb (staticComponentsEnabled this) then ret None
  else if Array_includes builtInKeywords path then ret None
  else
    let! ignored := isIgnoredComponent this path in
    if ignored then ret None
    else
      let! ownComponentRules := findRules this (filename (env this)) in
      match match ownComponentRules with
            | Some r => disambiguate r !! path
            | None => None
            end with
      | Some AsComponent => let! r := targetComponent this path in ret (option_map Component r)
      | Some AsHelper => ret (option_map Helper (targetHelper this path))
      | Some AsData => ret None
      | None =>
          if negb hasArgs && negb (String_includes path "/") && negb (String_includes path "@")
          then
            let! cap := capitalize (camelCase path) in
            reportError this {| message := "unsupported ambiguous syntax";
                                detail := ambiguousDetail path cap;
                                fail_loc := loc |} ;;;
            ret None
          else if negb (staticHelpersEnabled this) || negb (staticComponentsEnabled this)
          then
            let! cap := capitalize (camelCase path) in
            reportError this {| message := "unsupported ambiguity between helper and component";
                                detail := disagreeDetail path cap;
                                fail_loc := loc |} ;;;
            ret None
          else
            let! index := getRules this in
            ret (Some (Component (componentResolution ("#embroider_compat/ambiguous/" +:+ path)
                                    (components index !! path) (nameHint path))))
      end.

Definition targetElementModifier (this : TemplateResolver) (path : string)
    : option ModifierResolution :=
  if negb (staticModifiersEnabled this) then None
  else if Array_includes builtInKeywords path then None
  else Some {| modifier_specifier := "#embroider_compat/modifiers/" +:+ path;
               modifier_nameHint := nameHint path |}.

Definition targetDynamicModifier (this : TemplateResolver) (modifier : ComponentLocator)
    (loc : Loc) : option Resolution :=
  if negb (staticModifiersEnabled this) then None
  else match modifier with
       | LocatorLiteral path => option_map Modifier (targetElementModifier this path)
       | _ => Some (Error {| message := "Unsafe dynamic modifier";
                             detail := "cannot statically analyze this expression";
                             fail_loc := loc |})
       end.

Definition targetDynamicHelper (this : TemplateResolver) (helper : ComponentLocator)
    : option HelperResolution :=
  if negb (staticHelpersEnabled this) then None
  else match helper with
       | LocatorLiteral path => targetHelper this path
       | _ => None
       end.

Definition handleDynamicModifier (this : TemplateResolver) (param : Expression)
    : option Resolution :=
  match param with
  | StringLiteral value loc => targetDynamicModifier this (LocatorLiteral value) loc
  | _ => None
  end.

Definition handleDynamicHelper (this : TemplateResolver) (param : Expression)
    : option Resolution :=
  match param with
  | StringLiteral value _ => option_map Helper (targetDynamicHelper this (LocatorLiteral value))
  | _ => None
  end.


(** *** The state of the resolver from inside the monad *)

Definition modifyStack (f : list ScopeEntry -> list ScopeEntry) : M unit :=
  fun s => Return tt (with_stack (f (stack s)) s).

Definition getStack : M (list ScopeEntry) := fun s => Return (stack s) s.

Definition safeComponentInScopeM (name : string) : M bool :=
  fun s => let (b, stack1) := safeComponentInScope (stack s) name in
           Return b (with_stack stack1 s).

(** Records the handler that just ran with the scope stack it leaves. *)
Definition observe (ev : VisitorEvent) : M unit :=
  fun s => Return tt (with_trace (trace s ++ [(ev, stack s)]) s).

(** *** Dynamic components *)

(** [e.type === 'PathExpression' && e.original === name] *)
Definition pathIs (e : Expression) (name : string) : bool :=
  match e with
  | EPath p => String.eqb (original p) name
  | _ => false
  end.

(** The end of [handleComponentHelper], once the locator is known. *)
Definition resolveLocator (this : TemplateResolver) (locator : ComponentLocator) (loc : Loc)
    (impliedBecause : option (string * string)) : M (option Resolution) :=
  let! safe := match locator with
               | LocatorPath path => safeComponentInScopeM path
               | _ => ret false
               end in
  if safe then ret None
  else targetComponentHelper this locator loc impliedBecause.

(** [handleComponentHelper] on an expression. *)
Definition handleComponentHelperExpression (this : TemplateResolver) (param : Expression)
    (impliedBecause : option (string * string)) : M (option Resolution) :=
  match param with
  | StringLiteral value loc => resolveLocator this (LocatorLiteral value) loc impliedBecause
  | EPath p => resolveLocator this (LocatorPath (original p)) (path_loc p) impliedBecause
  | SubExpression path _ _ loc =>
      if pathIs path "component" then ret None
      else if pathIs path "ensure-safe-component" then ret None
      else resolveLocator this LocatorOther loc impliedBecause
  | OtherLiteral loc => resolveLocator this LocatorOther loc impliedBecause
  end.

(** [handleComponentHelper]; its one recursive call is on the callee of
    a mustache without arguments, which is an expression. *)
Definition handleComponentHelper (this : TemplateResolver) (param : Node)
    (impliedBecause : option (string * string)) : M (option Resolution) :=
  match param with
  | ExpressionNode e => handleComponentHelperExpression this e impliedBecause
  | MustacheNode m =>
      if (length (call_pairs m) =? 0)%nat && (length (call_params m) =? 0)%nat
      then handleComponentHelperExpression this (call_path m) impliedBecause
      else if pathIs (call_path m) "component" then ret None
      else resolveLocator this LocatorOther (call_loc m) impliedBecause
  | TextNodeNode t => resolveLocator this (LocatorLiteral (chars t)) (text_loc t) impliedBecause
  | ConcatNode _ loc => resolveLocator this LocatorOther loc impliedBecause
  end.

(** [attributes.find(...)], with the index of what it finds. *)
Fixpoint findAttribute (name : string) (attributes : list Attribute) : option (nat * Attribute) :=
  match attributes with
  | [] => None
  | attr :: rest =>
      if match attr with
         | AttrNodeAttribute a => String.eqb (attr_name a) ("@" +:+ name)
         | HashPairAttribute p => String.eqb (fst p) name
         end
      then Some (O, attr)
      else option_map (fun '(i, a) => (S i, a)) (findAttribute name rest)
  end.

Definition attributeValue (attr : Attribute) : Node :=
  match attr with
  | AttrNodeAttribute a => nodeOfAttrValue (attr_value a)
  | HashPairAttribute p => ExpressionNode (snd p)
  end.

Definition setAttributeValue (attr : Attribute) (newId : PathExpression) : Attribute :=
  match attr with
  | AttrNodeAttribute a =>
      AttrNodeAttribute {| attr_name := attr_name a;
                           attr_value := AttrMustache (buildersMustache newId) |}
  | HashPairAttribute p => HashPairAttribute (fst p, EPath newId)
  end.

(** The loop over [argumentsAreComponents]; the attributes are the
    nodes of the tree, so a value that was rewritten is what a later
    round of the loop finds. *)
Fixpoint handleDynamicComponentArguments (this : TemplateResolver) (componentName : string)
    (argumentsAreComponents0 : list string) (attributes : list Attribute)
    : M (list Attribute) :=
  match argumentsAreComponents0 with
  | [] => ret attributes
  | name :: rest =>
      match findAttribute name attributes with
      | Some (i, attr) =>
          let! resolution0 :=
            handleComponentHelper this (attributeValue attr) (Some (componentName, name)) in
          let! attr' := emit this attr resolution0 setAttributeValue in
          handleDynamicComponentArguments this componentName rest (<[i := attr']> attributes)
      | None => handleDynamicComponentArguments this componentName rest attributes
      end
  end.

(** *** [ScopeStack.pop] *)

(** [next.exit(next)]: the closure of the block statement handler names
    the component by the [rootName] it captured, the one of the element
    handler by the tag the element has by then. *)
Definition runExit (this : TemplateResolver) (next : ComponentBlockMarker) (live : LiveNode)
    : M (list Attribute) :=
  match exit next with
  | BlockStatementCallback rootName =>
      handleDynamicComponentArguments this rootName (marker_argumentsAreComponents next)
        (live_attributes live)
  | ElementNodeCallback =>
      handleDynamicComponentArguments this (live_tag live) (marker_argumentsAreComponents next)
        (live_attributes live)
  end.

(** [pop]: the top entry goes; a marker found under it runs its exit
    callback, while still on the stack, and goes too.  [live] is the
    node the callback closes over; its attributes come back as the
    callback leaves them. *)
Definition pop (this : TemplateResolver) (live : LiveNode) : M (list Attribute) :=
  modifyStack (@tail ScopeEntry) ;;;
  let! stack1 := getStack in
  match stack1 with
  | componentBlockMarker next :: _ =>
      let! attributes := runExit this next live in
      modifyStack (@tail ScopeEntry) ;;;
      ret attributes
  | _ => ret (live_attributes live)
  end.

(** *** The visitor *)

Definition Program_enter (this : TemplateResolver) (blockParams0 : list string) : M unit :=
  modifyStack (push blockParams0) ;;;
  match locals (env this) with
  | Some names => modifyStack (push names)
  | None => ret tt
  end.

Definition Program_exit (this : TemplateResolver) (live : LiveNode) : M (list Attribute) :=
  let! attributes := pop this live in
  match locals (env this) with
  | Some _ => pop this {| live_tag := live_tag live; live_attributes := attributes |}
  | None => ret attributes
  end.

Definition setPath (node : Call) (newId : PathExpression) : Call :=
  mkCall (EPath newId) (call_params node) (call_pairs node) (call_loc node).

Definition setFirstParam (node : Call) (newId : PathExpression) : Call :=
  mkCall (call_path node) (<[0%nat := EPath newId]> (call_params node)) (call_pairs node)
    (call_loc node).

Definition setPairs (node : Call) (pairs : list HashPair) : Call :=
  mkCall (call_path node) (call_params node) pairs (call_loc node).

(** The end of the block statement handler: the callee is a component,
    and a marker is put on the stack when it resolves. *)
Definition resolveBlockComponent (this : TemplateResolver) (node : Call) (p : PathExpression)
    : M Call :=
  let! resolution0 := targetComponent this (original p) in
  let! node' := emit this node (option_map Component resolution0) setPath in
  match resolution0 with
  | Some c =>
      modifyStack (enteringComponentBlock c
                     (BlockStatementCallback (default "undefined" (head (parts p))))) ;;;
      ret node'
  | None => ret node'
  end.

Definition BlockStatement_visit (this : TemplateResolver) (node : Call) : M Call :=
  match call_path node with
  | EPath p =>
      let rootName := head (parts p) in
      let! stack0 := getStack in
      if rootInScope stack0 rootName then ret node
      else if this_ p then ret node
      else if (1 <? length (parts p))%nat then ret node
      else if String.eqb (original p) "component" && (0 <? length (call_params node))%nat
      then
        match call_params node with
        | param :: _ =>
            let! resolution0 := handleComponentHelper this (ExpressionNode param) None in
            emit this node resolution0 setFirstParam
        | [] => ret node
        end
      else resolveBlockComponent this node p
  | _ => ret node
  end.

(** What the handler of a sub-expression does to its node: nothing, a
    new callee, or a new first positional argument. *)
Inductive Rewrite :=
| NoRewrite
| SetPath (newId : PathExpression)
| SetFirstParam (newId : PathExpression).

Definition applyRewrite (rw : Rewrite) (node : Call) : Call :=
  match rw with
  | NoRewrite => node
  | SetPath newId => setPath node newId
  | SetFirstParam newId => setFirstParam node newId
  end.

Definition SubExpression_rewrite (this : TemplateResolver) (node : Call) : M Rewrite :=
  match call_path node with
  | EPath p =>
      if this_ p then ret NoRewrite
      else
        let! stack0 := getStack in
        if rootInScope stack0 (head (parts p)) then ret NoRewrite
        else if String.eqb (original p) "component" && (0 <? length (call_params node))%nat
        then
          match call_params node with
          | param :: _ =>
              let! resolution0 := handleComponentHelper this (ExpressionNode param) None in
              emit this NoRewrite resolution0 (fun _ newId => SetFirstParam newId)
          | [] => ret NoRewrite
          end
        else if String.eqb (original p) "helper" && (0 <? length (call_params node))%nat
        then
          match call_params node with
          | param :: _ =>
              emit this NoRewrite (handleDynamicHelper this param)
                (fun _ newId => SetFirstParam newId)
          | [] => ret NoRewrite
          end
        else if String.eqb (original p) "modifier" && (0 <? length (call_params node))%nat
        then
          match call_params node with
          | param :: _ =>
              emit this NoRewrite (handleDynamicModifier this param)
                (fun _ newId => SetFirstParam newId)
          | [] => ret NoRewrite
          end
        else
          emit this NoRewrite (option_map Helper (targetHelper this (original p)))
            (fun _ newId => SetPath newId)
  | _ => ret NoRewrite
  end.

(** The handler of a sub-expression, with the node as it leaves it. *)
Definition SubExpression_visit (this : TemplateResolver) (node : Call) : M Call :=
  let! rw := SubExpression_rewrite this node in
  ret (applyRewrite rw node).

(** The end of the mustache handler: the ambiguous position.  The
    component is named to [handleDynamicComponentArguments] by
    [node.path.original] as it is after [emit], which has put the
    identifier in place of the callee by then. *)
Definition resolveAmbiguous (this : TemplateResolver) (node : Call) (p : PathExpression)
    : M Call :=
  let hasArgs := (0 <? length (call_params node))%nat || (0 <? length (call_pairs node))%nat in
  let! resolution0 := targetHelperOrComponent this (original p) (path_loc p) hasArgs in
  let! node' := emit this node resolution0 setPath in
  match resolution0 with
  | Some (Component c) =>
      let! pairs :=
        handleDynamicComponentArguments this
          (match call_path node' with EPath p' => original p' | _ => original p end)
          (component_argumentsAreComponents c)
          (map HashPairAttribute (call_pairs node')) in
      ret (setPairs node' (hashPairsOf pairs))
  | _ => ret node'
  end.

Definition MustacheStatement_enter (this : TemplateResolver) (node : Call)
    (parent : option NodeType) : M Call :=
  match call_path node with
  | EPath p =>
      let rootName := head (parts p) in
      let! stack0 := getStack in
      if rootInScope stack0 rootName then ret node
      else if this_ p then ret node
      else if (1 <? length (parts p))%nat then ret node
      else if startsWith (original p) "@" then ret node
      else if String.eqb (original p) "component" && (0 <? length (call_params node))%nat
      then
        match call_params node with
        | param :: _ =>
            let! resolution0 := handleComponentHelper this (ExpressionNode param) None in
            emit this node resolution0 setFirstParam
        | [] => ret node
        end
      else if String.eqb (original p) "helper" && (0 <? length (call_params node))%nat
      then
        match call_params node with
        | param :: _ => emit this node (handleDynamicHelper this param) setFirstParam
        | [] => ret node
        end
      else
        match parent with
        | Some AttrNodeType =>
            emit this node (option_map Helper (targetHelper this (original p))) setPath
        | _ => resolveAmbiguous this node p
        end
  | _ => ret node
  end.

Definition ElementModifierStatement_visit (this : TemplateResolver) (node : Call) : M Call :=
  match call_path node with
  | EPath p =>
      let! stack0 := getStack in
      if rootInScope stack0 (head (parts p)) then ret node
      else if this_ p then ret node
      else if data p then ret node
      else if (1 <? length (parts p))%nat then ret node
      else emit this node (option_map Modifier (targetElementModifier this (original p))) setPath
  | _ => ret node
  end.

(** The enter handler of an element; the tag as it leaves it. *)
Definition ElementNode_enter (this : TemplateResolver) (tag : string)
    (blockParams0 : list string) : M string :=
  let rootName := default "undefined" (head (split "." tag)) in
  let! stack0 := getStack in
  let! tag' :=
    if negb (inScope stack0 rootName)
    then
      let! resolution0 :=
        match tag with
        | EmptyString => throw TypeError
        | String c _ =>
            if negb (String.eqb (String c EmptyString) (toLowerCase (String c EmptyString)))
            then targetComponent this (dasherize tag)
            else ret None
        end in
      let! tag1 := emit this tag (option_map Component resolution0)
                     (fun _ newId => original newId) in
      match resolution0 with
      | Some c => modifyStack (enteringComponentBlock c ElementNodeCallback) ;;; ret tag1
      | None => ret tag1
      end
    else ret tag in
  modifyStack (push blockParams0) ;;;
  ret tag'.

Definition ElementNode_exit (this : TemplateResolver) (live : LiveNode) : M (list Attribute) :=
  pop this live.

(** *** The traversal

    [traverse] of @glimmer/syntax calls the handlers: a node is entered,
    its children are visited in the order of the visitor keys ([path],
    [params], [hash]; then [program], [inverse] of a block statement;
    [attributes], [modifiers], [children] of an element), and it is
    exited.  The [Program] entry of the visitor serves the template and
    every block.  Each function gives the node as the handlers leave
    it. *)

(** A sub-expression whose callee or first argument the handler has
    replaced holds a path there, for which the visitor has no entry. *)
Fixpoint walkExpression (this : TemplateResolver) (e : Expression) : M Expression :=
  match e with
  | SubExpression path params hash loc =>
      let! rw := SubExpression_rewrite this (mkCall path params hash loc) in
      observe SubExpressionVisit ;;;
      let! path' := match rw with
                    | SetPath newId => ret (EPath newId)
                    | _ => walkExpression this path
                    end in
      let! params' := match rw, params with
                      | SetFirstParam newId, _ :: rest =>
                          let! rest' := mapM (walkExpression this) rest in
                          ret (EPath newId :: rest')
                      | _, _ => mapM (walkExpression this) params
                      end in
      let! hash' := mapM (fun kv : string * Expression =>
                            let! v := walkExpression this (snd kv) in ret (fst kv, v)) hash in
      ret (SubExpression path' params' hash' loc)
  | _ => ret e
  end.

Definition walkPair (this : TemplateResolver) (kv : HashPair) : M HashPair :=
  let! v := walkExpression this (snd kv) in ret (fst kv, v).

(** The children of a mustache, block statement or element modifier. *)
Definition walkCall (this : TemplateResolver) (node : Call) : M Call :=
  let! path' := walkExpression this (call_path node) in
  let! params' := mapM (walkExpression this) (call_params node) in
  let! pairs' := mapM (walkPair this) (call_pairs node) in
  ret (mkCall path' params' pairs' (call_loc node)).

Definition walkMustache (this : TemplateResolver) (parent : NodeType) (node : Call) : M Call :=
  let! node' := MustacheStatement_enter this node (Some parent) in
  observe MustacheStatementEnter ;;;
  walkCall this node'.

Definition walkModifier (this : TemplateResolver) (node : Call) : M Call :=
  let! node' := ElementModifierStatement_visit this node in
  observe ElementModifierStatementVisit ;;;
  walkCall this node'.

Definition walkConcatPart (this : TemplateResolver) (part : ConcatPart) : M ConcatPart :=
  match part with
  | PartText t => ret (PartText t)
  | PartMustache m => let! m' := walkMustache this ConcatStatementType m in ret (PartMustache m')
  end.

Definition walkAttr (this : TemplateResolver) (a : AttrNode) : M AttrNode :=
  match attr_value a with
  | AttrText _ => ret a
  | AttrMustache m =>
      let! m' := walkMustache this AttrNodeType m in
      ret {| attr_name := attr_name a; attr_value := AttrMustache m' |}
  | AttrConcat ps loc =>
      let! ps' := mapM (walkConcatPart this) ps in
      ret {| attr_name := attr_name a; attr_value := AttrConcat ps' loc |}
  end.

(** A block: [Program] enter, the body, [Program] exit.  [owner] is the
    node an exit callback fired by the exit would read. *)
Definition walkBlock (this : TemplateResolver) (walkBody : list Statement -> M (list Statement))
    (body0 : list Statement) (blockParams0 : list string) (owner : LiveNode)
    : M (list Statement * list Attribute) :=
  Program_enter this blockParams0 ;;;
  observe ProgramEnter ;;;
  let! body' := walkBody body0 in
  let! attributes := Program_exit this owner in
  observe ProgramExit ;;;
  ret (body', attributes).

Fixpoint walkStatement (this : TemplateResolver) (parent : NodeType) (s : Statement)
    : M Statement :=
  match s with
  | MustacheStatement m =>
      let! m' := walkMustache this parent m in ret (MustacheStatement m')
  | BlockStatement head program bps inverse =>
      let! head1 := BlockStatement_visit this head in
      observe BlockStatementVisit ;;;
      let! head2 := walkCall this head1 in
      let! r := walkBlock this (mapM (walkStatement this BlockType)) program bps
                  {| live_tag := EmptyString;
                     live_attributes := map HashPairAttribute (call_pairs head2) |} in
      let head3 := setPairs head2 (hashPairsOf (snd r)) in
      match inverse with
      | None => ret (BlockStatement head3 (fst r) bps None)
      | Some (body2, bps2) =>
          let! r2 := walkBlock this (mapM (walkStatement this BlockType)) body2 bps2
                       {| live_tag := EmptyString;
                          live_attributes := map HashPairAttribute (call_pairs head3) |} in
          ret (BlockStatement (setPairs head3 (hashPairsOf (snd r2))) (fst r)
                 bps (Some (fst r2, bps2)))
      end
  | ElementNode tag attributes modifiers children bps loc =>
      let! tag' := ElementNode_enter this tag bps in
      observe ElementNodeEnter ;;;
      let! attributes' := mapM (walkAttr this) attributes in
      let! modifiers' := mapM (walkModifier this) modifiers in
      let! children' := mapM (walkStatement this ElementNodeType) children in
      let! attributes2 :=
        ElementNode_exit this {| live_tag := tag';
                                 live_attributes := map AttrNodeAttribute attributes' |} in
      observe ElementNodeExit ;;;
      ret (ElementNode tag' (attrNodesOf attributes2) modifiers' children' bps loc)
  | TextStatement _ => ret s
  | CommentStatement _ => ret s
  end.

Definition walkTemplate (this : TemplateResolver) (t : Template) : M Template :=
  let! r := walkBlock this (mapM (walkStatement this TemplateType)) (body t)
              (template_blockParams t)
              {| live_tag := EmptyString; live_attributes := [] |} in
  ret {| body := fst r; template_blockParams := template_blockParams t |}.

(** The transform that [makeResolverTransform] builds: nothing is
    visited in a strict template. *)
Definition resolverTransform (this : TemplateResolver) (t : Template) : M Template :=
  if strict (env this) then ret t else walkTemplate this t.

End Resolver.

(** ** Concrete inputs

    Stand-ins for the imported functions on the ASCII names of the
    examples, a host environment, and the configurations and templates of
    the test suite (compat-resolver-test). *)

Module Sample.

Definition isUpper (c : ascii) : bool :=
  let n := nat_of_ascii c in (65 <=? n)%nat && (n <=? 90)%nat.

Definition isLower (c : ascii) : bool :=
  let n := nat_of_ascii c in (97 <=? n)%nat && (n <=? 122)%nat.

Definition upperChar (c : ascii) : ascii :=
  if isLower c then ascii_of_nat (nat_of_ascii c - 32) else c.

Definition lowerChar (c : ascii) : ascii :=
  if isUpper c then ascii_of_nat (nat_of_ascii c + 32) else c.

Fixpoint asciiUpperCase (s : string) : string :=
  match s with
  | EmptyString => EmptyString
  | String c r => String (upperChar c) (asciiUpperCase r)
  end.

Fixpoint asciiLowerCase (s : string) : string :=
  match s with
  | EmptyString => EmptyString
  | String c r => String (lowerChar c) (asciiLowerCase r)
  end.

(** [hello-world] to [helloWorld]: the hyphens go, the letter after one
    is raised. *)
Fixpoint camelCaseFrom (raise : bool) (s : string) : string :=
  match s with
  | EmptyString => EmptyString
  | String c r =>
      if Ascii.eqb c "-"%char then camelCaseFrom true r
      else String (if raise then upperChar c else c) (camelCaseFrom false r)
  end.

Definition asciiCamelCase (s : string) : string := camelCaseFrom false s.

(** [HelloWorld] to [hello-world]. *)
Fixpoint dasherizeFrom (first : bool) (s : string) : string :=
  match s with
  | EmptyString => EmptyString
  | String c r =>
      if isUpper c
      then (if first then EmptyString else "-") +:+ String (lowerChar c) (dasherizeFrom false r)
      else String c (dasherizeFrom false r)
  end.

Definition asciiDasherize (s : string) : string := dasherizeFrom true s.

(** Snippets are given as dasherized names; the empty one does not
    parse. *)
Definition dasherizedSnippet (snippet : string) : option string :=
  match snippet with
  | EmptyString => None
  | _ => Some snippet
  end.

Definition joinPath (a b : string) : string := a +:+ "/" +:+ b.

Definition noLoc : Loc := mkLoc (0, 0)%nat (0, 0)%nat.

Definition pathBuilder (name : string) : PathExpression :=
  {| original := name; this_ := false; data := false; parts := split "." name;
     path_loc := noLoc |}.

Definition sampleEnv : Env :=
  {| filename := "/app/templates/application.hbs";
     contents := "";
     strict := false;
     locals := None;
     bindImport := fun _ hint => asciiCamelCase hint;
     buildersPath := pathBuilder |}.

(** The rules are declared in their preprocessed form. *)
#[export] Instance asciiImports : Imports :=
  {| camelCase := asciiCamelCase;
     toUpperCase := asciiUpperCase;
     toLowerCase := asciiLowerCase;
     dasherize := asciiDasherize;
     snippetToDasherizedName := dasherizedSnippet;
     RawRule := PreprocessedComponentRule;
     preprocessComponentRule := fun r => r;
     join := joinPath |}.

Definition appRules : ActivePackageRules :=
  {| rule_components := None; rule_appTemplates := None; rule_addonTemplates := None;
     roots := ["/app"] |}.

Definition resolverWith (opts : UserConfig) (packageRules : list ActivePackageRules) (auditing : bool)
    : TemplateResolver :=
  {| env := sampleEnv;
     config := {| appRoot := "/app"; modulePrefix := "my-app";
                  activePackageRules := packageRules; options := opts |};
     auditHandler := auditing |}.

Definition optionsOff : UserConfig :=
  {| staticHelpers := false; staticModifiers := false; staticComponents := false;
     allowUnsafeDynamicComponents := false |}.

Definition componentsOnly : UserConfig :=
  {| staticHelpers := false; staticModifiers := false; staticComponents := true;
     allowUnsafeDynamicComponents := false |}.

Definition helpersOnly : UserConfig :=
  {| staticHelpers := true; staticModifiers := false; staticComponents := false;
     allowUnsafeDynamicComponents := false |}.

Definition componentsAndHelpers : UserConfig :=
  {| staticHelpers := true; staticModifiers := false; staticComponents := true;
     allowUnsafeDynamicComponents := false |}.

Definition tolerant : UserConfig :=
  {| staticHelpers := false; staticModifiers := false; staticComponents := true;
     allowUnsafeDynamicComponents := true |}.

Definition pathExpression (name : string) : Expression := EPath (pathBuilder name).

Definition mustache (name : string) (params : list Expression) (pairs : list HashPair) : Call :=
  mkCall (pathExpression name) params pairs noLoc.

(** [{{hello-world}}] *)
Definition helloWorld : Template :=
  {| body := [MustacheStatement (mustache "hello-world" [] [])]; template_blockParams := [] |}.

(** [{{hello-world arg=1}}] *)
Definition helloWorldArg : Template :=
  {| body := [MustacheStatement (mustache "hello-world" [] [("arg", OtherLiteral noLoc)])];
     template_blockParams := [] |}.


(** [<HelloWorld /><HelloWorld />] *)
Definition helloWorldTwice : Template :=
  {| body := [ElementNode "HelloWorld" [] [] [] [] noLoc;
              ElementNode "HelloWorld" [] [] [] [] noLoc];
     template_blockParams := [] |}.

Definition run {A} (m : M A) : Outcome A := m initialState.

(** The resolvers of the tests: no rules, and the errors thrown. *)
Definition strictComponents : TemplateResolver := resolverWith componentsOnly [appRules] false.
Definition strictHelpers : TemplateResolver := resolverWith helpersOnly [appRules] false.

(** Static components, and unsafe dynamic components tolerated. *)
Definition tolerantComponents : TemplateResolver := resolverWith tolerant [appRules] false.

(** Every toggle off, with and without an audit collector. *)
Definition auditing : TemplateResolver := resolverWith optionsOff [appRules] true.
Definition allOff : TemplateResolver := resolverWith optionsOff [appRules] false.

(** The rule [acceptsComponentArguments: ['iAmAComponent']] for
    [<HelloWorld />], as the rule index keeps it. *)
Definition acceptingRules : ActivePackageRules :=
  {| rule_components :=
       Some [("hello-world",
              {| yieldsSafeComponents := []; yieldsArguments := [];
                 argumentsAreComponents := ["iAmAComponent"];
                 safeToIgnore := false; safeInteriorPaths := []; disambiguate := ∅ |})];
     rule_appTemplates := None; rule_addonTemplates := None; roots := ["/app"] |}.

Definition strictAccepting : TemplateResolver := resolverWith componentsOnly [acceptingRules] false.

(** [<HelloWorld @iAmAComponent='first-target' />] *)
Definition helloWorldWithTarget : Template :=
  {| body := [ElementNode "HelloWorld"
                [ {| attr_name := "@iAmAComponent";
                     attr_value := AttrText {| chars := "first-target"; text_loc := noLoc |} |} ]
                [] [] [] noLoc];
     template_blockParams := [] |}.

(** The rule index of a configuration without rules. *)
Definition emptyIndex : RuleIndex := {| files := ∅; components := ∅ |}.

(** [{{yield}}] *)
Definition yieldMustache : Call := mustache "yield" [] [].

(** A component that yields, by position, something that is not marked
    safe, inside one that yields a safe component; both blocks name
    their parameter [x], and a plain block inside them binds [y]. *)
Definition yielding (entries : list SafeComponentsEntry) (arguments : list ArgumentsEntry)
    : ComponentBlockMarker :=
  {| resolution := {| component_specifier := "#embroider_compat/components/form-builder";
                      yieldsComponents := entries;
                      component_yieldsArguments := arguments;
                      component_argumentsAreComponents := [];
                      component_nameHint := "form-builder_" |};
     marker_argumentsAreComponents := [];
     exit := ElementNodeCallback |}.

Definition shadowingStack : list ScopeEntry :=
  [ blockParamsEntry ["y"];
    blockParamsEntry ["x"]; componentBlockMarker (yielding [SafeBool false] []);
    blockParamsEntry ["x"]; componentBlockMarker (yielding [SafeBool true] []) ].



Definition transform (this : TemplateResolver) (t : Template) : Outcome Template :=
  run (resolverTransform this t).

(** A block of [each], which is no component, that binds [x] inside a
    component block that yields a safe component as [x]. *)
Definition plainFrameStack : list ScopeEntry :=
  [ blockParamsEntry ["x"];
    blockParamsEntry ["x"]; componentBlockMarker (yielding [SafeBool true] []) ].

(** Every toggle on, and no collector. *)
Definition everythingOn : UserConfig :=
  {| staticHelpers := true; staticModifiers := true; staticComponents := true;
     allowUnsafeDynamicComponents := false |}.

Definition strictAll : TemplateResolver := resolverWith everythingOn [appRules] false.

(** A rule that flags [<HelloWorld />] as safe to ignore. *)
Definition ignoredRule : PreprocessedComponentRule :=
  {| yieldsSafeComponents := []; yieldsArguments := []; argumentsAreComponents := [];
     safeToIgnore := true; safeInteriorPaths := []; disambiguate := ∅ |}.

Definition ignoringRules : ActivePackageRules :=
  {| rule_components := Some [("hello-world", ignoredRule)];
     rule_appTemplates :=
       Some [("templates/application.hbs", ignoredRule)];
     rule_addonTemplates := None; roots := ["/app"] |}.

(** Two packages with a rule for the same component, the second of
    which flags it as safe to ignore. *)
Definition strictIgnoring : TemplateResolver :=
  resolverWith everythingOn [acceptingRules; ignoringRules] false.

Definition ignoringIndex : RuleIndex :=
  {| files := <["/app/templates/application.hbs" := ignoredRule]> ∅;
     components := <["hello-world" := ignoredRule]> ∅ |}.

(** The scope stack inside [{{#each this.items as |item|}}]. *)
Definition insideEach : State :=
  with_stack [blockParamsEntry ["item"]] initialState.

(** [<div {{autofocus}}>{{#hello-world as |item|}}{{hello-world (fmt)}}{{/hello-world}}
    <HelloWorld @iAmAComponent='first-target' /></div>] *)
Definition mixedTemplate : Template :=
  {| body :=
       [ElementNode "div" [] [mustache "autofocus" [] []]
          [ BlockStatement (mustache "hello-world" [] [])
              [MustacheStatement
                 (mustache "hello-world" [SubExpression (pathExpression "fmt") [] [] noLoc] [])]
              ["item"] None;
            ElementNode "HelloWorld"
              [ {| attr_name := "@iAmAComponent";
                   attr_value :=
                     AttrText {| chars := "first-target"; text_loc := noLoc |} |} ]
              [] [] [] noLoc ]
          [] noLoc];
     template_blockParams := [] |}.

(** [<HelloWorld as |form|>{{item}}{{form}}</HelloWorld>] *)
Definition helloWorldYielding : Statement :=
  ElementNode "HelloWorld" [] []
    [MustacheStatement (mustache "item" [] []); MustacheStatement (mustache "form" [] [])]
    ["form"] noLoc.

(** A block whose first parameter is not marked safe, but forwards the
    argument [body] of the component. *)
Definition forwardedStack : list ScopeEntry :=
  [ blockParamsEntry ["x"];
    componentBlockMarker (yielding [SafeBool false] [ArgName "body"]) ].

(** [{{component "hello-world"}}] *)
Definition componentHelloWorld : Call :=
  mustache "component" [StringLiteral "hello-world" noLoc] [].


(** [(helper "fmt")] and [(modifier "autofocus")] *)
Definition helperFmt : Call := mustache "helper" [StringLiteral "fmt" noLoc] [].

Definition modifierAutofocus : Call :=
  mustache "modifier" [StringLiteral "autofocus" noLoc] [].

(** Components and helpers on, with the rule that [<HelloWorld />]
    accepts the component argument [iAmAComponent]. *)
Definition strictBothAccepting : TemplateResolver :=
  resolverWith componentsAndHelpers [acceptingRules] false.

Definition acceptingIndex : RuleIndex :=
  {| files := ∅;
     components :=
       <["hello-world" :=
           {| yieldsSafeComponents := []; yieldsArguments := [];
              argumentsAreComponents := ["iAmAComponent"];
              safeToIgnore := false; safeInteriorPaths := []; disambiguate := ∅ |}]> ∅ |}.

(** [{{hello-world iAmAComponent="first-target"}}] *)
Definition curlyHelloWorld : Call :=
  mustache "hello-world" [] [("iAmAComponent", StringLiteral "first-target" noLoc)].

End Sample.

(** ** Vocabulary of the properties *)


(** The message of a thrown resolver error includes [text]. *)
Definition throwsMentioning {A} (o : Outcome A) (text : string) : bool :=
  match o with
  | Throw (TemplateResolverError m _ _) _ => String_includes m text
  | _ => false
  end.



(** The resolution a run returns, if it returns. *)
Definition returned {A} (o : Outcome A) : option A :=
  match o with
  | Return a _ => Some a
  | Throw _ _ => None
  end.

(** [isIgnoredComponent] on the maps of the rule index. *)
Definition isIgnored `{Imports} (index : RuleIndex) (dasherizedName : string) : bool :=
  match components index !! dasherizedName with
  | Some rule => safeToIgnore rule
  | None => false
  end.

(** The [disambiguate] entry for [path] in the rule of the file of the
    resolver, if the file has a rule and the rule an entry. *)
Definition disambiguation `{Imports} (this : TemplateResolver) (index : RuleIndex) (path : string)
    : option Disambiguation :=
  match files index !! filename (env this) with
  | Some r => disambiguate r !! path
  | None => None
  end.

(** Whether the rule of the file of the resolver lists [path] under
    [safeInteriorPaths]. *)
Definition isSafeInteriorPath `{Imports} (this : TemplateResolver) (index : RuleIndex)
    (path : string) : bool :=
  match files index !! filename (env this) with
  | Some r => Array_includes (safeInteriorPaths r) path
  | None => false
  end.

(** The error of dynamic-component resolution. *)
Definition unsafeDynamic (implied : option (string * string)) (detail0 : string) (loc : Loc)
    : Resolution :=
  Error {| message := unsafeMessage implied; detail := detail0; fail_loc := loc |}.

(** Whether some frame of [stack0] that lies directly above a marker binds
    [root]. *)
Fixpoint bindsAboveMarker (root : string) (stack0 : list ScopeEntry) : bool :=
  match stack0 with
  | [] => false
  | here :: rest =>
      match here, rest with
      | blockParamsEntry names, componentBlockMarker _ :: _ =>
          match Array_indexOf names root with
          | Some _ => true
          | None => bindsAboveMarker root rest
          end
      | _, _ => bindsAboveMarker root rest
      end
  end.

(** Whether an entry of the scope stack is a marker. *)
Definition isMarker (entry : ScopeEntry) : bool :=
  match entry with
  | componentBlockMarker _ => true
  | blockParamsEntry _ => false
  end.

(** The kinds of the entries of a stack, innermost first. *)
Definition shape (stack0 : list ScopeEntry) : list bool := map isMarker stack0.

(** Every marker of a stack of the given shape has a frame directly above
    it, that is, at the index before its own; [aboveIsFrame] says whether
    a frame lies above the first entry. *)
Fixpoint markersBelowFrames (aboveIsFrame : bool) (kinds : list bool) : bool :=
  match kinds with
  | [] => true
  | false :: rest => markersBelowFrames true rest
  | true :: rest => aboveIsFrame && markersBelowFrames false rest
  end.

(** Every marker lies directly below a frame. *)
Definition everyMarkerBelowFrame (stack0 : list ScopeEntry) : bool :=
  markersBelowFrames false (shape stack0).

(** Every marker but one at the top lies directly below a frame. *)
Definition markersBelowTopBelowFrame (stack0 : list ScopeEntry) : bool :=
  markersBelowFrames true (shape stack0).

(** The handlers after which a marker may be at the top of the stack: the
    one of a block statement, and those of the sub-expressions among its
    arguments. *)
Definition beforeBlockBody (ev : VisitorEvent) : bool :=
  match ev with
  | BlockStatementVisit | SubExpressionVisit => true
  | _ => false
  end.

(** What holds of the stack a handler leaves. *)
Definition wellPlaced (entry : VisitorEvent * list ScopeEntry) : bool :=
  markersBelowTopBelowFrame (snd entry)
  && (everyMarkerBelowFrame (snd entry) || beforeBlockBody (fst entry)).

(** The shape of a stack after [pop]. *)
Definition popShape (kinds : list bool) : list bool :=
  match kinds with
  | _ :: true :: rest => rest
  | _ :: rest => rest
  | [] => []
  end.

(** [hoare P m Q E]: from a state in [P], [m] returns in [Q] or throws in
    [E]. *)
Definition hoare {A} (P : State -> Prop) (m : M A) (Q : A -> State -> Prop)
    (E : State -> Prop) : Prop :=
  forall s, P s ->
    match m s with
    | Return a s' => Q a s'
    | Throw _ s' => E s'
    end.

(** [keeps m]: [m] leaves the kinds of the entries of the stack and the
    trace as they are, whether it returns or throws. *)
Definition keeps {A} (m : M A) : Prop :=
  forall s, shape (stack (finalState (m s))) = shape (stack s)
            /\ trace (finalState (m s)) = trace s.

(** An expression that has no sub-expression in it. *)
Definition isLeaf (e : Expression) : bool :=
  match e with
  | SubExpression _ _ _ _ => false
  | _ => true
  end.

(** Every stack recorded in the trace is well placed. *)
Definition traced (s : State) : Prop :=
  Forall (fun entry => wellPlaced entry = true) (trace s).

(** The stack has the kinds [kinds], and the trace is well placed. *)
Definition stackIs (kinds : list bool) (s : State) : Prop :=
  shape (stack s) = kinds /\ traced s.

(** The shape of the stack inside a block entered from a stack of shape
    [kinds]: the frame of its parameters, under the frame of the names
    bound outside the template when there are some. *)
Definition enterShape `{Imports} (this : TemplateResolver) (kinds : list bool) : list bool :=
  match locals (env this) with
  | Some _ => false :: false :: kinds
  | None => false :: kinds
  end.

(** A directory name with the slash that ends it. *)
Definition withSlash (root : string) : string :=
  if endsWith root "/" then root else root +:+ "/".

(** The component rules a list of package rules declares, in the order
    in which the [rules] getter reads them. *)
Definition declaredComponents `{Imports} (packageRules : list ActivePackageRules)
    : list (string * RawRule) :=
  flat_map (fun rule => default [] (rule_components rule)) packageRules.

(** The template rules a list of package rules declares, each under the
    file name it is stored at, in the order in which the [rules] getter
    reads them. *)
Definition declaredFiles `{Imports} (root : string) (packageRules : list ActivePackageRules)
    : list (string * RawRule) :=
  flat_map (fun rule =>
      map (fun entry => (join root (fst entry), snd entry))
        (default [] (rule_appTemplates rule))
      ++ flat_map (fun entry =>
             map (fun addonRoot => (join addonRoot (fst entry), snd entry)) (roots rule))
           (default [] (rule_addonTemplates rule)))
    packageRules.

(** The last entry of a list whose key, read by [key], is [name]. *)
Fixpoint lastDeclared {A : Type} (key : string -> option string) (name : string)
    (entries : list (string * A)) : option A :=
  match entries with
  | [] => None
  | (k, r) :: rest =>
      match lastDeclared key name rest with
      | Some later => Some later
      | None => if decide (key k = Some name) then Some r else None
      end
  end.

(** The first snippet of a list of component rules that does not parse. *)
Definition firstUnparsed `{Imports} (entries : list (string * RawRule)) : option string :=
  find (fun snippet => bool_decide (snippetToDasherizedName snippet = None)) (map fst entries).

(** What a map holds at [name] after the entries of a list were set in
    it, in order. *)
Definition overlaid `{Imports} (key : string -> option string) (name : string)
    (entries : list (string * RawRule)) (before : option PreprocessedComponentRule)
    : option PreprocessedComponentRule :=
  match lastDeclared key name entries with
  | Some r => Some (preprocessComponentRule r)
  | None => before
  end.


(** The test by which [handleDynamicComponentArguments] finds the
    attribute of an argument: [@name] on an element, the key [name] in
    a hash. *)
Definition attributeNamed (name : string) (attr : Attribute) : bool :=
  match attr with
  | AttrNodeAttribute a => String.eqb (attr_name a) ("@" +:+ name)
  | HashPairAttribute p => String.eqb (fst p) name
  end.

(** An attribute as [handleDynamicComponentArguments] may leave it: as
    it was, or, when one of the names is its own, with an identifier as
    its value. *)
Definition rewrittenFor (names : list string) (attr attr' : Attribute) : Prop :=
  attr' = attr
  \/ (existsb (fun name => attributeNamed name attr) names = true
      /\ exists newId, attr' = setAttributeValue attr newId).

(** [runs R X m Q]: from any state, [m] returns a value in [Q] or
    throws an exception in [X]; either way [R] relates the state it
    starts from to the state it ends in. *)
Definition runs {A} (R : State -> State -> Prop) (X : Exception -> Prop) (m : M A)
    (Q : A -> Prop) : Prop :=
  forall s, match m s with
            | Return a s' => R s s' /\ Q a
            | Throw e s' => R s s' /\ X e
            end.

(** The rules of the resolver can be read, and do not flag the component
    [name] as [safeToIgnore]. *)
Definition notIgnored `{Imports} (this : TemplateResolver) (name : string) : Prop :=
  exists index, rules this = Ok index /\ isIgnored index name = false.

(** What the resolver may import: a specifier in one of the four name
    spaces, for a name that is not a built-in keyword, with the hint of
    that name; a component only when components are resolved and the
    name is not to be ignored, a helper only when helpers are resolved,
    a modifier only when modifiers are, and the ambiguous form only when
    both components and helpers are. *)
Definition sanctioned `{Imports} (this : TemplateResolver) (specifier hint : string) : Prop :=
  exists name,
    hint = nameHint name
    /\ Array_includes builtInKeywords name = false
    /\ ((specifier = "#embroider_compat/components/" +:+ name
         /\ staticComponentsEnabled this = true /\ notIgnored this name)
        \/ (specifier = "#embroider_compat/ambiguous/" +:+ name
            /\ staticComponentsEnabled this = true /\ staticHelpersEnabled this = true
            /\ notIgnored this name)
        \/ (specifier = "#embroider_compat/helpers/" +:+ name
            /\ staticHelpersEnabled this = true)
        \/ (specifier = "#embroider_compat/modifiers/" +:+ name
            /\ staticModifiersEnabled this = true)).

(** A resolution whose import, if it has one, is sanctioned. *)
Definition goodResolution `{Imports} (this : TemplateResolver) (r : option Resolution) : Prop :=
  match r with
  | Some (Component c) => sanctioned this (component_specifier c) (component_nameHint c)
  | Some (Helper h) => sanctioned this (helper_specifier h) (helper_nameHint h)
  | Some (Modifier m) => sanctioned this (modifier_specifier m) (modifier_nameHint m)
  | Some (Error _) => True
  | None => True
  end.

(** An entry of [imports] that the resolver may add: a sanctioned
    specifier, bound to the identifier the host gives for it and for the
    hint. *)
Definition sanctionedImport `{Imports} (this : TemplateResolver) (entry : string * string)
    : Prop :=
  exists hint,
    sanctioned this (fst entry) hint
    /\ snd entry = bindImport (env this) (fst entry) hint.

(** The exceptions of the transform: the error of [reportError], without
    a collector and without tolerance only; the error of the first
    snippet of the rules that does not parse; a [TypeError]. *)
Definition mayThrow `{Imports} (this : TemplateResolver) (e : Exception) : Prop :=
  match e with
  | TemplateResolverError _ _ _ =>
      auditHandler this = false
      /\ allowUnsafeDynamicComponents (options (config this)) = false
      /\ exists dep, e = resolverError this dep
  | SnippetError snippet =>
      firstUnparsed (declaredComponents (activePackageRules (config this))) = Some snippet
  | TypeError => True
  end.

(** [resolvesNothing m a]: from any state, [m] returns [a] and leaves
    the imports and the messages of the audit as they are. *)
Definition resolvesNothing {A} (m : M A) (a : A) : Prop :=
  forall s, exists s', m s = Return a s' /\ imports s' = imports s /\ audit s' = audit s.

(** Every element of a statement has a tag that is not empty. *)
Fixpoint everyTagNamed (s : Statement) : bool :=
  match s with
  | ElementNode tag _ _ children _ _ =>
      negb (String.eqb tag EmptyString) && forallb everyTagNamed children
  | BlockStatement _ program _ inverse =>
      forallb everyTagNamed program
      && match inverse with
         | Some (body2, _) => forallb everyTagNamed body2
         | None => true
         end
  | _ => true
  end.

(** What an entry of the scope stack binds: the names of a frame, and
    nothing for a marker. *)
Definition frameOf (entry : ScopeEntry) : option (list string) :=
  match entry with
  | blockParamsEntry names => Some names
  | componentBlockMarker _ => None
  end.

(** The scope that a stack stands for, innermost first. *)
Definition frames (stack0 : list ScopeEntry) : list (option (list string)) :=
  map frameOf stack0.

(** The innermost entry of a scope is not a marker. *)
Definition startsWithFrame (fs : list (option (list string))) : bool :=
  match fs with
  | None :: _ => false
  | _ => true
  end.

(** A step that leaves the scope and the trace as they are. *)
Definition framesKept (s s' : State) : Prop :=
  frames (stack s') = frames (stack s) /\ trace s' = trace s.

(** The handlers recorded after [before] have all left a stack with the
    scope [base] at its bottom. *)
Definition recordedWithin (before : list (VisitorEvent * list ScopeEntry))
    (base : list (option (list string))) (s : State) : Prop :=
  exists new,
    trace s = before ++ new
    /\ Forall (fun entry => base `suffix_of` frames (snd entry)) new.

(** The scope is [fs], and the handlers recorded after [before] have
    stayed within [base]. *)
Definition scopeIs (before : list (VisitorEvent * list ScopeEntry))
    (base fs : list (option (list string))) (s : State) : Prop :=
  frames (stack s) = fs /\ recordedWithin before base s.

(** The scope after [pop]. *)
Definition popFrames (fs : list (option (list string))) : list (option (list string)) :=
  match fs with
  | _ :: None :: rest => rest
  | _ :: rest => rest
  | [] => []
  end.

(** The scope inside a block with the parameters [names], entered from
    the scope [fs]. *)
Definition enterFrames `{Imports} (this : TemplateResolver) (names : list string)
    (fs : list (option (list string))) : list (option (list string)) :=
  match locals (env this) with
  | Some outer => Some outer :: Some names :: fs
  | None => Some names :: fs
  end.

(** The string a node stands for when it is a literal: the value of a
    string literal, the characters of a text node. *)
Definition literalOf (n : Node) : option string :=
  match n with
  | ExpressionNode (StringLiteral value _) => Some value
  | TextNodeNode t => Some (chars t)
  | _ => None
  end.

(** The resolution of the component [name] under the rule index
    [index], with its import in the name space [space]. *)
Definition componentOf `{Imports} (index : RuleIndex) (space name : string)
    : ComponentResolution :=
  componentResolution ("#embroider_compat/" +:+ space +:+ "/" +:+ name)
    (components index !! name) (nameHint name).

(** The identifier the host binds for an import of [name] in the name
    space [space]. *)
Definition identifierOf `{Imports} (this : TemplateResolver) (space name : string)
    : PathExpression :=
  buildersPath (env this)
    (bindImport (env this) ("#embroider_compat/" +:+ space +:+ "/" +:+ name) (nameHint name)).

(** The state after the import of [name] in the name space [space] was
    bound. *)
Definition imported `{Imports} (this : TemplateResolver) (space name : string) (s : State)
    : State :=
  with_imports
    (imports s ++ [("#embroider_compat/" +:+ space +:+ "/" +:+ name,
                    bindImport (env this) ("#embroider_compat/" +:+ space +:+ "/" +:+ name)
                      (nameHint name))]) s.

Section Properties.
Context `{Imports}.

(** *** Strings *)

Lemma prefix_append (p r : string) : String.prefix p (p +:+ r) = true.
Proof.
  induction p as [|c p IH]; simpl.
  - now destruct r.
  - destruct (Ascii.ascii_dec c c) as [_|n]; [exact IH | now destruct n].
Qed.

Lemma String_includes_append (a t sub : string) :
  String.prefix sub t = true -> String_includes (a +:+ t) sub = true.
Proof.
  intros Hp. induction a as [|c a IH]; simpl.
  - destruct t; simpl in *; rewrite Hp; reflexivity.
  - rewrite IH. apply orb_true_r.
Qed.

Lemma String_includes_middle (a sub r : string) :
  String_includes (a +:+ sub +:+ r) sub = true.
Proof. apply String_includes_append, prefix_append. Qed.

(** *** The diagnostics channel *)

Lemma reportError_cases (this : TemplateResolver) (dep : ResolutionFail) (s : State) :
  reportError this dep s =
    if auditHandler this
    then Return tt (with_audit (audit s ++ [auditMessageFor this dep]) s)
    else if allowUnsafeDynamicComponents (options (config this))
         then Return tt s
         else Throw (resolverError this dep) s.
Proof.
  unfold reportError.
  destruct (auditHandler this), (allowUnsafeDynamicComponents (options (config this)));
    reflexivity.
Qed.

(** C4 (as amended): an error handed to [reportError], whatever its class,
    is appended to the collector when one is registered, is dropped when
    none is and the configuration tolerates unsafe dynamic components, and
    is thrown otherwise; [emit] does this with every Error resolution; an
    error of the rule index is thrown where the rules are read, collector
    or not. *)
Theorem reportError_channels (this : TemplateResolver) (dep : ResolutionFail) (s : State) :
  reportError this dep s =
    (if auditHandler this
     then Return tt (with_audit (audit s ++ [auditMessageFor this dep]) s)
     else if allowUnsafeDynamicComponents (options (config this))
          then Return tt s
          else Throw (resolverError this dep) s)
  /\ (forall (T : Type) (target : T) (setter : T -> PathExpression -> T),
        emit this target (Some (Error dep)) setter s =
          match reportError this dep s with
          | Return _ s' => Return target s'
          | Throw e s' => Throw e s'
          end)
  /\ getRules this s =
       match rules this with
       | Ok index => Return index s
       | Failed e => Throw e s
       end.
Proof.
  split; [|split].
  - apply reportError_cases.
  - intros T target setter. unfold emit, bind, ret.
    destruct (reportError this dep s); reflexivity.
  - unfold getRules, liftResult. destruct (rules this); reflexivity.
Qed.

(** *** Static resolution and the audit collector *)











Lemma prefix_append_l (sub x y : string) :
  String.prefix sub x = true -> String.prefix sub (x +:+ y) = true.
Proof.
  revert x. induction sub as [|c sub IH]; intros x Hp.
  - now destruct (x +:+ y).
  - destruct x as [|d x]; simpl in *; [discriminate|].
    destruct (Ascii.ascii_dec c d); [auto | discriminate].
Qed.

Lemma String_includes_append_l (x y sub : string) :
  String_includes x sub = true -> String_includes (x +:+ y) sub = true.
Proof.
  induction x as [|c x IH]; simpl; intros Hi.
  - rewrite orb_false_r in Hi. destruct sub; [|discriminate].
    destruct y; reflexivity.
  - apply orb_true_iff in Hi as [Hp|Hi].
    + pose proof (prefix_append_l sub (String c x) y Hp) as Hq. simpl in Hq.
      rewrite Hq. reflexivity.
    + rewrite (IH Hi). apply orb_true_r.
Qed.

Lemma String_includes_append_r (x y sub : string) :
  String_includes y sub = true -> String_includes (x +:+ y) sub = true.
Proof.
  intros Hi. induction x as [|c x IH]; simpl; [exact Hi|].
  rewrite IH. apply orb_true_r.
Qed.

Lemma startsWith_includes (s p : string) :
  String_includes s p = false -> startsWith s p = false.
Proof.
  unfold startsWith. destruct s; simpl; intros Hi; apply orb_false_iff in Hi; tauto.
Qed.

(** *** The ambiguous position *)

Lemma ambiguousDetail_mentions (path cap : string) :
  String_includes (ambiguousDetail path cap) "is ambiguous" = true.
Proof.
  unfold ambiguousDetail.
  do 4 apply String_includes_append_r.
  apply (String_includes_middle " " "is ambiguous").
Qed.


Lemma resolverError_mentions (this : TemplateResolver) (dep : ResolutionFail) (s : State)
    (A : Type) (text : string) :
  String_includes (detail dep) text = true ->
  throwsMentioning (@Throw A (resolverError this dep) s) text = true.
Proof.
  intros Hd. unfold throwsMentioning, resolverError.
  do 2 apply String_includes_append_r. apply String_includes_append_l. exact Hd.
Qed.

(** What [targetHelperOrComponent] does with a name that is neither a
    keyword nor ignored and has no [disambiguate] entry, once both kinds
    of static resolution are not off together. *)
Lemma targetHelperOrComponent_undecided (this : TemplateResolver) (path : string) (loc : Loc)
    (hasArgs : bool) (index : RuleIndex) (s : State) :
  negb (staticHelpersEnabled this) && negb (staticComponentsEnabled this) = false ->
  Array_includes builtInKeywords path = false ->
  rules this = Ok index ->
  isIgnored index path = false ->
  disambiguation this index path = None ->
  targetHelperOrComponent this path loc hasArgs s =
    if negb hasArgs && negb (String_includes path "/") && negb (String_includes path "@")
    then (let! cap := capitalize (camelCase path) in
          reportError this {| message := "unsupported ambiguous syntax";
                              detail := ambiguousDetail path cap;
                              fail_loc := loc |} ;;;
          ret None) s
    else if negb (staticHelpersEnabled this) || negb (staticComponentsEnabled this)
    then (let! cap := capitalize (camelCase path) in
          reportError this {| message := "unsupported ambiguity between helper and component";
                              detail := disagreeDetail path cap;
                              fail_loc := loc |} ;;;
          ret None) s
    else Return (Some (Component (componentResolution ("#embroider_compat/ambiguous/" +:+ path)
                                    (components index !! path) (nameHint path)))) s.
Proof.
  intros Hon Hkw Hrules Hign Hdis.
  unfold targetHelperOrComponent. rewrite Hon, Hkw.
  unfold isIgnoredComponent, findRules, getRules, liftResult, bind, ret.
  rewrite Hrules. unfold isIgnored in Hign. rewrite Hign.
  unfold disambiguation in Hdis. rewrite Hdis.
  destruct (negb hasArgs && negb (String_includes path "/") && negb (String_includes path "@"));
    [reflexivity|].
  destruct (negb (staticHelpersEnabled this) || negb (staticComponentsEnabled this)); reflexivity.
Qed.

(** The mustache handler reaches the ambiguous position with a callee
    that is a plain name, outside an attribute value, unless it is one of
    the keyword forms with a positional argument. *)
Lemma MustacheStatement_enter_ambiguous (this : TemplateResolver) (node : Call)
    (p : PathExpression) (parent : option NodeType) (s : State) :
  call_path node = EPath p ->
  rootInScope (stack s) (head (parts p)) = false ->
  this_ p = false ->
  (1 <? length (parts p))%nat = false ->
  startsWith (original p) "@" = false ->
  (String.eqb (original p) "component" || String.eqb (original p) "helper")
  && (0 <? length (call_params node))%nat = false ->
  parent <> Some AttrNodeType ->
  MustacheStatement_enter this node parent s = resolveAmbiguous this node p s.
Proof.
  intros Hp Hscope Hthis Hparts Hat Hkw Hparent.
  unfold MustacheStatement_enter. rewrite Hp.
  unfold bind, getStack. rewrite Hscope, Hthis, Hparts, Hat.
  rewrite andb_orb_distrib_l in Hkw. apply orb_false_iff in Hkw as [Hc Hh].
  rewrite Hc, Hh.
  destruct parent as [[]|]; try reflexivity. now destruct Hparent.
Qed.

(** C1 (as amended): a mustache outside an attribute value whose callee is
    a plain name (not in scope, not [this], not dotted, without [@] and
    without a slash), that has no arguments, is not a built-in keyword,
    not ignored by a rule and has no [disambiguate] entry in the rule of
    the file, is reported as ambiguous once a kind of static resolution is
    on: the error goes to the collector when one is registered, is thrown
    when none is and unsafe dynamic components are not tolerated, and is
    dropped when they are; the node is left as it is in every case. *)
Theorem bare_mustache_without_arguments_is_ambiguous (this : TemplateResolver) (node : Call)
    (p : PathExpression) (parent : option NodeType) (index : RuleIndex)
    (c : ascii) (r : string) (s : State) :
  call_path node = EPath p ->
  rootInScope (stack s) (head (parts p)) = false ->
  this_ p = false ->
  (1 <? length (parts p))%nat = false ->
  String_includes (original p) "@" = false ->
  String_includes (original p) "/" = false ->
  call_params node = [] ->
  call_pairs node = [] ->
  parent <> Some AttrNodeType ->
  staticHelpersEnabled this || staticComponentsEnabled this = true ->
  Array_includes builtInKeywords (original p) = false ->
  rules this = Ok index ->
  isIgnored index (original p) = false ->
  disambiguation this index (original p) = None ->
  camelCase (original p) = String c r ->
  let dep := {| message := "unsupported ambiguous syntax";
                detail := ambiguousDetail (original p) (toUpperCase (String c EmptyString) +:+ r);
                fail_loc := path_loc p |} in
  MustacheStatement_enter this node parent s =
    (if auditHandler this
     then Return node (with_audit (audit s ++ [auditMessageFor this dep]) s)
     else if allowUnsafeDynamicComponents (options (config this))
          then Return node s
          else Throw (resolverError this dep) s)
  /\ String_includes (detail dep) "is ambiguous" = true
  /\ throwsMentioning (@Throw Call (resolverError this dep) s) "is ambiguous" = true.
Proof.
  intros Hp Hscope Hthis Hparts Hat Hslash Hparams Hpairs Hparent Hon Hkw Hrules Hign Hdis Hcamel dep.
  split; [|split].
  - rewrite (MustacheStatement_enter_ambiguous this node p parent s); auto.
    + unfold resolveAmbiguous, bind. cbv zeta.
      rewrite Hparams, Hpairs.
      change ((0 <? length (@nil Expression))%nat || (0 <? length (@nil HashPair))%nat)
        with false.
      rewrite (targetHelperOrComponent_undecided this (original p) (path_loc p) false index s);
        auto.
      * rewrite Hslash, Hat. simpl.
        unfold bind, capitalize, ret. rewrite Hcamel.
        fold dep. rewrite (reportError_cases this dep s).
        unfold emit, ret.
        destruct (auditHandler this); [reflexivity|].
        destruct (allowUnsafeDynamicComponents (options (config this))); reflexivity.
      * apply orb_true_iff in Hon. rewrite andb_false_iff, !negb_false_iff. tauto.
    + apply startsWith_includes; exact Hat.
    + rewrite Hparams. simpl. apply andb_false_r.
  - apply ambiguousDetail_mentions.
  - apply resolverError_mentions, ambiguousDetail_mentions.
Qed.

Lemma targetComponent_enabled (this : TemplateResolver) (name : string) (index : RuleIndex)
    (s : State) :
  staticComponentsEnabled this = true ->
  rules this = Ok index ->
  targetComponent this name s =
    if Array_includes builtInKeywords name || isIgnored index name then Return None s
    else Return (Some (componentResolution ("#embroider_compat/components/" +:+ name)
                         (components index !! name) (nameHint name))) s.
Proof.
  intros Hc Hrules. unfold targetComponent. rewrite Hc. simpl negb. cbv iota.
  destruct (Array_includes builtInKeywords name); [reflexivity|].
  unfold isIgnoredComponent, getRules, liftResult, bind, ret. rewrite Hrules.
  unfold isIgnored. simpl orb.
  destruct (match components index !! name with Some r => safeToIgnore r | None => false end);
    reflexivity.
Qed.



(** *** Mustaches in attribute values *)

(** C10: a mustache that is the value of an attribute, whose callee is a
    plain name that passes the scope, [this], dot and [@] checks and is
    not a keyword form of [component] or [helper], is resolved by
    [targetHelper] alone: the handler returns, reports nothing, and either
    leaves the node as it is or binds an import from the helpers
    namespace and puts it in place of the callee, with or without
    arguments. *)
Theorem attribute_mustache_is_a_helper (this : TemplateResolver) (node : Call)
    (p : PathExpression) (s : State) :
  call_path node = EPath p ->
  rootInScope (stack s) (head (parts p)) = false ->
  this_ p = false ->
  (1 <? length (parts p))%nat = false ->
  startsWith (original p) "@" = false ->
  (String.eqb (original p) "component" || String.eqb (original p) "helper")
  && (0 <? length (call_params node))%nat = false ->
  MustacheStatement_enter this node (Some AttrNodeType) s
  = emit this node (option_map Helper (targetHelper this (original p))) setPath s
  /\ (MustacheStatement_enter this node (Some AttrNodeType) s = Return node s
      \/ exists name,
           name = bindImport (env this) ("#embroider_compat/helpers/" +:+ original p)
                    (nameHint (original p))
           /\ MustacheStatement_enter this node (Some AttrNodeType) s
              = Return (setPath node (buildersPath (env this) name))
                  (with_imports (imports s ++ [("#embroider_compat/helpers/" +:+ original p, name)])
                     s)).
Proof.
  intros Hp Hscope Hthis Hparts Hat Hkw.
  assert (Heq : MustacheStatement_enter this node (Some AttrNodeType) s
                = emit this node (option_map Helper (targetHelper this (original p))) setPath s).
  { unfold MustacheStatement_enter. rewrite Hp.
    unfold bind, getStack. rewrite Hscope, Hthis, Hparts, Hat.
    rewrite andb_orb_distrib_l in Hkw. apply orb_false_iff in Hkw as [Hc Hh].
    rewrite Hc, Hh. reflexivity. }
  split; [exact Heq|].
  rewrite Heq. unfold targetHelper.
  destruct (negb (staticHelpersEnabled this)); [left; reflexivity|].
  destruct (Array_includes builtInKeywords (original p)); [left; reflexivity|].
  right. eexists. split; reflexivity.
Qed.

(** *** Dynamic components *)

Lemma targetComponentHelper_path (this : TemplateResolver) (path : string) (loc : Loc)
    (implied : option (string * string)) (index : RuleIndex) (s : State) :
  staticComponentsEnabled this = true ->
  rules this = Ok index ->
  targetComponentHelper this (LocatorPath path) loc implied s =
    if isSafeInteriorPath this index path then Return None s
    else Return (Some (unsafeDynamic implied path loc)) s.
Proof.
  intros Hc Hrules. unfold targetComponentHelper. rewrite Hc. simpl.
  unfold findRules, getRules, liftResult, bind, ret. rewrite Hrules.
  unfold isSafeInteriorPath.
  destruct (match files index !! filename (env this) with
            | Some r => Array_includes (safeInteriorPaths r) path | None => false end);
    reflexivity.
Qed.

Lemma resolveLocator_other (this : TemplateResolver) (loc : Loc)
    (implied : option (string * string)) (s : State) :
  staticComponentsEnabled this = true ->
  resolveLocator this LocatorOther loc implied s =
    Return (Some (unsafeDynamic implied "cannot statically analyze this expression" loc)) s.
Proof.
  intros Hc. unfold resolveLocator, bind, ret, targetComponentHelper. rewrite Hc. reflexivity.
Qed.

Lemma resolveLocator_literal (this : TemplateResolver) (value : string) (loc : Loc)
    (implied : option (string * string)) (s : State) :
  staticComponentsEnabled this = true ->
  resolveLocator this (LocatorLiteral value) loc implied s =
    (let! r := targetComponent this value in ret (option_map Component r)) s.
Proof.
  intros Hc. unfold resolveLocator, bind, ret, targetComponentHelper. rewrite Hc. reflexivity.
Qed.

Lemma String_includes_prefix (t sub : string) :
  String.prefix sub t = true -> String_includes t sub = true.
Proof. intros Hp. destruct t; simpl in *; rewrite Hp; reflexivity. Qed.

Lemma unsafeMessage_names (componentName argumentName : string) :
  String_includes (unsafeMessage (Some (componentName, argumentName))) componentName = true
  /\ String_includes (unsafeMessage (Some (componentName, argumentName))) argumentName = true.
Proof.
  unfold unsafeMessage. split.
  - do 6 apply String_includes_append_r. apply String_includes_prefix, prefix_append.
  - do 2 apply String_includes_append_r. apply String_includes_prefix, prefix_append.
Qed.

(** C7: with static components on, [handleComponentHelper] resolves a
    string literal (or the text of an attribute) as a component name;
    leaves a path alone when [safeComponentInScope] proves it safe or the
    rule of the file lists it under [safeInteriorPaths], and otherwise
    gives an error whose detail is the path; leaves alone a
    sub-expression whose callee is [component] or [ensure-safe-component]
    and a mustache with arguments whose callee is [component]; treats a
    mustache without arguments as its callee; and gives the error "cannot
    statically analyze this expression" for everything else.  The message
    of the errors names the component and the argument when the
    resolution comes from [argumentsAreComponents], and is "Unsafe dynamic
    component" otherwise. *)
Theorem dynamic_component_resolution (this : TemplateResolver) (index : RuleIndex)
    (implied : option (string * string)) (s : State) :
  staticComponentsEnabled this = true ->
  rules this = Ok index ->
  (forall value loc,
      handleComponentHelper this (ExpressionNode (StringLiteral value loc)) implied s
      = (let! r := targetComponent this value in ret (option_map Component r)) s)
  /\ (forall t,
        handleComponentHelper this (TextNodeNode t) implied s
        = (let! r := targetComponent this (chars t) in ret (option_map Component r)) s)
  /\ (forall p,
        handleComponentHelper this (ExpressionNode (EPath p)) implied s =
          let (safe, stack1) := safeComponentInScope (stack s) (original p) in
          if safe || isSafeInteriorPath this index (original p)
          then Return None (with_stack stack1 s)
          else Return (Some (unsafeDynamic implied (original p) (path_loc p))) (with_stack stack1 s))
  /\ (forall path params hash loc,
        pathIs path "component" || pathIs path "ensure-safe-component" = true ->
        handleComponentHelper this (ExpressionNode (SubExpression path params hash loc)) implied s
        = Return None s)
  /\ (forall m,
        (length (call_pairs m) =? 0)%nat && (length (call_params m) =? 0)%nat = false ->
        pathIs (call_path m) "component" = true ->
        handleComponentHelper this (MustacheNode m) implied s = Return None s)
  /\ (forall m,
        (length (call_pairs m) =? 0)%nat && (length (call_params m) =? 0)%nat = true ->
        handleComponentHelper this (MustacheNode m) implied s
        = handleComponentHelper this (ExpressionNode (call_path m)) implied s)
  /\ (forall path params hash loc,
        pathIs path "component" || pathIs path "ensure-safe-component" = false ->
        handleComponentHelper this (ExpressionNode (SubExpression path params hash loc)) implied s
        = Return (Some (unsafeDynamic implied "cannot statically analyze this expression" loc)) s)
  /\ (forall loc,
        handleComponentHelper this (ExpressionNode (OtherLiteral loc)) implied s
        = Return (Some (unsafeDynamic implied "cannot statically analyze this expression" loc)) s)
  /\ (forall ps loc,
        handleComponentHelper this (ConcatNode ps loc) implied s
        = Return (Some (unsafeDynamic implied "cannot statically analyze this expression" loc)) s)
  /\ (forall m,
        (length (call_pairs m) =? 0)%nat && (length (call_params m) =? 0)%nat = false ->
        pathIs (call_path m) "component" = false ->
        handleComponentHelper this (MustacheNode m) implied s
        = Return (Some (unsafeDynamic implied "cannot statically analyze this expression"
                          (call_loc m))) s)
  /\ unsafeMessage None = "Unsafe dynamic component"
  /\ (forall componentName argumentName,
        String_includes (unsafeMessage (Some (componentName, argumentName))) componentName = true
        /\ String_includes (unsafeMessage (Some (componentName, argumentName))) argumentName = true).
Proof.
  intros Hc Hrules.
  repeat match goal with |- _ /\ _ => split end.
  - intros value loc. apply resolveLocator_literal; exact Hc.
  - intros t. apply resolveLocator_literal; exact Hc.
  - intros p. simpl. unfold resolveLocator, bind, safeComponentInScopeM.
    destruct (safeComponentInScope (stack s) (original p)) as [safe stack1].
    destruct safe; [reflexivity|]. simpl orb.
    rewrite (targetComponentHelper_path this (original p) (path_loc p) implied index _ Hc Hrules).
    reflexivity.
  - intros path params hash loc Hsafe. simpl.
    apply orb_true_iff in Hsafe as [-> | ->]; [reflexivity|].
    destruct (pathIs path "component"); reflexivity.
  - intros m Hargs Hcomp. simpl. rewrite Hargs, Hcomp. reflexivity.
  - intros m Hargs. simpl. rewrite Hargs. reflexivity.
  - intros path params hash loc Hother. simpl.
    apply orb_false_iff in Hother as [-> ->]. apply resolveLocator_other; exact Hc.
  - intros loc. apply resolveLocator_other; exact Hc.
  - intros ps loc. apply resolveLocator_other; exact Hc.
  - intros m Hargs Hcomp. simpl. rewrite Hargs, Hcomp. apply resolveLocator_other; exact Hc.
  - reflexivity.
  - apply unsafeMessage_names.
Qed.

(** *** The search of [safeComponentInScope] *)

Lemma scanScopes_nearest (parts0 : list string) (pre : list ScopeEntry) (names : list string)
    (next : ComponentBlockMarker) (rest : list ScopeEntry) (k : nat) :
  bindsAboveMarker (default "undefined" (head parts0)) pre = false ->
  Array_indexOf names (default "undefined" (head parts0)) = Some k ->
  scanScopes parts0 (pre ++ blockParamsEntry names :: componentBlockMarker next :: rest)
  = (fst (markerProvesSafe parts0 k next),
     pre ++ blockParamsEntry names
         :: componentBlockMarker (snd (markerProvesSafe parts0 k next)) :: rest).
Proof.
  intros Hpre Hk. induction pre as [|here pre IH].
  - simpl. rewrite Hk. destruct (markerProvesSafe parts0 k next); reflexivity.
  - change ((here :: pre) ++ ?l) with (here :: (pre ++ l)).
    cbn [scanScopes].
    destruct here as [bp|m].
    + destruct pre as [|[bp'|m'] pre'].
      * cbn [app]. cbn [app] in IH. rewrite IH by reflexivity. reflexivity.
      * cbn [app]. cbn [app] in IH. simpl in Hpre. rewrite IH by exact Hpre. reflexivity.
      * cbn [app]. cbn [app] in IH. cbn [bindsAboveMarker] in Hpre.
        destruct (Array_indexOf bp (default "undefined" (head parts0))); [discriminate|].
        rewrite IH by exact Hpre. reflexivity.
    + destruct pre as [|e pre']; cbn [app]; cbn [app] in IH.
      * rewrite IH by reflexivity. reflexivity.
      * rewrite IH by exact Hpre. reflexivity.
Qed.




(** *** Reasoning about runs of the resolver *)

Lemma hoare_bind {A B} (P : State -> Prop) (m : M A) (k : A -> M B)
    (Q : A -> State -> Prop) (R : B -> State -> Prop) (E : State -> Prop) :
  hoare P m Q E -> (forall a, hoare (Q a) (k a) R E) -> hoare P (bind m k) R E.
Proof.
  intros Hm Hk s HP. unfold bind. specialize (Hm s HP).
  destruct (m s) as [a s'|e s']; [apply Hk; exact Hm | exact Hm].
Qed.

Lemma hoare_ret {A} (P : State -> Prop) (a : A) (Q : A -> State -> Prop) (E : State -> Prop) :
  (forall s, P s -> Q a s) -> hoare P (ret a) Q E.
Proof. intros HQ s HP. apply HQ, HP. Qed.

Lemma hoare_conseq {A} (P P' : State -> Prop) (m : M A) (Q Q' : A -> State -> Prop)
    (E : State -> Prop) :
  hoare P m Q E -> (forall s, P' s -> P s) -> (forall a s, Q a s -> Q' a s) ->
  hoare P' m Q' E.
Proof.
  intros Hm HP HQ s HP'. specialize (Hm s (HP s HP')).
  destruct (m s); [apply HQ|]; exact Hm.
Qed.

Lemma hoare_mapM {A B} (I : State -> Prop) (E : State -> Prop) (f : A -> M B) (l : list A) :
  Forall (fun x => hoare I (f x) (fun _ => I) E) l ->
  hoare I (mapM f l) (fun _ => I) E.
Proof.
  induction 1 as [|x l Hx Hl IH]; simpl.
  - apply hoare_ret. auto.
  - eapply hoare_bind; [exact Hx|]. intros y.
    eapply hoare_bind; [exact IH|]. intros r. apply hoare_ret. auto.
Qed.

Lemma keeps_ret {A} (a : A) : keeps (ret a).
Proof. intros s. split; reflexivity. Qed.

Lemma keeps_throw {A} (e : Exception) : keeps (@throw A e).
Proof. intros s. split; reflexivity. Qed.

Lemma keeps_bind {A B} (m : M A) (k : A -> M B) :
  keeps m -> (forall a, keeps (k a)) -> keeps (bind m k).
Proof.
  intros Hm Hk s. unfold bind. specialize (Hm s).
  destruct (m s) as [a s'|e s']; simpl in *; [|exact Hm].
  destruct (Hk a s') as [H1 H2]. destruct Hm as [H3 H4]. split; congruence.
Qed.

Lemma keeps_liftResult {A} (r : Result A) : keeps (liftResult r).
Proof. destruct r; [apply keeps_ret | apply keeps_throw]. Qed.

Lemma keeps_getStack : keeps getStack.
Proof. intros s. split; reflexivity. Qed.

Lemma keeps_reportError (this : TemplateResolver) (dep : ResolutionFail) :
  keeps (reportError this dep).
Proof.
  intros s. unfold reportError.
  destruct (negb (auditHandler this) && negb (allowUnsafeDynamicComponents (options (config this))));
    [split; reflexivity|].
  destruct (auditHandler this); split; reflexivity.
Qed.

Lemma keeps_emit {T} (this : TemplateResolver) (target : T) (r : option Resolution)
    (setter : T -> PathExpression -> T) :
  keeps (emit this target r setter).
Proof.
  destruct r as [[c|h|m|f]|]; simpl.
  1-3: intros s; split; reflexivity.
  - apply keeps_bind; [apply keeps_reportError | intros; apply keeps_ret].
  - apply keeps_ret.
Qed.

Lemma keeps_capitalize (word : string) : keeps (capitalize word).
Proof. destruct word; [apply keeps_throw | apply keeps_ret]. Qed.

Create HintDb keeps.

#[local] Hint Resolve keeps_ret keeps_throw keeps_liftResult keeps_getStack keeps_reportError
  keeps_emit keeps_capitalize : keeps.

(** Splits a run into its steps and the branches of its conditionals. *)
Ltac keeps_steps :=
  repeat first
    [ progress auto with keeps
    | apply keeps_bind; [|intros ?]
    | match goal with
      | |- keeps (match ?x with _ => _ end) => destruct x
      | |- keeps (if ?b then _ else _) => destruct b
      | |- keeps (let (_, _) := ?x in _) => destruct x
      end ].

Lemma keeps_getRules (this : TemplateResolver) : keeps (getRules this).
Proof. unfold getRules. keeps_steps. Qed.

#[local] Hint Resolve keeps_getRules : keeps.

Lemma keeps_isIgnoredComponent (this : TemplateResolver) (name : string) :
  keeps (isIgnoredComponent this name).
Proof. unfold isIgnoredComponent. keeps_steps. Qed.

Lemma keeps_findRules (this : TemplateResolver) (absPath : string) :
  keeps (findRules this absPath).
Proof. unfold findRules. keeps_steps. Qed.

#[local] Hint Resolve keeps_isIgnoredComponent keeps_findRules : keeps.

Lemma keeps_targetComponent (this : TemplateResolver) (name : string) :
  keeps (targetComponent this name).
Proof. unfold targetComponent. keeps_steps. Qed.

#[local] Hint Resolve keeps_targetComponent : keeps.

Lemma keeps_targetComponentHelper (this : TemplateResolver) (locator : ComponentLocator)
    (loc : Loc) (implied : option (string * string)) :
  keeps (targetComponentHelper this locator loc implied).
Proof. unfold targetComponentHelper. keeps_steps. Qed.

Lemma keeps_targetHelperOrComponent (this : TemplateResolver) (path : string) (loc : Loc)
    (hasArgs : bool) :
  keeps (targetHelperOrComponent this path loc hasArgs).
Proof. unfold targetHelperOrComponent. keeps_steps. Qed.

#[local] Hint Resolve keeps_targetComponentHelper keeps_targetHelperOrComponent : keeps.

Lemma scanScopes_shape (parts0 : list string) (stack0 : list ScopeEntry) :
  shape (snd (scanScopes parts0 stack0)) = shape stack0.
Proof.
  induction stack0 as [|here rest IH]; [reflexivity|].
  cbn [scanScopes].
  assert (Hrec : shape (snd (let (b, r) := scanScopes parts0 rest in (b, here :: r)))
                 = shape (here :: rest)).
  { destruct (scanScopes parts0 rest) as [b r]. simpl in *. now rewrite IH. }
  destruct here as [bp|m]; [|exact Hrec].
  destruct rest as [|[bp'|next] rest']; [exact Hrec|exact Hrec|].
  destruct (Array_indexOf bp (default "undefined" (head parts0))); [|exact Hrec].
  destruct (markerProvesSafe parts0 n next). reflexivity.
Qed.

Lemma safeComponentInScope_shape (stack0 : list ScopeEntry) (name : string) :
  shape (snd (safeComponentInScope stack0 name)) = shape stack0.
Proof.
  unfold safeComponentInScope. destruct (2 <? length (split "." name))%nat; [reflexivity|].
  apply scanScopes_shape.
Qed.

Lemma keeps_safeComponentInScopeM (name : string) : keeps (safeComponentInScopeM name).
Proof.
  intros s. unfold safeComponentInScopeM.
  pose proof (safeComponentInScope_shape (stack s) name) as Hs.
  destruct (safeComponentInScope (stack s) name) as [b stack1]. simpl in *. auto.
Qed.

#[local] Hint Resolve keeps_safeComponentInScopeM : keeps.

Lemma keeps_resolveLocator (this : TemplateResolver) (locator : ComponentLocator) (loc : Loc)
    (implied : option (string * string)) :
  keeps (resolveLocator this locator loc implied).
Proof. unfold resolveLocator. keeps_steps. Qed.

#[local] Hint Resolve keeps_resolveLocator : keeps.

Lemma keeps_handleComponentHelperExpression (this : TemplateResolver) (param : Expression)
    (implied : option (string * string)) :
  keeps (handleComponentHelperExpression this param implied).
Proof. unfold handleComponentHelperExpression. keeps_steps. Qed.

#[local] Hint Resolve keeps_handleComponentHelperExpression : keeps.

Lemma keeps_handleComponentHelper (this : TemplateResolver) (param : Node)
    (implied : option (string * string)) :
  keeps (handleComponentHelper this param implied).
Proof. unfold handleComponentHelper. keeps_steps. Qed.

#[local] Hint Resolve keeps_handleComponentHelper : keeps.

Lemma keeps_handleDynamicComponentArguments (this : TemplateResolver) (componentName : string)
    (names : list string) (attributes : list Attribute) :
  keeps (handleDynamicComponentArguments this componentName names attributes).
Proof.
  revert attributes. induction names as [|name rest IH]; intros attributes; simpl.
  - apply keeps_ret.
  - destruct (findAttribute name attributes) as [[i attr]|]; [|apply IH].
    apply keeps_bind; [auto with keeps|]. intros r.
    apply keeps_bind; [auto with keeps|]. intros attr'. apply IH.
Qed.

#[local] Hint Resolve keeps_handleDynamicComponentArguments : keeps.

Lemma keeps_SubExpression_rewrite (this : TemplateResolver) (node : Call) :
  keeps (SubExpression_rewrite this node).
Proof. unfold SubExpression_rewrite. keeps_steps. Qed.

Lemma keeps_resolveAmbiguous (this : TemplateResolver) (node : Call) (p : PathExpression) :
  keeps (resolveAmbiguous this node p).
Proof. unfold resolveAmbiguous. keeps_steps. Qed.

#[local] Hint Resolve keeps_resolveAmbiguous : keeps.

Lemma keeps_MustacheStatement_enter (this : TemplateResolver) (node : Call)
    (parent : option NodeType) :
  keeps (MustacheStatement_enter this node parent).
Proof. unfold MustacheStatement_enter. keeps_steps. Qed.

Lemma keeps_ElementModifierStatement_visit (this : TemplateResolver) (node : Call) :
  keeps (ElementModifierStatement_visit this node).
Proof. unfold ElementModifierStatement_visit. keeps_steps. Qed.

(** *** The shape of the scope stack along the traversal *)

Lemma hoare_or {A} (P1 P2 : State -> Prop) (m : M A) (Q : A -> State -> Prop)
    (E : State -> Prop) :
  hoare P1 m Q E -> hoare P2 m Q E -> hoare (fun s => P1 s \/ P2 s) m Q E.
Proof. intros H1 H2 s [HP|HP]; [apply H1 | apply H2]; exact HP. Qed.

Lemma keeps_hoare {A} (m : M A) (kinds : list bool) :
  keeps m -> hoare (stackIs kinds) m (fun _ => stackIs kinds) traced.
Proof.
  intros Hk s [Hs Ht]. destruct (Hk s) as [H1 H2].
  unfold stackIs, traced in *.
  destruct (m s) as [a s'|e s']; simpl in *; rewrite H2; [split; congruence | exact Ht].
Qed.

Lemma below_top_of_below (kinds : list bool) :
  markersBelowFrames false kinds = true -> markersBelowFrames true kinds = true.
Proof. destruct kinds as [|[|] rest]; simpl; auto. discriminate. Qed.

Lemma hoare_observe (ev : VisitorEvent) (kinds : list bool) :
  markersBelowFrames true kinds = true ->
  markersBelowFrames false kinds || beforeBlockBody ev = true ->
  hoare (stackIs kinds) (observe ev) (fun _ => stackIs kinds) traced.
Proof.
  intros Hw Hs s [Hshape Ht]. unfold observe, stackIs, traced in *. simpl.
  split; [exact Hshape|].
  apply Forall_app. split; [exact Ht|].
  constructor; [|constructor].
  unfold wellPlaced, markersBelowTopBelowFrame, everyMarkerBelowFrame. simpl.
  rewrite Hshape, Hw, Hs. reflexivity.
Qed.

Lemma hoare_observe_below (ev : VisitorEvent) (kinds : list bool) :
  markersBelowFrames false kinds = true ->
  hoare (stackIs kinds) (observe ev) (fun _ => stackIs kinds) traced.
Proof.
  intros Hs. apply hoare_observe; [apply below_top_of_below; exact Hs|].
  rewrite Hs. reflexivity.
Qed.

Lemma hoare_push (names : list string) (kinds : list bool) :
  hoare (stackIs kinds) (modifyStack (push names)) (fun _ => stackIs (false :: kinds)) traced.
Proof.
  intros s [Hshape Ht]. unfold modifyStack, push, stackIs, traced in *. simpl.
  split; [now rewrite Hshape | exact Ht].
Qed.

Lemma hoare_enteringComponentBlock (c : ComponentResolution) (cb : ExitCallback)
    (kinds : list bool) :
  hoare (stackIs kinds) (modifyStack (enteringComponentBlock c cb))
    (fun _ => stackIs (true :: kinds)) traced.
Proof.
  intros s [Hshape Ht]. unfold modifyStack, enteringComponentBlock, stackIs, traced in *. simpl.
  split; [now rewrite Hshape | exact Ht].
Qed.

Lemma hoare_tail (kinds : list bool) :
  hoare (stackIs kinds) (modifyStack (@tail ScopeEntry)) (fun _ => stackIs (tail kinds)) traced.
Proof.
  intros s [Hshape Ht]. unfold modifyStack, stackIs, traced in *. simpl.
  split; [|exact Ht]. rewrite <- Hshape. now destruct (stack s).
Qed.

Lemma keeps_runExit (this : TemplateResolver) (next : ComponentBlockMarker) (live : LiveNode) :
  keeps (runExit this next live).
Proof. unfold runExit. destruct (exit next); auto with keeps. Qed.

Lemma hoare_pop (this : TemplateResolver) (live : LiveNode) (kinds : list bool) :
  hoare (stackIs kinds) (pop this live) (fun _ => stackIs (popShape kinds)) traced.
Proof.
  unfold pop. eapply hoare_bind; [apply hoare_tail|]. intros [].
  intros s [Hshape Ht]. unfold bind at 1. unfold getStack.
  destruct (stack s) as [|[bp|next] rest] eqn:Hstack.
  - simpl. split; [|exact Ht]. rewrite Hstack.
    destruct kinds as [|a [|[|] r]]; simpl in *; congruence.
  - simpl. split; [|exact Ht]. rewrite Hstack.
    destruct kinds as [|a [|[|] r]]; simpl in *; congruence.
  - assert (Hin : stackIs (tail kinds) s) by (split; [rewrite Hstack; exact Hshape | exact Ht]).
    assert (Hk : hoare (stackIs (tail kinds))
                   (let! attributes := runExit this next live in
                    modifyStack (@tail ScopeEntry) ;;; ret attributes)
                   (fun _ => stackIs (tail (tail kinds))) traced).
    { eapply hoare_bind; [apply keeps_hoare, keeps_runExit|]. intros attributes.
      eapply hoare_bind; [apply hoare_tail|]. intros []. apply hoare_ret. auto. }
    specialize (Hk s Hin).
    destruct kinds as [|a [|[|] r]]; simpl in *; congruence.
Qed.

Lemma hoare_Program_enter (this : TemplateResolver) (names : list string) (kinds : list bool) :
  hoare (stackIs kinds) (Program_enter this names) (fun _ => stackIs (enterShape this kinds))
    traced.
Proof.
  unfold Program_enter, enterShape.
  eapply hoare_bind; [apply hoare_push|]. intros [].
  destruct (locals (env this)); [apply hoare_push | apply hoare_ret; auto].
Qed.

Lemma hoare_Program_exit (this : TemplateResolver) (live : LiveNode) (kinds : list bool) :
  hoare (stackIs (enterShape this kinds)) (Program_exit this live)
    (fun _ => stackIs (popShape (false :: kinds))) traced.
Proof.
  unfold Program_exit, enterShape.
  destruct (locals (env this)).
  - eapply hoare_bind; [apply hoare_pop|]. intros attributes. simpl popShape. apply hoare_pop.
  - eapply hoare_bind; [apply hoare_pop|]. intros attributes. apply hoare_ret. auto.
Qed.

Lemma hoare_resolveBlockComponent (this : TemplateResolver) (node : Call) (p : PathExpression)
    (kinds : list bool) :
  hoare (stackIs kinds) (resolveBlockComponent this node p)
    (fun _ s => stackIs kinds s \/ stackIs (true :: kinds) s) traced.
Proof.
  unfold resolveBlockComponent.
  eapply hoare_bind; [apply keeps_hoare; auto with keeps|]. intros r.
  eapply hoare_bind; [apply keeps_hoare; auto with keeps|]. intros node'.
  destruct r as [c|].
  - eapply hoare_bind; [apply hoare_enteringComponentBlock|]. intros [].
    apply hoare_ret. auto.
  - apply hoare_ret. auto.
Qed.

Lemma hoare_BlockStatement_visit (this : TemplateResolver) (node : Call) (kinds : list bool) :
  hoare (stackIs kinds) (BlockStatement_visit this node)
    (fun _ s => stackIs kinds s \/ stackIs (true :: kinds) s) traced.
Proof.
  assert (Hkeep : forall m : M Call, keeps m ->
            hoare (stackIs kinds) m (fun _ s => stackIs kinds s \/ stackIs (true :: kinds) s) traced).
  { intros m Hm.
    apply hoare_conseq with (P := stackIs kinds) (Q := fun _ => stackIs kinds);
      [apply keeps_hoare, Hm | auto | auto]. }
  unfold BlockStatement_visit.
  destruct (call_path node) as [p| | |]; try (apply Hkeep; solve [auto with keeps]).
  eapply hoare_bind; [apply keeps_hoare; auto with keeps|]. intros stack0.
  destruct (rootInScope stack0 (head (parts p))); [apply Hkeep; auto with keeps|].
  destruct (this_ p); [apply Hkeep; auto with keeps|].
  destruct (1 <? length (parts p))%nat; [apply Hkeep; auto with keeps|].
  destruct (String.eqb (original p) "component" && (0 <? length (call_params node))%nat).
  - apply Hkeep. keeps_steps.
  - apply hoare_resolveBlockComponent.
Qed.

Lemma hoare_ElementNode_enter (this : TemplateResolver) (tag : string) (names : list string)
    (kinds : list bool) :
  hoare (stackIs kinds) (ElementNode_enter this tag names)
    (fun _ s => stackIs (false :: kinds) s \/ stackIs (false :: true :: kinds) s) traced.
Proof.
  unfold ElementNode_enter.
  eapply hoare_bind; [apply keeps_hoare; auto with keeps|]. intros stack0.
  eapply hoare_bind with (Q := fun _ s => stackIs kinds s \/ stackIs (true :: kinds) s).
  - destruct (negb (inScope stack0 (default "undefined" (head (split "." tag))))).
    + eapply hoare_bind; [apply keeps_hoare; keeps_steps|]. intros r.
      eapply hoare_bind; [apply keeps_hoare; auto with keeps|]. intros tag1.
      destruct r as [c|].
      * eapply hoare_bind; [apply hoare_enteringComponentBlock|]. intros [].
        apply hoare_ret. auto.
      * apply hoare_ret. auto.
    + apply hoare_ret. auto.
  - intros tag'. apply hoare_or.
    + eapply hoare_bind; [apply hoare_push|]. intros []. apply hoare_ret. auto.
    + eapply hoare_bind; [apply hoare_push|]. intros []. apply hoare_ret. auto.
Qed.

Lemma Expression_induction (P : Expression -> Prop) :
  (forall p, P (EPath p)) ->
  (forall path params hash loc,
      P path -> Forall P params -> Forall (fun kv => P (snd kv)) hash ->
      P (SubExpression path params hash loc)) ->
  (forall value loc, P (StringLiteral value loc)) ->
  (forall loc, P (OtherLiteral loc)) ->
  forall e, P e.
Proof.
  intros Hpath Hsub Hstring Hother. fix IH 1.
  intros [p|path params hash loc|value loc|loc];
    [apply Hpath | | apply Hstring | apply Hother].
  apply Hsub; [apply IH| |].
  - induction params as [|x l IHl]; constructor; [apply IH | exact IHl].
  - induction hash as [|[k v] l IHl]; constructor; [apply IH | exact IHl].
Qed.

Lemma Statement_induction (P : Statement -> Prop) :
  (forall m, P (MustacheStatement m)) ->
  (forall head program bps inverse,
      Forall P program ->
      match inverse with
      | Some (body2, _) => Forall P body2
      | None => True
      end ->
      P (BlockStatement head program bps inverse)) ->
  (forall tag attributes modifiers children bps loc,
      Forall P children -> P (ElementNode tag attributes modifiers children bps loc)) ->
  (forall t, P (TextStatement t)) ->
  (forall value, P (CommentStatement value)) ->
  forall s, P s.
Proof.
  intros Hm Hb He Ht Hc. fix IH 1.
  intros [m|head program bps inverse|tag attributes modifiers children bps loc|t|value];
    [apply Hm | | | apply Ht | apply Hc].
  - apply Hb.
    + induction program as [|x l IHl]; constructor; [apply IH | exact IHl].
    + destruct inverse as [[body2 bps2]|]; [|exact I].
      induction body2 as [|x l IHl]; constructor; [apply IH | exact IHl].
  - apply He. induction children as [|x l IHl]; constructor; [apply IH | exact IHl].
Qed.

Lemma walkExpression_shape (this : TemplateResolver) (e : Expression) (kinds : list bool) :
  markersBelowFrames true kinds = true ->
  hoare (stackIs kinds) (walkExpression this e) (fun _ => stackIs kinds) traced.
Proof.
  intros Hw. induction e as [p|path params hash loc IHpath IHparams IHhash|value loc|loc]
    using Expression_induction; try (apply hoare_ret; auto).
  simpl.
  eapply hoare_bind; [apply keeps_hoare, keeps_SubExpression_rewrite|]. intros rw.
  eapply hoare_bind; [apply hoare_observe; [exact Hw | apply orb_true_r]|]. intros [].
  apply hoare_bind with (Q := fun _ => stackIs kinds).
  { destruct rw; [exact IHpath | apply hoare_ret; auto | exact IHpath]. }
  intros path'.
  apply hoare_bind with (Q := fun _ => stackIs kinds).
  { assert (Hall : hoare (stackIs kinds) (mapM (walkExpression this) params)
                     (fun _ => stackIs kinds) traced) by (apply hoare_mapM; exact IHparams).
    destruct rw; try exact Hall.
    destruct params as [|x rest]; [exact Hall|].
    eapply hoare_bind; [apply hoare_mapM; inversion IHparams; assumption|].
    intros rest'. apply hoare_ret. auto. }
  intros params'.
  eapply hoare_bind.
  { apply hoare_mapM. eapply Forall_impl; [exact IHhash|].
    intros kv Hkv. simpl. eapply hoare_bind; [exact Hkv|]. intros v. apply hoare_ret. auto. }
  intros hash'. apply hoare_ret. auto.
Qed.

Lemma walkCall_shape (this : TemplateResolver) (node : Call) (kinds : list bool) :
  markersBelowFrames true kinds = true ->
  hoare (stackIs kinds) (walkCall this node) (fun _ => stackIs kinds) traced.
Proof.
  intros Hw. unfold walkCall.
  eapply hoare_bind; [apply walkExpression_shape; exact Hw|]. intros path'.
  eapply hoare_bind.
  { apply hoare_mapM, Forall_forall. intros x _. apply walkExpression_shape; exact Hw. }
  intros params'.
  eapply hoare_bind.
  { apply hoare_mapM, Forall_forall. intros kv _. unfold walkPair.
    eapply hoare_bind; [apply walkExpression_shape; exact Hw|]. intros v. apply hoare_ret. auto. }
  intros pairs'. apply hoare_ret. auto.
Qed.

Lemma walkMustache_shape (this : TemplateResolver) (parent : NodeType) (node : Call)
    (kinds : list bool) :
  markersBelowFrames false kinds = true ->
  hoare (stackIs kinds) (walkMustache this parent node) (fun _ => stackIs kinds) traced.
Proof.
  intros Hs. unfold walkMustache.
  eapply hoare_bind; [apply keeps_hoare, keeps_MustacheStatement_enter|]. intros node'.
  eapply hoare_bind; [apply hoare_observe_below; exact Hs|]. intros [].
  apply walkCall_shape, below_top_of_below, Hs.
Qed.

Lemma walkModifier_shape (this : TemplateResolver) (node : Call) (kinds : list bool) :
  markersBelowFrames false kinds = true ->
  hoare (stackIs kinds) (walkModifier this node) (fun _ => stackIs kinds) traced.
Proof.
  intros Hs. unfold walkModifier.
  eapply hoare_bind; [apply keeps_hoare, keeps_ElementModifierStatement_visit|]. intros node'.
  eapply hoare_bind; [apply hoare_observe_below; exact Hs|]. intros [].
  apply walkCall_shape, below_top_of_below, Hs.
Qed.

Lemma walkAttr_shape (this : TemplateResolver) (a : AttrNode) (kinds : list bool) :
  markersBelowFrames false kinds = true ->
  hoare (stackIs kinds) (walkAttr this a) (fun _ => stackIs kinds) traced.
Proof.
  intros Hs. unfold walkAttr. destruct (attr_value a) as [t|m|ps loc].
  - apply hoare_ret. auto.
  - eapply hoare_bind; [apply walkMustache_shape; exact Hs|]. intros m'. apply hoare_ret. auto.
  - eapply hoare_bind.
    { apply hoare_mapM, Forall_forall. intros part _. unfold walkConcatPart.
      destruct part as [t|m]; [apply hoare_ret; auto|].
      eapply hoare_bind; [apply walkMustache_shape; exact Hs|]. intros m'.
      apply hoare_ret. auto. }
    intros ps'. apply hoare_ret. auto.
Qed.

Lemma popShape_frame (kinds : list bool) :
  markersBelowFrames false kinds = true -> popShape (false :: kinds) = kinds.
Proof. destruct kinds as [|[|] rest]; simpl; auto. discriminate. Qed.

Lemma below_after_pop (kinds : list bool) :
  markersBelowFrames true kinds = true ->
  markersBelowFrames false (popShape (false :: kinds)) = true.
Proof. destruct kinds as [|[|] rest]; simpl; auto. Qed.

Lemma below_enterShape (this : TemplateResolver) (kinds : list bool) :
  markersBelowFrames true kinds = true ->
  markersBelowFrames false (enterShape this kinds) = true.
Proof. unfold enterShape. destruct (locals (env this)); simpl; auto. Qed.

Lemma walkBlock_shape (this : TemplateResolver)
    (walkBody : list Statement -> M (list Statement)) (body0 : list Statement)
    (names : list string) (owner : LiveNode) (kinds : list bool) :
  markersBelowFrames true kinds = true ->
  hoare (stackIs (enterShape this kinds)) (walkBody body0)
    (fun _ => stackIs (enterShape this kinds)) traced ->
  hoare (stackIs kinds) (walkBlock this walkBody body0 names owner)
    (fun _ => stackIs (popShape (false :: kinds))) traced.
Proof.
  intros Hw Hbody. unfold walkBlock.
  eapply hoare_bind; [apply hoare_Program_enter|]. intros [].
  eapply hoare_bind; [apply hoare_observe_below, below_enterShape, Hw|]. intros [].
  eapply hoare_bind; [exact Hbody|]. intros body'.
  eapply hoare_bind; [apply hoare_Program_exit|]. intros attributes.
  eapply hoare_bind; [apply hoare_observe_below, below_after_pop, Hw|]. intros [].
  apply hoare_ret. auto.
Qed.

Lemma walkStatement_shape (this : TemplateResolver) (s : Statement) :
  forall (parent : NodeType) (kinds : list bool),
    markersBelowFrames false kinds = true ->
    hoare (stackIs kinds) (walkStatement this parent s) (fun _ => stackIs kinds) traced.
Proof.
  induction s as [m|head program bps inverse IHprogram IHinverse
                  |tag attributes modifiers children bps loc IHchildren|t|value]
    using Statement_induction; intros parent kinds Hs.
  - simpl. eapply hoare_bind; [apply walkMustache_shape; exact Hs|]. intros m'.
    apply hoare_ret. auto.
  - assert (Hblock : forall body0 names owner kinds',
              Forall (fun s => forall parent kinds,
                        markersBelowFrames false kinds = true ->
                        hoare (stackIs kinds) (walkStatement this parent s)
                          (fun _ => stackIs kinds) traced) body0 ->
              markersBelowFrames true kinds' = true ->
              hoare (stackIs kinds')
                (walkBlock this (mapM (walkStatement this BlockType)) body0 names owner)
                (fun _ => stackIs (popShape (false :: kinds'))) traced).
    { intros body0 names owner kinds' Hall Hw'. apply walkBlock_shape; [exact Hw'|].
      apply hoare_mapM. eapply Forall_impl; [exact Hall|].
      intros x Hx. apply Hx, below_enterShape, Hw'. }
    pose proof (below_top_of_below kinds Hs) as Hw.
    simpl.
    eapply hoare_bind; [apply hoare_BlockStatement_visit|]. intros head1.
    assert (Hinverse : forall (A : Type) (k : list Statement * list Attribute -> M A),
              (forall r2, hoare (stackIs kinds) (k r2) (fun _ => stackIs kinds) traced) ->
              forall owner,
                match inverse with
                | Some (body2, bps2) =>
                    hoare (stackIs kinds)
                      (let! r2 := walkBlock this (mapM (walkStatement this BlockType)) body2 bps2
                                    owner in k r2)
                      (fun _ => stackIs kinds) traced
                | None => True
                end).
    { intros A k Hk owner. destruct inverse as [[body2 bps2]|]; [|exact I].
      eapply hoare_bind; [apply Hblock; [exact IHinverse | exact Hw]|]. intros r2.
      rewrite (popShape_frame kinds Hs). apply Hk. }
    assert (Hafter : forall head2 (r : list Statement * list Attribute),
              hoare (stackIs kinds)
                (let head3 := setPairs head2 (hashPairsOf (snd r)) in
                 match inverse with
                 | None => ret (BlockStatement head3 (fst r) bps None)
                 | Some (body2, bps2) =>
                     let! r2 := walkBlock this (mapM (walkStatement this BlockType)) body2 bps2
                                  {| live_tag := EmptyString;
                                     live_attributes := map HashPairAttribute (call_pairs head3) |} in
                     ret (BlockStatement (setPairs head3 (hashPairsOf (snd r2))) (fst r)
                            bps (Some (fst r2, bps2)))
                 end)
                (fun _ => stackIs kinds) traced).
    { intros head2 r. cbv zeta.
      specialize (Hinverse Statement
                    (fun r2 => ret (BlockStatement
                                      (setPairs (setPairs head2 (hashPairsOf (snd r)))
                                         (hashPairsOf (snd r2))) (fst r) bps
                                      (match inverse with
                                       | Some (_, bps2) => Some (fst r2, bps2)
                                       | None => None
                                       end)))
                    (fun r2 => hoare_ret _ _ _ _ (fun s Hs0 => Hs0))
                    {| live_tag := EmptyString;
                       live_attributes :=
                         map HashPairAttribute
                           (call_pairs (setPairs head2 (hashPairsOf (snd r)))) |}).
      destruct inverse as [[body2 bps2]|]; [exact Hinverse | apply hoare_ret; auto]. }
    apply hoare_or.
    + eapply hoare_bind; [apply hoare_observe; [exact Hw | apply orb_true_r]|]. intros [].
      eapply hoare_bind; [apply walkCall_shape; exact Hw|]. intros head2.
      eapply hoare_bind; [apply Hblock; [exact IHprogram | exact Hw]|]. intros r.
      rewrite (popShape_frame kinds Hs). apply Hafter.
    + assert (Hw1 : markersBelowFrames true (true :: kinds) = true) by (simpl; exact Hs).
      eapply hoare_bind; [apply hoare_observe; [exact Hw1 | apply orb_true_r]|]. intros [].
      eapply hoare_bind; [apply walkCall_shape; exact Hw1|]. intros head2.
      eapply hoare_bind; [apply Hblock; [exact IHprogram | exact Hw1]|]. intros r.
      apply Hafter.
  - simpl.
    eapply hoare_bind; [apply hoare_ElementNode_enter|]. intros tag'.
    assert (Hinside : forall kinds',
              markersBelowFrames false kinds' = true ->
              popShape kinds' = kinds ->
              hoare (stackIs kinds')
                (observe ElementNodeEnter ;;;
                 let! attributes' := mapM (walkAttr this) attributes in
                 let! modifiers' := mapM (walkModifier this) modifiers in
                 let! children' := mapM (walkStatement this ElementNodeType) children in
                 let! attributes2 :=
                   ElementNode_exit this {| live_tag := tag';
                                            live_attributes := map AttrNodeAttribute attributes' |} in
                 observe ElementNodeExit ;;;
                 ret (ElementNode tag' (attrNodesOf attributes2) modifiers' children' bps loc))
                (fun _ => stackIs kinds) traced).
    { intros kinds' Hs' Hpop.
      eapply hoare_bind; [apply hoare_observe_below; exact Hs'|]. intros [].
      eapply hoare_bind.
      { apply hoare_mapM, Forall_forall. intros a _. apply walkAttr_shape; exact Hs'. }
      intros attributes'.
      eapply hoare_bind.
      { apply hoare_mapM, Forall_forall. intros a _. apply walkModifier_shape; exact Hs'. }
      intros modifiers'.
      eapply hoare_bind.
      { apply hoare_mapM. eapply Forall_impl; [exact IHchildren|].
        intros x Hx. apply Hx; exact Hs'. }
      intros children'.
      eapply hoare_bind; [apply hoare_pop|]. intros attributes2. rewrite Hpop.
      eapply hoare_bind; [apply hoare_observe_below; exact Hs|]. intros [].
      apply hoare_ret. auto. }
    apply hoare_or; apply Hinside.
    + simpl. apply below_top_of_below, Hs.
    + apply popShape_frame, Hs.
    + simpl. exact Hs.
    + reflexivity.
  - apply hoare_ret. auto.
  - apply hoare_ret. auto.
Qed.

Lemma walkTemplate_shape (this : TemplateResolver) (t : Template) :
  hoare (stackIs []) (walkTemplate this t) (fun _ => stackIs []) traced.
Proof.
  unfold walkTemplate.
  eapply hoare_bind.
  { apply walkBlock_shape; [reflexivity|].
    apply hoare_mapM, Forall_forall. intros x _.
    apply walkStatement_shape, below_enterShape. reflexivity. }
  intros r. apply hoare_ret. auto.
Qed.



(** *** The traversal and the handler of a sub-expression *)

Lemma mapM_cons {A B} (f : A -> M B) (x : A) (l : list A) :
  mapM f (x :: l) = (let! y := f x in let! r' := mapM f l in ret (y :: r')).
Proof. reflexivity. Qed.

Lemma walkExpression_leaf (this : TemplateResolver) (e : Expression) :
  isLeaf e = true -> walkExpression this e = ret e.
Proof. destruct e; [reflexivity | discriminate | reflexivity | reflexivity]. Qed.

Lemma mapM_identity {A} (f : A -> M A) (l : list A) (s : State) :
  Forall (fun x => forall s', f x s' = Return x s') l -> mapM f l s = Return l s.
Proof.
  induction 1 as [|x l Hx Hl IH]; [reflexivity|].
  rewrite mapM_cons. unfold bind at 1. rewrite Hx.
  unfold bind at 1. rewrite IH. reflexivity.
Qed.

Lemma mapM_leaves (this : TemplateResolver) (l : list Expression) (s : State) :
  forallb isLeaf l = true -> mapM (walkExpression this) l s = Return l s.
Proof.
  intros Hl. apply mapM_identity, Forall_forall. intros x Hx s'.
  rewrite forallb_forall in Hl. rewrite (walkExpression_leaf this x); [reflexivity|].
  apply Hl, list_elem_of_In, Hx.
Qed.

Lemma mapM_leaf_pairs (this : TemplateResolver) (l : list HashPair) (s : State) :
  forallb (fun kv => isLeaf (snd kv)) l = true ->
  mapM (fun kv : string * Expression =>
          let! v := walkExpression this (snd kv) in ret (fst kv, v)) l s = Return l s.
Proof.
  intros Hl. apply mapM_identity, Forall_forall. intros [k x] Hx s'.
  rewrite forallb_forall in Hl. simpl.
  rewrite (walkExpression_leaf this x); [reflexivity|].
  apply (Hl (k, x)), list_elem_of_In, Hx.
Qed.

(** On a sub-expression without sub-expressions of its own the traversal
    gives the node as [SubExpression_visit] leaves it, and records the
    handler. *)
Lemma walkExpression_flat (this : TemplateResolver) (path : Expression)
    (params : list Expression) (hash : list HashPair) (loc : Loc) (s : State) :
  isLeaf path = true ->
  forallb isLeaf params = true ->
  forallb (fun kv => isLeaf (snd kv)) hash = true ->
  walkExpression this (SubExpression path params hash loc) s =
    match SubExpression_visit this (mkCall path params hash loc) s with
    | Return node' s' =>
        Return (SubExpression (call_path node') (call_params node') (call_pairs node') loc)
          (with_trace (trace s' ++ [(SubExpressionVisit, stack s')]) s')
    | Throw e s' => Throw e s'
    end.
Proof.
  intros Hpath Hparams Hhash.
  change (walkExpression this (SubExpression path params hash loc))
    with (let! rw := SubExpression_rewrite this (mkCall path params hash loc) in
          observe SubExpressionVisit ;;;
          let! path' := match rw with
                        | SetPath newId => ret (EPath newId)
                        | _ => walkExpression this path
                        end in
          let! params' := match rw, params with
                          | SetFirstParam newId, _ :: rest =>
                              let! rest' := mapM (walkExpression this) rest in
                              ret (EPath newId :: rest')
                          | _, _ => mapM (walkExpression this) params
                          end in
          let! hash' := mapM (fun kv : string * Expression =>
                                let! v := walkExpression this (snd kv) in ret (fst kv, v)) hash in
          ret (SubExpression path' params' hash' loc)).
  assert (Hvisit : SubExpression_visit this (mkCall path params hash loc) s
                   = match SubExpression_rewrite this (mkCall path params hash loc) s with
                     | Return rw s' => Return (applyRewrite rw (mkCall path params hash loc)) s'
                     | Throw e s' => Throw e s'
                     end) by reflexivity.
  rewrite Hvisit. clear Hvisit. unfold bind at 1.
  destruct (SubExpression_rewrite this (mkCall path params hash loc) s) as [rw s'|e s'];
    [|reflexivity].
  unfold bind at 1. unfold observe at 1.
  rewrite (walkExpression_leaf this path Hpath).
  destruct rw as [|newId|newId]; unfold bind, ret; cbn [applyRewrite].
  - rewrite (mapM_leaves this params _ Hparams), (mapM_leaf_pairs this hash _ Hhash).
    reflexivity.
  - rewrite (mapM_leaves this params _ Hparams), (mapM_leaf_pairs this hash _ Hhash).
    reflexivity.
  - destruct params as [|x rest].
    + rewrite (mapM_leaves this [] _ eq_refl), (mapM_leaf_pairs this hash _ Hhash). reflexivity.
    + apply andb_true_iff in Hparams as [_ Hrest].
      rewrite (mapM_leaves this rest _ Hrest), (mapM_leaf_pairs this hash _ Hhash). reflexivity.
Qed.

(** *** Names that are never resolved *)

(** X1: a built-in keyword is resolved by no target function, as a
    component, helper or modifier, by name or as the literal of a dynamic
    form, whatever the toggles, the rules and the collector; the rule
    index is not even read. *)
Theorem built_in_keywords_are_never_resolved (this : TemplateResolver) (name : string)
    (s : State) :
  Array_includes builtInKeywords name = true ->
  targetComponent this name s = Return None s
  /\ targetHelper this name = None
  /\ targetElementModifier this name = None
  /\ (forall loc hasArgs, targetHelperOrComponent this name loc hasArgs s = Return None s)
  /\ (forall loc implied,
        targetComponentHelper this (LocatorLiteral name) loc implied s = Return None s)
  /\ targetDynamicHelper this (LocatorLiteral name) = None
  /\ (forall loc, targetDynamicModifier this (LocatorLiteral name) loc = None).
Proof.
  intros Hkw.
  assert (Hc : targetComponent this name s = Return None s).
  { unfold targetComponent. rewrite Hkw. destruct (negb (staticComponentsEnabled this)); reflexivity. }
  assert (Hh : targetHelper this name = None).
  { unfold targetHelper. rewrite Hkw. destruct (negb (staticHelpersEnabled this)); reflexivity. }
  assert (Hm : targetElementModifier this name = None).
  { unfold targetElementModifier. rewrite Hkw.
    destruct (negb (staticModifiersEnabled this)); reflexivity. }
  repeat split; auto.
  - intros loc hasArgs. unfold targetHelperOrComponent. rewrite Hkw.
    destruct (negb (staticHelpersEnabled this) && negb (staticComponentsEnabled this));
      reflexivity.
  - intros loc implied. unfold targetComponentHelper, bind.
    destruct (negb (staticComponentsEnabled this)); [reflexivity|]. rewrite Hc. reflexivity.
  - unfold targetDynamicHelper. rewrite Hh. destruct (negb (staticHelpersEnabled this)); reflexivity.
  - intros loc. unfold targetDynamicModifier. rewrite Hm.
    destruct (negb (staticModifiersEnabled this)); reflexivity.
Qed.

(** X2: a name that a component rule flags [safeToIgnore] is resolved as a
    component by nothing: not by [targetComponent], not as the literal of
    a dynamic component, and not in the ambiguous position, where neither
    an error is reported nor a [disambiguate] entry of the file is
    looked at. *)
Theorem ignored_components_are_never_resolved (this : TemplateResolver) (name : string)
    (index : RuleIndex) (s : State) :
  rules this = Ok index ->
  isIgnored index name = true ->
  targetComponent this name s = Return None s
  /\ (forall loc implied,
        targetComponentHelper this (LocatorLiteral name) loc implied s = Return None s)
  /\ (forall loc hasArgs, targetHelperOrComponent this name loc hasArgs s = Return None s).
Proof.
  intros Hrules Hign. unfold isIgnored in Hign.
  assert (Hc : targetComponent this name s = Return None s).
  { unfold targetComponent, isIgnoredComponent, getRules, liftResult, bind, ret.
    rewrite Hrules, Hign.
    destruct (negb (staticComponentsEnabled this)); [reflexivity|].
    destruct (Array_includes builtInKeywords name); reflexivity. }
  split; [exact Hc|]. split.
  - intros loc implied. unfold targetComponentHelper, bind.
    destruct (negb (staticComponentsEnabled this)); [reflexivity|]. rewrite Hc. reflexivity.
  - intros loc hasArgs.
    unfold targetHelperOrComponent, isIgnoredComponent, getRules, liftResult, bind, ret.
    rewrite Hrules, Hign.
    destruct (negb (staticHelpersEnabled this) && negb (staticComponentsEnabled this));
      [reflexivity|].
    destruct (Array_includes builtInKeywords name); reflexivity.
Qed.

(** X3: the [helper] and [modifier] keyword forms never give an error: a
    first argument that is a string literal is resolved by name, and any
    other argument is left alone. *)
Theorem helper_and_modifier_keywords_never_fail (this : TemplateResolver) (param : Expression) :
  handleDynamicHelper this param
  = match param with
    | StringLiteral value _ => option_map Helper (targetHelper this value)
    | _ => None
    end
  /\ handleDynamicModifier this param
     = match param with
       | StringLiteral value _ => option_map Modifier (targetElementModifier this value)
       | _ => None
       end.
Proof.
  split.
  - destruct param; try reflexivity. simpl. unfold targetDynamicHelper, targetHelper.
    destruct (negb (staticHelpersEnabled this)); reflexivity.
  - destruct param; try reflexivity. simpl. unfold targetDynamicModifier, targetElementModifier.
    destruct (negb (staticModifiersEnabled this)); reflexivity.
Qed.

(** *** Callees that are not global *)

(** X4: a callee whose root is bound by a frame of the scope stack, or
    that is relative to [this], is left alone by the handler of every
    kind of call: the node comes back as it is and nothing of the state
    changes. *)
Theorem local_callees_are_left_alone (this : TemplateResolver) (node : Call)
    (p : PathExpression) (parent : option NodeType) (s : State) :
  call_path node = EPath p ->
  rootInScope (stack s) (head (parts p)) || this_ p = true ->
  BlockStatement_visit this node s = Return node s
  /\ MustacheStatement_enter this node parent s = Return node s
  /\ ElementModifierStatement_visit this node s = Return node s
  /\ SubExpression_visit this node s = Return node s.
Proof.
  intros Hp Hlocal.
  unfold BlockStatement_visit, MustacheStatement_enter, ElementModifierStatement_visit,
    SubExpression_visit, SubExpression_rewrite, bind, getStack.
  rewrite Hp.
  destruct (this_ p); cbv beta;
    destruct (rootInScope (stack s) (head (parts p)));
    try discriminate; repeat split; reflexivity.
Qed.

(** X5: a dotted callee is left alone by the handlers of block
    statements, mustaches and element modifiers; so is a mustache whose
    callee starts with [@], and an element modifier whose callee is
    marked as data. *)
Theorem contextual_callees_are_left_alone (this : TemplateResolver) (node : Call)
    (p : PathExpression) (parent : option NodeType) (s : State) :
  call_path node = EPath p ->
  ((1 <? length (parts p))%nat = true ->
     BlockStatement_visit this node s = Return node s
     /\ MustacheStatement_enter this node parent s = Return node s
     /\ ElementModifierStatement_visit this node s = Return node s)
  /\ (startsWith (original p) "@" = true ->
        MustacheStatement_enter this node parent s = Return node s)
  /\ (data p = true -> ElementModifierStatement_visit this node s = Return node s).
Proof.
  intros Hp.
  unfold BlockStatement_visit, MustacheStatement_enter, ElementModifierStatement_visit,
    bind, getStack.
  rewrite Hp.
  split; [|split]; intros Hc; rewrite Hc;
    destruct (rootInScope (stack s) (head (parts p))), (this_ p);
    repeat split; try reflexivity;
    repeat match goal with
           | |- context [if ?b then _ else _] => destruct b
           end; reflexivity.
Qed.

(** X6: the enter handler of an element whose tag has its root bound by
    the scope stack, or begins with a character that is its own lower
    case, resolves nothing: it pushes the frame of the block parameters
    and leaves the tag as it is. *)
Theorem plain_elements_only_push_their_frame (this : TemplateResolver) (c : ascii) (r : string)
    (names : list string) (s : State) :
  inScope (stack s) (default "undefined" (head (split "." (String c r)))) = true
  \/ toLowerCase (String c EmptyString) = String c EmptyString ->
  ElementNode_enter this (String c r) names s
  = Return (String c r) (with_stack (push names (stack s)) s).
Proof.
  intros Hplain. unfold ElementNode_enter, bind, getStack.
  destruct (inScope (stack s) (default "undefined" (head (split "." (String c r))))) eqn:Hin.
  - reflexivity.
  - destruct Hplain as [Hscope|Hlower]; [discriminate|].
    rewrite Hlower, String.eqb_refl. destruct s; reflexivity.
Qed.

(** *** Name hints and file names *)

Lemma String_includes_char (c a : ascii) (r : string) :
  String_includes (String a r) (String c EmptyString)
  = Ascii.eqb c a || String_includes r (String c EmptyString).
Proof.
  simpl. destruct (ascii_dec c a) as [Heq|Hne].
  - subst. rewrite Ascii.eqb_refl. now destruct r.
  - apply Ascii.eqb_neq in Hne. rewrite Hne. reflexivity.
Qed.

Lemma append_assoc (a b c : string) : (a +:+ b) +:+ c = a +:+ (b +:+ c).
Proof.
  induction a as [|x a IH]; [reflexivity|].
  change (String x ((a +:+ b) +:+ c) = String x (a +:+ b +:+ c)). now rewrite IH.
Qed.

Lemma append_nil_r (a : string) : a +:+ EmptyString = a.
Proof.
  induction a as [|x a IH]; [reflexivity|].
  change (String x (a +:+ EmptyString) = String x a). now rewrite IH.
Qed.

Lemma split_acc_without_separator (c : ascii) (s cur : string) :
  String_includes s (String c EmptyString) = false ->
  split_acc c cur s = [cur +:+ s].
Proof.
  revert cur. induction s as [|a r IH]; intros cur Hno.
  - simpl. now rewrite append_nil_r.
  - rewrite String_includes_char in Hno. apply orb_false_elim in Hno as [Hac Hr].
    simpl. rewrite Ascii.eqb_sym, Hac. rewrite (IH _ Hr). rewrite append_assoc. reflexivity.
Qed.

Lemma split_acc_not_empty (c : ascii) (s cur : string) : split_acc c cur s <> [].
Proof.
  revert cur. induction s as [|a r IH]; intros cur; simpl; [discriminate|].
  destruct (Ascii.eqb a c); [discriminate|apply IH].
Qed.

Lemma lastPart_cons (x : string) (l : list string) : l <> [] -> lastPart (x :: l) = lastPart l.
Proof. destruct l; [congruence|reflexivity]. Qed.

Lemma lastPart_split_acc (c : ascii) (pre post cur : string) :
  String_includes post (String c EmptyString) = false ->
  lastPart (split_acc c cur (pre +:+ String c post)) = post.
Proof.
  intros Hno. revert cur. induction pre as [|a r IH]; intros cur; simpl.
  - rewrite Ascii.eqb_refl, (split_acc_without_separator _ _ _ Hno). reflexivity.
  - destruct (Ascii.eqb a c); [|apply IH].
    rewrite lastPart_cons by apply split_acc_not_empty. apply IH.
Qed.

(** X7: the name hint of a path is what follows its last [@], with an
    underscore appended; a path without [@] is its own hint, up to the
    underscore. *)
Theorem nameHint_is_the_last_segment (post : string) :
  String_includes post "@" = false ->
  nameHint post = post +:+ "_"
  /\ forall pre, nameHint (pre +:+ "@" +:+ post) = post +:+ "_".
Proof.
  intros Hno. unfold nameHint, split. split.
  - rewrite (split_acc_without_separator _ _ _ Hno). reflexivity.
  - intros pre. change ("@" +:+ post) with (String "@"%char post).
    rewrite (lastPart_split_acc _ _ _ _ Hno). reflexivity.
Qed.

Lemma slice_append (a b : string) : slice (String.length a) (a +:+ b) = b.
Proof. induction a as [|c a IH]; [reflexivity|exact IH]. Qed.

(** X8: a file below the application root is named relative to it,
    whether or not the configured root ends with a slash; so the error
    thrown for a template of the application names the template relative
    to the root, and carries the whole file name as [moduleName]. *)
Theorem files_are_named_relative_to_the_root (this : TemplateResolver) (rel : string)
    (dep : ResolutionFail) :
  filename (env this) = withSlash (appRoot (config this)) +:+ rel ->
  humanReadableFile this (withSlash (appRoot (config this)) +:+ rel) = rel
  /\ resolverError this dep
     = TemplateResolverError (message dep +:+ ": " +:+ detail dep +:+ " in " +:+ rel)
         (fail_loc dep) (withSlash (appRoot (config this)) +:+ rel).
Proof.
  intros Hfile.
  assert (Hrel : humanReadableFile this (withSlash (appRoot (config this)) +:+ rel) = rel).
  { unfold humanReadableFile, withSlash.
    destruct (endsWith (appRoot (config this)) "/"); simpl negb; cbv iota;
      unfold startsWith; rewrite prefix_append, slice_append; reflexivity. }
  split; [exact Hrel|]. unfold resolverError. rewrite Hfile, Hrel. reflexivity.
Qed.

(** *** The rule index *)

Lemma lastDeclared_app {A : Type} (key : string -> option string) (name : string)
    (l1 l2 : list (string * A)) :
  lastDeclared key name (l1 ++ l2)
  = match lastDeclared key name l2 with
    | Some later => Some later
    | None => lastDeclared key name l1
    end.
Proof.
  induction l1 as [|[k r] l1 IH]; simpl.
  - now destruct (lastDeclared key name l2).
  - rewrite IH. now destruct (lastDeclared key name l2).
Qed.

Lemma overlaid_app (key : string -> option string) (name : string)
    (l1 l2 : list (string * RawRule)) (before : option PreprocessedComponentRule) :
  overlaid key name (l1 ++ l2) before = overlaid key name l2 (overlaid key name l1 before).
Proof.
  unfold overlaid. rewrite lastDeclared_app. now destruct (lastDeclared key name l2).
Qed.

Lemma overlaid_cons (key : string -> option string) (name k : string) (r : RawRule)
    (rest : list (string * RawRule)) (m : gmap string PreprocessedComponentRule) (k' : string) :
  key k = Some k' ->
  overlaid key name ((k, r) :: rest) (m !! name)
  = overlaid key name rest (<[k' := preprocessComponentRule r]> m !! name).
Proof.
  intros Hk. unfold overlaid. simpl. destruct (lastDeclared key name rest); [reflexivity|].
  rewrite Hk. destruct (decide (Some k' = Some name)) as [Heq|Hne].
  - injection Heq as ->. now rewrite lookup_insert_eq.
  - rewrite lookup_insert_ne by congruence. reflexivity.
Qed.

Lemma setComponents_lookup (entries : list (string * RawRule))
    (m m' : gmap string PreprocessedComponentRule) (name : string) :
  setComponents entries m = Ok m' ->
  m' !! name = overlaid snippetToDasherizedName name entries (m !! name).
Proof.
  revert m. induction entries as [|[snippet r] rest IH]; intros m Hset; simpl in Hset.
  - injection Hset as <-. reflexivity.
  - unfold standardDasherize in Hset.
    destruct (snippetToDasherizedName snippet) as [k'|] eqn:Hk; [|discriminate].
    rewrite (overlaid_cons _ _ _ _ _ _ _ Hk). apply IH, Hset.
Qed.

Lemma setComponents_outcome (entries : list (string * RawRule))
    (m : gmap string PreprocessedComponentRule) :
  match firstUnparsed entries with
  | Some snippet => setComponents entries m = Failed (SnippetError snippet)
  | None => exists m', setComponents entries m = Ok m'
  end.
Proof.
  revert m. unfold firstUnparsed.
  induction entries as [|[snippet r] rest IH]; intros m; simpl.
  - now exists m.
  - unfold standardDasherize.
    destruct (snippetToDasherizedName snippet) as [k'|] eqn:Hk.
    + rewrite bool_decide_eq_false_2 by discriminate. apply IH.
    + rewrite bool_decide_eq_true_2 by reflexivity. reflexivity.
Qed.

Lemma setAppTemplates_lookup (root : string) (entries : list (string * RawRule))
    (m : gmap string PreprocessedComponentRule) (path : string) :
  setAppTemplates root entries m !! path
  = overlaid Some path (map (fun entry => (join root (fst entry), snd entry)) entries)
      (m !! path).
Proof.
  revert m. induction entries as [|[p r] rest IH]; intros m; simpl; [reflexivity|].
  rewrite (overlaid_cons Some _ _ _ _ _ _ eq_refl). apply IH.
Qed.

Lemma setRoots_lookup (rootList : list string) (p : string) (r : RawRule)
    (m : gmap string PreprocessedComponentRule) (path : string) :
  setRoots rootList p (preprocessComponentRule r) m !! path
  = overlaid Some path (map (fun addonRoot => (join addonRoot p, r)) rootList) (m !! path).
Proof.
  revert m. induction rootList as [|root rest IH]; intros m; simpl; [reflexivity|].
  rewrite (overlaid_cons Some _ _ _ _ _ _ eq_refl). apply IH.
Qed.

Lemma setAddonTemplates_lookup (rootList : list string) (entries : list (string * RawRule))
    (m : gmap string PreprocessedComponentRule) (path : string) :
  setAddonTemplates rootList entries m !! path
  = overlaid Some path
      (flat_map (fun entry => map (fun addonRoot => (join addonRoot (fst entry), snd entry))
                                rootList) entries)
      (m !! path).
Proof.
  revert m. induction entries as [|[p r] rest IH]; intros m; simpl; [reflexivity|].
  rewrite overlaid_app, IH, setRoots_lookup. reflexivity.
Qed.

Lemma collectRules_lookup (root : string) (packageRules : list ActivePackageRules)
    (start index : RuleIndex) (name : string) :
  collectRules root packageRules start = Ok index ->
  components index !! name
  = overlaid snippetToDasherizedName name (declaredComponents packageRules)
      (components start !! name)
  /\ files index !! name
     = overlaid Some name (declaredFiles root packageRules) (files start !! name).
Proof.
  revert start. induction packageRules as [|rule rest IH]; intros start Hc; simpl in Hc.
  - injection Hc as <-. split; reflexivity.
  - unfold declaredComponents, declaredFiles. simpl flat_map.
    rewrite !overlaid_app.
    destruct (match rule_components rule with
              | Some entries => setComponents entries (components start)
              | None => Ok (components start)
              end) as [components1|e] eqn:Hset; [|discriminate].
    apply IH in Hc as [Hcomponents Hfiles]. simpl in Hcomponents, Hfiles.
    split.
    + rewrite Hcomponents. unfold declaredComponents. f_equal.
      destruct (rule_components rule) as [entries|]; simpl.
      * apply setComponents_lookup, Hset.
      * injection Hset as <-. reflexivity.
    + rewrite Hfiles. unfold declaredFiles. f_equal.
      destruct (rule_addonTemplates rule) as [addons|]; simpl;
        [rewrite setAddonTemplates_lookup; f_equal|];
        (destruct (rule_appTemplates rule) as [apps|]; simpl;
           [apply setAppTemplates_lookup|reflexivity]).
Qed.

Lemma find_append {A : Type} (f : A -> bool) (l1 l2 : list A) :
  find f (l1 ++ l2) = match find f l1 with Some x => Some x | None => find f l2 end.
Proof. induction l1 as [|x l1 IH]; simpl; [reflexivity|]. now destruct (f x). Qed.

Lemma collectRules_outcome (root : string) (packageRules : list ActivePackageRules)
    (start : RuleIndex) :
  match firstUnparsed (declaredComponents packageRules) with
  | Some snippet => collectRules root packageRules start = Failed (SnippetError snippet)
  | None => exists index, collectRules root packageRules start = Ok index
  end.
Proof.
  revert start. induction packageRules as [|rule rest IH]; intros start; simpl.
  - now exists start.
  - unfold firstUnparsed, declaredComponents in *. simpl flat_map.
    rewrite map_app, find_append.
    destruct (rule_components rule) as [entries|]; simpl default.
    + pose proof (setComponents_outcome entries (components start)) as Hset.
      unfold firstUnparsed in Hset.
      destruct (find _ (map fst entries)) as [snippet|].
      * rewrite Hset. reflexivity.
      * destruct Hset as [m' ->]. apply IH.
    + simpl. apply IH.
Qed.

(** X9: the rule index is built exactly when every snippet that names a
    component in the package rules parses; otherwise reading the rules
    throws for the first snippet that does not, whatever the templates
    the rules name. *)
Theorem rule_index_needs_every_snippet_parsed (this : TemplateResolver) :
  match firstUnparsed (declaredComponents (activePackageRules (config this))) with
  | Some snippet => rules this = Failed (SnippetError snippet)
  | None => exists index, rules this = Ok index
  end.
Proof. apply collectRules_outcome. Qed.

(** X10: in the rule index, the rule of a component is the preprocessed
    form of the last declared entry whose snippet dasherizes to its
    name, and the rule of a file that of the last declared template
    entry stored at its name: under the application root for an
    application template, under each root of the package for an addon
    template.  A name that no entry gives has no rule. *)
Theorem later_rules_win (this : TemplateResolver) (index : RuleIndex) (name : string) :
  rules this = Ok index ->
  components index !! name
  = option_map preprocessComponentRule
      (lastDeclared snippetToDasherizedName name
         (declaredComponents (activePackageRules (config this))))
  /\ files index !! name
     = option_map preprocessComponentRule
         (lastDeclared Some name
            (declaredFiles (appRoot (config this)) (activePackageRules (config this)))).
Proof.
  intros Hrules. apply (collectRules_lookup _ _ _ _ name) in Hrules as [Hc Hf].
  rewrite Hc, Hf. unfold overlaid. simpl. rewrite !lookup_empty.
  split; [destruct (lastDeclared snippetToDasherizedName _ _)|destruct (lastDeclared Some _ _)];
    reflexivity.
Qed.

(** *** The scope stack *)

Lemma Array_indexOf_includes (names : list string) (x : string) (i : nat) :
  Array_indexOf names x = Some i -> Array_includes names x = true.
Proof.
  revert i. induction names as [|y r IH]; intros i; simpl; [discriminate|].
  destruct (String.eqb y x); [reflexivity|].
  destruct (Array_indexOf r x) as [j|]; [|discriminate]. intros _. exact (IH j eq_refl).
Qed.

Lemma scanScopes_unbound (parts0 : list string) (stack0 : list ScopeEntry) :
  inScope stack0 (default "undefined" (head parts0)) = false ->
  scanScopes parts0 stack0 = (false, stack0).
Proof.
  induction stack0 as [|here rest IH]; intros Hout; [reflexivity|].
  cbn [scanScopes].
  assert (Hrest : inScope rest (default "undefined" (head parts0)) = false).
  { destruct here as [names|m]; simpl in Hout; [|exact Hout].
    destruct (Array_includes names _); [discriminate|exact Hout]. }
  assert (Hrec : (let (b, r) := scanScopes parts0 rest in (b, here :: r))
                 = (false, here :: rest)) by now rewrite (IH Hrest).
  destruct here as [names|m]; [|exact Hrec].
  destruct rest as [|[names'|next] rest']; [exact Hrec|exact Hrec|].
  destruct (Array_indexOf names (default "undefined" (head parts0))) as [i|] eqn:Hi;
    [|exact Hrec].
  apply Array_indexOf_includes in Hi. simpl in Hout. rewrite Hi in Hout. discriminate.
Qed.

(** X11: a path whose first segment is bound by no frame of the scope
    stack is not a safe component, and asking leaves the stack as it
    is. *)
Theorem unbound_names_are_never_safe (stack0 : list ScopeEntry) (name : string) :
  inScope stack0 (default "undefined" (head (split "." name))) = false ->
  safeComponentInScope stack0 name = (false, stack0).
Proof.
  intros Hout. unfold safeComponentInScope.
  destruct (2 <? length (split "." name))%nat; [reflexivity|].
  apply scanScopes_unbound, Hout.
Qed.

Lemma markerProvesSafe_effect (parts0 : list string) (i : nat) (next : ComponentBlockMarker) :
  snd (markerProvesSafe parts0 i next) = next
  \/ (fst (markerProvesSafe parts0 i next) = true
      /\ exists sourceArg, snd (markerProvesSafe parts0 i next) = pushArgument next sourceArg).
Proof.
  unfold markerProvesSafe.
  repeat match goal with
         | |- context [match ?x with _ => _ end] => destruct x
         end; simpl; eauto.
Qed.

Lemma scanScopes_effect (parts0 : list string) (stack0 : list ScopeEntry) :
  snd (scanScopes parts0 stack0) = stack0
  \/ (fst (scanScopes parts0 stack0) = true
      /\ exists above names next below sourceArg,
           stack0 = above ++ blockParamsEntry names :: componentBlockMarker next :: below
           /\ Array_includes names (default "undefined" (head parts0)) = true
           /\ snd (scanScopes parts0 stack0)
              = above ++ blockParamsEntry names
                  :: componentBlockMarker (pushArgument next sourceArg) :: below).
Proof.
  induction stack0 as [|here rest IH]; [left; reflexivity|].
  cbn [scanScopes].
  assert (Hrec :
    snd (let (b, r) := scanScopes parts0 rest in (b, here :: r)) = here :: rest
    \/ (fst (let (b, r) := scanScopes parts0 rest in (b, here :: r)) = true
        /\ exists above names next below sourceArg,
             here :: rest = above ++ blockParamsEntry names :: componentBlockMarker next :: below
             /\ Array_includes names (default "undefined" (head parts0)) = true
             /\ snd (let (b, r) := scanScopes parts0 rest in (b, here :: r))
                = above ++ blockParamsEntry names
                    :: componentBlockMarker (pushArgument next sourceArg) :: below)).
  { destruct (scanScopes parts0 rest) as [b r]. simpl in *.
    destruct IH as [->|[-> (above & names & next & below & sourceArg & -> & Hin & ->)]];
      [left; reflexivity|right].
    split; [reflexivity|]. exists (here :: above), names, next, below, sourceArg. auto. }
  destruct here as [names|m]; [|exact Hrec].
  destruct rest as [|[names'|next] rest']; [exact Hrec|exact Hrec|].
  destruct (Array_indexOf names (default "undefined" (head parts0))) as [i|] eqn:Hi;
    [|exact Hrec].
  apply Array_indexOf_includes in Hi.
  pose proof (markerProvesSafe_effect parts0 i next) as Hm.
  destruct (markerProvesSafe parts0 i next) as [b next']. simpl in *.
  destruct Hm as [->|[-> [sourceArg ->]]]; [left; reflexivity|right].
  split; [reflexivity|]. exists [], names, next, rest', sourceArg. auto.
Qed.

(** X12: asking whether a path is a safe component changes the scope
    stack in one way only: when the answer is yes because a rule
    forwards an argument, the name of that argument is appended to the
    [argumentsAreComponents] of one marker, the one below a frame that
    binds the first segment of the path.  A negative answer changes
    nothing. *)
Theorem safeComponentInScope_effect (stack0 : list ScopeEntry) (name : string) :
  snd (safeComponentInScope stack0 name) = stack0
  \/ (fst (safeComponentInScope stack0 name) = true
      /\ exists above names next below sourceArg,
           stack0 = above ++ blockParamsEntry names :: componentBlockMarker next :: below
           /\ Array_includes names (default "undefined" (head (split "." name))) = true
           /\ snd (safeComponentInScope stack0 name)
              = above ++ blockParamsEntry names
                  :: componentBlockMarker (pushArgument next sourceArg) :: below).
Proof.
  unfold safeComponentInScope.
  destruct (2 <? length (split "." name))%nat; [left; reflexivity|].
  apply scanScopes_effect.
Qed.

(** *** Arguments that are components *)

Lemma findAttribute_found (name : string) (attributes : list Attribute) (i : nat)
    (attr : Attribute) :
  findAttribute name attributes = Some (i, attr) ->
  attributes !! i = Some attr /\ attributeNamed name attr = true.
Proof.
  revert i. induction attributes as [|a rest IH]; intros i; simpl; [discriminate|].
  fold (attributeNamed name a). destruct (attributeNamed name a) eqn:Hnamed.
  - intros [= <- <-]. auto.
  - destruct (findAttribute name rest) as [[j b]|]; [|discriminate].
    intros [= <- <-]. exact (IH j eq_refl).
Qed.

Lemma emit_value {T : Type} (this : TemplateResolver) (target : T) (r : option Resolution)
    (setter : T -> PathExpression -> T) (s : State) :
  match emit this target r setter s with
  | Return target' _ => target' = target \/ exists newId, target' = setter target newId
  | Throw _ _ => True
  end.
Proof.
  destruct r as [[c|h|m|f]|]; simpl; eauto.
  unfold bind. destruct (reportError this f s); simpl; auto.
Qed.

Lemma attributeNamed_set (name : string) (attr : Attribute) (newId : PathExpression) :
  attributeNamed name (setAttributeValue attr newId) = attributeNamed name attr.
Proof. destruct attr; reflexivity. Qed.

Lemma setAttributeValue_twice (attr : Attribute) (id1 id2 : PathExpression) :
  setAttributeValue (setAttributeValue attr id1) id2 = setAttributeValue attr id2.
Proof. destruct attr; reflexivity. Qed.

Lemma rewrittenFor_more (name : string) (names : list string) (a b c : Attribute) :
  (b = a \/ (attributeNamed name a = true /\ exists newId, b = setAttributeValue a newId)) ->
  rewrittenFor names b c -> rewrittenFor (name :: names) a c.
Proof.
  unfold rewrittenFor. simpl.
  intros [->|[Hnamed [id1 ->]]] [->|[Hex [id2 ->]]].
  - now left.
  - right. rewrite Hex, orb_true_r. eauto.
  - right. rewrite Hnamed. eauto.
  - right. rewrite Hnamed. split; [reflexivity|]. exists id2. apply setAttributeValue_twice.
Qed.

(** X13: [handleDynamicComponentArguments] keeps the attributes it is
    given in number and order; each comes back as it was, or, when one
    of the names in [argumentsAreComponents] is its own, with its value
    replaced by an identifier, its name kept. *)
Theorem only_named_arguments_are_rewritten (this : TemplateResolver) (componentName : string)
    (names : list string) (attributes : list Attribute) (s : State) :
  match handleDynamicComponentArguments this componentName names attributes s with
  | Return attributes' _ => Forall2 (rewrittenFor names) attributes attributes'
  | Throw _ _ => True
  end.
Proof.
  revert attributes s. induction names as [|name rest IH]; intros attributes s; simpl.
  - apply Forall2_same_length_lookup. split; [reflexivity|].
    intros i a b Ha Hb. left. congruence.
  - assert (Hweak : forall attributes' : list Attribute,
               Forall2 (rewrittenFor rest) attributes attributes' ->
               Forall2 (rewrittenFor (name :: rest)) attributes attributes').
    { intros attributes' Hall. eapply Forall2_impl; [exact Hall|]. intros a b Hab.
      apply (rewrittenFor_more name rest a a b); [now left|exact Hab]. }
    destruct (findAttribute name attributes) as [[i attr]|] eqn:Hfind.
    + apply findAttribute_found in Hfind as [Hi Hnamed].
      unfold bind.
      destruct (handleComponentHelper this (attributeValue attr) (Some (componentName, name)) s)
        as [r s1|e s1]; [|exact I].
      pose proof (emit_value this attr r setAttributeValue s1) as Hemit.
      destruct (emit this attr r setAttributeValue s1) as [attr' s2|e s2]; [|exact I].
      specialize (IH (<[i := attr']> attributes) s2).
      destruct (handleDynamicComponentArguments this componentName rest
                  (<[i := attr']> attributes) s2) as [attributes' s3|e s3]; [|exact I].
      apply Forall2_same_length_lookup.
      apply Forall2_same_length_lookup in IH as [Hlen IH].
      rewrite length_insert in Hlen. split; [exact Hlen|].
      intros j a c Ha Hc.
      destruct (decide (i = j)) as [<-|Hne].
      * assert (Hb : <[i := attr']> attributes !! i = Some attr').
        { apply list_lookup_insert_eq. eapply lookup_lt_Some, Hi. }
        assert (a = attr) by congruence. subst a.
        apply (rewrittenFor_more name rest attr attr' c); [|exact (IH i attr' c Hb Hc)].
        destruct Hemit as [->|Hset]; [now left|right; auto].
      * apply (rewrittenFor_more name rest a a c); [now left|].
        apply (IH j a c); [|exact Hc]. rewrite list_lookup_insert_ne by exact Hne. exact Ha.
    + specialize (IH attributes s).
      destruct (handleDynamicComponentArguments this componentName rest attributes s);
        [apply Hweak, IH|exact I].
Qed.

(** *** What a traversal does to the state, and what it throws

    The traversal is followed once, for any relation between states and
    any set of exceptions that the steps of the resolver respect; the
    properties of its imports, of its messages and of its exceptions
    are instances. *)

Section Runs.

Variable this : TemplateResolver.
Variable R : State -> State -> Prop.
Variable X : Exception -> Prop.

Hypothesis R_refl : forall s, R s s.
Hypothesis R_trans : forall s1 s2 s3, R s1 s2 -> R s2 s3 -> R s1 s3.
Hypothesis R_stack : forall st s, R s (with_stack st s).
Hypothesis R_safe : forall name s,
  R s (with_stack (snd (safeComponentInScope (stack s) name)) s).
Hypothesis R_trace : forall tr s, R s (with_trace tr s).
Hypothesis R_imports : forall specifier hint s,
  sanctioned this specifier hint ->
  R s (with_imports (imports s ++ [(specifier, bindImport (env this) specifier hint)]) s).
Hypothesis R_audit : forall dep s,
  auditHandler this = true ->
  R s (with_audit (audit s ++ [auditMessageFor this dep]) s).
Hypothesis X_resolver : forall dep,
  auditHandler this = false ->
  allowUnsafeDynamicComponents (options (config this)) = false ->
  X (resolverError this dep).
Hypothesis X_rules : forall e, rules this = Failed e -> X e.
Hypothesis X_type : X TypeError.

Lemma runs_ret {A} (a : A) (Q : A -> Prop) : Q a -> runs R X (ret a) Q.
Proof. intros HQ s. simpl. auto. Qed.

Lemma runs_throw {A} (e : Exception) (Q : A -> Prop) : X e -> runs R X (throw e) Q.
Proof. intros HX s. simpl. auto. Qed.

Lemma runs_bind {A B} (m : M A) (k : A -> M B) (Q : A -> Prop) (Q' : B -> Prop) :
  runs R X m Q -> (forall a, Q a -> runs R X (k a) Q') -> runs R X (bind m k) Q'.
Proof.
  intros Hm Hk s. unfold bind. specialize (Hm s).
  destruct (m s) as [a s1|e s1]; [|exact Hm].
  destruct Hm as [HR HQ]. specialize (Hk a HQ s1).
  destruct (k a s1) as [b s2|e s2]; destruct Hk as [HR' Hrest]; eauto.
Qed.

Lemma runs_weaken {A} (m : M A) (Q Q' : A -> Prop) :
  runs R X m Q -> (forall a, Q a -> Q' a) -> runs R X m Q'.
Proof.
  intros Hm Himp s. specialize (Hm s). destruct (m s); [|exact Hm].
  destruct Hm. auto.
Qed.

Lemma runs_mapM {A B} (f : A -> M B) (l : list A) :
  Forall (fun x => runs R X (f x) (fun _ => True)) l ->
  runs R X (mapM f l) (fun _ => True).
Proof.
  induction 1 as [|x l Hx Hl IH].
  - apply runs_ret. exact I.
  - rewrite mapM_cons. eapply runs_bind; [exact Hx|]. intros y _.
    eapply runs_bind; [exact IH|]. intros r _. apply runs_ret. exact I.
Qed.

Lemma runs_getStack : runs R X getStack (fun _ => True).
Proof. intros s. simpl. auto. Qed.

Lemma runs_modifyStack (f : list ScopeEntry -> list ScopeEntry) :
  runs R X (modifyStack f) (fun _ => True).
Proof. intros s. simpl. auto. Qed.

Lemma runs_observe (ev : VisitorEvent) : runs R X (observe ev) (fun _ => True).
Proof. intros s. simpl. auto. Qed.

Lemma runs_safeComponentInScopeM (name : string) :
  runs R X (safeComponentInScopeM name) (fun _ => True).
Proof.
  intros s. unfold safeComponentInScopeM. pose proof (R_safe name s) as Hsafe.
  destruct (safeComponentInScope (stack s) name). auto.
Qed.

Lemma runs_getRules : runs R X (getRules this) (fun index => rules this = Ok index).
Proof.
  intros s. unfold getRules, liftResult.
  destruct (rules this) as [index|e] eqn:Hrules; simpl; auto.
Qed.

Lemma runs_reportError (dep : ResolutionFail) : runs R X (reportError this dep) (fun _ => True).
Proof.
  intros s. unfold reportError.
  destruct (auditHandler this) eqn:Haudit; simpl; [auto|].
  destruct (allowUnsafeDynamicComponents (options (config this))) eqn:Hallow; simpl; auto.
Qed.

Lemma runs_capitalize (word : string) : runs R X (capitalize word) (fun _ => True).
Proof. destruct word; [apply runs_throw, X_type | apply runs_ret; exact I]. Qed.

Lemma runs_isIgnoredComponent (name : string) :
  runs R X (isIgnoredComponent this name)
    (fun ignored => exists index, rules this = Ok index /\ isIgnored index name = ignored).
Proof.
  unfold isIgnoredComponent. eapply runs_bind; [apply runs_getRules|].
  intros index Hrules. apply runs_ret. exists index. auto.
Qed.

Lemma runs_findRules (absPath : string) : runs R X (findRules this absPath) (fun _ => True).
Proof.
  unfold findRules. eapply runs_bind; [apply runs_getRules|].
  intros index _. apply runs_ret. exact I.
Qed.

Lemma runs_emit {T : Type} (target : T) (r : option Resolution)
    (setter : T -> PathExpression -> T) :
  goodResolution this r -> runs R X (emit this target r setter) (fun _ => True).
Proof.
  destruct r as [[c|h|m|f]|]; simpl; intros Hgood.
  1-3: intros s; split; [apply R_imports; exact Hgood | exact I].
  - eapply runs_bind; [apply runs_reportError|]. intros [] _. apply runs_ret. exact I.
  - apply runs_ret. exact I.
Qed.

Lemma enabled_of_negb (b : bool) : negb b = false -> b = true.
Proof. now destruct b. Qed.

Lemma runs_targetComponent (name : string) :
  runs R X (targetComponent this name)
    (fun r => goodResolution this (option_map Component r)).
Proof.
  unfold targetComponent.
  destruct (negb (staticComponentsEnabled this)) eqn:Hon; [apply runs_ret; exact I|].
  destruct (Array_includes builtInKeywords name) eqn:Hkw; [apply runs_ret; exact I|].
  eapply runs_bind; [apply runs_isIgnoredComponent|]. intros ignored Hign.
  destruct ignored; [apply runs_ret; exact I|].
  eapply runs_bind; [apply runs_getRules|]. intros index _.
  apply runs_ret. exists name. split; [reflexivity|]. split; [exact Hkw|].
  left. auto using enabled_of_negb.
Qed.

Lemma good_targetHelper (path : string) :
  goodResolution this (option_map Helper (targetHelper this path)).
Proof.
  unfold targetHelper.
  destruct (negb (staticHelpersEnabled this)) eqn:Hon; [exact I|].
  destruct (Array_includes builtInKeywords path) eqn:Hkw; [exact I|].
  exists path. split; [reflexivity|]. split; [exact Hkw|].
  right. right. left. auto using enabled_of_negb.
Qed.

Lemma good_targetElementModifier (path : string) :
  goodResolution this (option_map Modifier (targetElementModifier this path)).
Proof.
  unfold targetElementModifier.
  destruct (negb (staticModifiersEnabled this)) eqn:Hon; [exact I|].
  destruct (Array_includes builtInKeywords path) eqn:Hkw; [exact I|].
  exists path. split; [reflexivity|]. split; [exact Hkw|].
  right. right. right. auto using enabled_of_negb.
Qed.

Lemma good_handleDynamicHelper (param : Expression) :
  goodResolution this (handleDynamicHelper this param).
Proof.
  destruct param; try exact I. simpl. unfold targetDynamicHelper.
  destruct (negb (staticHelpersEnabled this)); [exact I|apply good_targetHelper].
Qed.

Lemma good_handleDynamicModifier (param : Expression) :
  goodResolution this (handleDynamicModifier this param).
Proof.
  destruct param; try exact I. simpl. unfold targetDynamicModifier.
  destruct (negb (staticModifiersEnabled this)); [exact I|apply good_targetElementModifier].
Qed.

Lemma runs_targetComponentHelper (locator : ComponentLocator) (loc : Loc)
    (implied : option (string * string)) :
  runs R X (targetComponentHelper this locator loc implied) (goodResolution this).
Proof.
  unfold targetComponentHelper.
  destruct (negb (staticComponentsEnabled this)); [apply runs_ret; exact I|].
  destruct locator as [path|path|].
  - eapply runs_bind; [apply runs_targetComponent|]. intros r Hr. apply runs_ret. exact Hr.
  - eapply runs_bind; [apply runs_findRules|]. intros own _.
    destruct (match own with
              | Some r => Array_includes (safeInteriorPaths r) path
              | None => false
              end); apply runs_ret; exact I.
  - apply runs_ret. exact I.
Qed.

Lemma runs_targetHelperOrComponent (path : string) (loc : Loc) (hasArgs : bool) :
  runs R X (targetHelperOrComponent this path loc hasArgs) (goodResolution this).
Proof.
  unfold targetHelperOrComponent.
  destruct (negb (staticHelpersEnabled this) && negb (staticComponentsEnabled this));
    [apply runs_ret; exact I|].
  destruct (Array_includes builtInKeywords path) eqn:Hkw; [apply runs_ret; exact I|].
  eapply runs_bind; [apply runs_isIgnoredComponent|]. intros ignored Hign.
  destruct ignored; [apply runs_ret; exact I|].
  eapply runs_bind; [apply runs_findRules|]. intros own _.
  destruct (match own with
            | Some r => disambiguate r !! path
            | None => None
            end) as [[| |]|].
  - eapply runs_bind; [apply runs_targetComponent|]. intros r Hr. apply runs_ret. exact Hr.
  - apply runs_ret, good_targetHelper.
  - apply runs_ret. exact I.
  - destruct (negb hasArgs && negb (String_includes path "/")
              && negb (String_includes path "@")).
    { eapply runs_bind; [apply runs_capitalize|]. intros cap _.
      eapply runs_bind; [apply runs_reportError|]. intros [] _. apply runs_ret. exact I. }
    destruct (negb (staticHelpersEnabled this)) eqn:Hhelpers;
      [|destruct (negb (staticComponentsEnabled this)) eqn:Hcomponents]; simpl.
    1-2: eapply runs_bind; [apply runs_capitalize|]; intros cap _;
         eapply runs_bind; [apply runs_reportError|]; intros [] _; apply runs_ret; exact I.
    eapply runs_bind; [apply runs_getRules|]. intros index _.
    apply runs_ret. exists path. split; [reflexivity|]. split; [exact Hkw|].
    right. left. auto using enabled_of_negb.
Qed.

Lemma runs_resolveLocator (locator : ComponentLocator) (loc : Loc)
    (implied : option (string * string)) :
  runs R X (resolveLocator this locator loc implied) (goodResolution this).
Proof.
  unfold resolveLocator.
  apply runs_bind with (Q := fun _ => True).
  { destruct locator; [apply runs_ret; exact I | apply runs_safeComponentInScopeM
                       | apply runs_ret; exact I]. }
  intros safe _. destruct safe; [apply runs_ret; exact I | apply runs_targetComponentHelper].
Qed.

Lemma runs_handleComponentHelperExpression (param : Expression)
    (implied : option (string * string)) :
  runs R X (handleComponentHelperExpression this param implied) (goodResolution this).
Proof.
  unfold handleComponentHelperExpression.
  destruct param; try apply runs_resolveLocator.
  destruct (pathIs param "component"); [apply runs_ret; exact I|].
  destruct (pathIs param "ensure-safe-component");
    [apply runs_ret; exact I | apply runs_resolveLocator].
Qed.

Lemma runs_handleComponentHelper (param : Node) (implied : option (string * string)) :
  runs R X (handleComponentHelper this param implied) (goodResolution this).
Proof.
  unfold handleComponentHelper. destruct param; try apply runs_resolveLocator.
  - apply runs_handleComponentHelperExpression.
  - destruct ((length (call_pairs m) =? 0)%nat && (length (call_params m) =? 0)%nat);
      [apply runs_handleComponentHelperExpression|].
    destruct (pathIs (call_path m) "component");
      [apply runs_ret; exact I | apply runs_resolveLocator].
Qed.

Lemma runs_handleDynamicComponentArguments (componentName : string) (names : list string)
    (attributes : list Attribute) :
  runs R X (handleDynamicComponentArguments this componentName names attributes)
    (fun _ => True).
Proof.
  revert attributes. induction names as [|name rest IH]; intros attributes; simpl.
  - apply runs_ret. exact I.
  - destruct (findAttribute name attributes) as [[i attr]|]; [|apply IH].
    eapply runs_bind; [apply runs_handleComponentHelper|]. intros r Hr.
    eapply runs_bind; [apply runs_emit, Hr|]. intros attr' _. apply IH.
Qed.

Lemma runs_pop (live : LiveNode) : runs R X (pop this live) (fun _ => True).
Proof.
  unfold pop.
  eapply runs_bind; [apply runs_modifyStack|]. intros [] _.
  eapply runs_bind; [apply runs_getStack|]. intros stack1 _.
  destruct stack1 as [|[names|next] rest]; try (apply runs_ret; exact I).
  eapply runs_bind.
  { unfold runExit. destruct (exit next); apply runs_handleDynamicComponentArguments. }
  intros attributes _.
  eapply runs_bind; [apply runs_modifyStack|]. intros [] _. apply runs_ret. exact I.
Qed.

Lemma runs_Program_enter (names : list string) :
  runs R X (Program_enter this names) (fun _ => True).
Proof.
  unfold Program_enter.
  eapply runs_bind; [apply runs_modifyStack|]. intros [] _.
  destruct (locals (env this)); [apply runs_modifyStack | apply runs_ret; exact I].
Qed.

Lemma runs_Program_exit (live : LiveNode) : runs R X (Program_exit this live) (fun _ => True).
Proof.
  unfold Program_exit.
  eapply runs_bind; [apply runs_pop|]. intros attributes _.
  destruct (locals (env this)); [apply runs_pop | apply runs_ret; exact I].
Qed.

Lemma runs_firstParam {T : Type} (node : T) (params : list Expression)
    (setter : T -> PathExpression -> T) :
  runs R X (match params with
            | param :: _ =>
                let! resolution0 := handleComponentHelper this (ExpressionNode param) None in
                emit this node resolution0 setter
            | [] => ret node
            end) (fun _ => True).
Proof.
  destruct params as [|param rest]; [apply runs_ret; exact I|].
  eapply runs_bind; [apply runs_handleComponentHelper|]. intros r Hr. apply runs_emit, Hr.
Qed.

Lemma runs_BlockStatement_visit (node : Call) :
  runs R X (BlockStatement_visit this node) (fun _ => True).
Proof.
  unfold BlockStatement_visit. destruct (call_path node) as [p| | |]; try (apply runs_ret; exact I).
  cbv zeta. eapply runs_bind; [apply runs_getStack|]. intros stack0 _.
  destruct (rootInScope stack0 (head (parts p))); [apply runs_ret; exact I|].
  destruct (this_ p); [apply runs_ret; exact I|].
  destruct (1 <? length (parts p))%nat; [apply runs_ret; exact I|].
  destruct (String.eqb (original p) "component" && (0 <? length (call_params node))%nat);
    [apply runs_firstParam|].
  unfold resolveBlockComponent.
  eapply runs_bind; [apply runs_targetComponent|]. intros r Hr.
  eapply runs_bind; [apply runs_emit, Hr|]. intros node' _.
  destruct r; [|apply runs_ret; exact I].
  eapply runs_bind; [apply runs_modifyStack|]. intros [] _. apply runs_ret. exact I.
Qed.

Lemma runs_SubExpression_rewrite (node : Call) :
  runs R X (SubExpression_rewrite this node) (fun _ => True).
Proof.
  unfold SubExpression_rewrite.
  destruct (call_path node) as [p| | |]; try (apply runs_ret; exact I).
  destruct (this_ p); [apply runs_ret; exact I|].
  eapply runs_bind; [apply runs_getStack|]. intros stack0 _.
  destruct (rootInScope stack0 (head (parts p))); [apply runs_ret; exact I|].
  destruct (String.eqb (original p) "component" && (0 <? length (call_params node))%nat);
    [apply runs_firstParam|].
  destruct (String.eqb (original p) "helper" && (0 <? length (call_params node))%nat).
  { destruct (call_params node); [apply runs_ret; exact I|].
    apply runs_emit, good_handleDynamicHelper. }
  destruct (String.eqb (original p) "modifier" && (0 <? length (call_params node))%nat).
  { destruct (call_params node); [apply runs_ret; exact I|].
    apply runs_emit, good_handleDynamicModifier. }
  apply runs_emit, good_targetHelper.
Qed.

Lemma runs_resolveAmbiguous (node : Call) (p : PathExpression) :
  runs R X (resolveAmbiguous this node p) (fun _ => True).
Proof.
  unfold resolveAmbiguous. cbv zeta.
  eapply runs_bind; [apply runs_targetHelperOrComponent|]. intros r Hr.
  eapply runs_bind; [apply runs_emit, Hr|]. intros node' _.
  destruct r as [[c|h|m|f]|]; try (apply runs_ret; exact I).
  eapply runs_bind; [apply runs_handleDynamicComponentArguments|]. intros pairs _.
  apply runs_ret. exact I.
Qed.

Lemma runs_MustacheStatement_enter (node : Call) (parent : option NodeType) :
  runs R X (MustacheStatement_enter this node parent) (fun _ => True).
Proof.
  unfold MustacheStatement_enter.
  destruct (call_path node) as [p| | |]; try (apply runs_ret; exact I).
  cbv zeta. eapply runs_bind; [apply runs_getStack|]. intros stack0 _.
  destruct (rootInScope stack0 (head (parts p))); [apply runs_ret; exact I|].
  destruct (this_ p); [apply runs_ret; exact I|].
  destruct (1 <? length (parts p))%nat; [apply runs_ret; exact I|].
  destruct (startsWith (original p) "@"); [apply runs_ret; exact I|].
  destruct (String.eqb (original p) "component" && (0 <? length (call_params node))%nat);
    [apply runs_firstParam|].
  destruct (String.eqb (original p) "helper" && (0 <? length (call_params node))%nat).
  { destruct (call_params node); [apply runs_ret; exact I|].
    apply runs_emit, good_handleDynamicHelper. }
  destruct parent as [[]|];
    first [apply runs_resolveAmbiguous | apply runs_emit, good_targetHelper].
Qed.

Lemma runs_ElementModifierStatement_visit (node : Call) :
  runs R X (ElementModifierStatement_visit this node) (fun _ => True).
Proof.
  unfold ElementModifierStatement_visit.
  destruct (call_path node) as [p| | |]; try (apply runs_ret; exact I).
  eapply runs_bind; [apply runs_getStack|]. intros stack0 _.
  destruct (rootInScope stack0 (head (parts p))); [apply runs_ret; exact I|].
  destruct (this_ p); [apply runs_ret; exact I|].
  destruct (data p); [apply runs_ret; exact I|].
  destruct (1 <? length (parts p))%nat; [apply runs_ret; exact I|].
  apply runs_emit, good_targetElementModifier.
Qed.

Lemma runs_ElementNode_enter (tag : string) (names : list string) :
  runs R X (ElementNode_enter this tag names) (fun _ => True).
Proof.
  unfold ElementNode_enter. cbv zeta.
  eapply runs_bind; [apply runs_getStack|]. intros stack0 _.
  apply runs_bind with (Q := fun _ => True).
  - destruct (negb (inScope stack0 (default "undefined" (head (split "." tag)))));
      [|apply runs_ret; exact I].
    apply runs_bind with (Q := fun r => goodResolution this (option_map Component r)).
    + destruct tag as [|c rest]; [apply runs_throw, X_type|].
      destruct (negb (String.eqb (String c EmptyString) (toLowerCase (String c EmptyString))));
        [apply runs_targetComponent | apply runs_ret; exact I].
    + intros r Hr. eapply runs_bind; [apply runs_emit, Hr|]. intros tag1 _.
      destruct r; [|apply runs_ret; exact I].
      eapply runs_bind; [apply runs_modifyStack|]. intros [] _. apply runs_ret. exact I.
  - intros tag' _. eapply runs_bind; [apply runs_modifyStack|]. intros [] _.
    apply runs_ret. exact I.
Qed.

Lemma runs_walkExpression (e : Expression) :
  runs R X (walkExpression this e) (fun _ => True).
Proof.
  induction e as [p|path params hash loc IHpath IHparams IHhash|value loc|loc]
    using Expression_induction; try (apply runs_ret; exact I).
  simpl.
  eapply runs_bind; [apply runs_SubExpression_rewrite|]. intros rw _.
  eapply runs_bind; [apply runs_observe|]. intros [] _.
  apply runs_bind with (Q := fun _ => True).
  { destruct rw; [exact IHpath | apply runs_ret; exact I | exact IHpath]. }
  intros path' _.
  apply runs_bind with (Q := fun _ => True).
  { assert (Hall : runs R X (mapM (walkExpression this) params) (fun _ => True))
      by (apply runs_mapM; exact IHparams).
    destruct rw; try exact Hall.
    destruct params as [|x rest]; [exact Hall|].
    eapply runs_bind; [apply runs_mapM; inversion IHparams; assumption|].
    intros rest' _. apply runs_ret. exact I. }
  intros params' _.
  eapply runs_bind.
  { apply runs_mapM. eapply Forall_impl; [exact IHhash|].
    intros kv Hkv. simpl. eapply runs_bind; [exact Hkv|]. intros v _. apply runs_ret. exact I. }
  intros hash' _. apply runs_ret. exact I.
Qed.

Lemma runs_walkCall (node : Call) : runs R X (walkCall this node) (fun _ => True).
Proof.
  unfold walkCall.
  eapply runs_bind; [apply runs_walkExpression|]. intros path' _.
  eapply runs_bind.
  { apply runs_mapM, Forall_forall. intros x _. apply runs_walkExpression. }
  intros params' _.
  eapply runs_bind.
  { apply runs_mapM, Forall_forall. intros kv _. unfold walkPair.
    eapply runs_bind; [apply runs_walkExpression|]. intros v _. apply runs_ret. exact I. }
  intros pairs' _. apply runs_ret. exact I.
Qed.

Lemma runs_walkMustache (parent : NodeType) (node : Call) :
  runs R X (walkMustache this parent node) (fun _ => True).
Proof.
  unfold walkMustache.
  eapply runs_bind; [apply runs_MustacheStatement_enter|]. intros node' _.
  eapply runs_bind; [apply runs_observe|]. intros [] _. apply runs_walkCall.
Qed.

Lemma runs_walkModifier (node : Call) : runs R X (walkModifier this node) (fun _ => True).
Proof.
  unfold walkModifier.
  eapply runs_bind; [apply runs_ElementModifierStatement_visit|]. intros node' _.
  eapply runs_bind; [apply runs_observe|]. intros [] _. apply runs_walkCall.
Qed.

Lemma runs_walkAttr (a : AttrNode) : runs R X (walkAttr this a) (fun _ => True).
Proof.
  unfold walkAttr. destruct (attr_value a) as [t|m|ps loc].
  - apply runs_ret. exact I.
  - eapply runs_bind; [apply runs_walkMustache|]. intros m' _. apply runs_ret. exact I.
  - eapply runs_bind.
    { apply runs_mapM, Forall_forall. intros part _. unfold walkConcatPart.
      destruct part as [t|m]; [apply runs_ret; exact I|].
      eapply runs_bind; [apply runs_walkMustache|]. intros m' _. apply runs_ret. exact I. }
    intros ps' _. apply runs_ret. exact I.
Qed.

Lemma runs_walkBlock (walkBody : list Statement -> M (list Statement))
    (body0 : list Statement) (names : list string) (owner : LiveNode) :
  runs R X (walkBody body0) (fun _ => True) ->
  runs R X (walkBlock this walkBody body0 names owner) (fun _ => True).
Proof.
  intros Hbody. unfold walkBlock.
  eapply runs_bind; [apply runs_Program_enter|]. intros [] _.
  eapply runs_bind; [apply runs_observe|]. intros [] _.
  eapply runs_bind; [exact Hbody|]. intros body' _.
  eapply runs_bind; [apply runs_Program_exit|]. intros attributes _.
  eapply runs_bind; [apply runs_observe|]. intros [] _. apply runs_ret. exact I.
Qed.

Lemma runs_walkStatement (s : Statement) :
  forall parent, runs R X (walkStatement this parent s) (fun _ => True).
Proof.
  induction s as [m|head program bps inverse IHprogram IHinverse
                  |tag attributes modifiers children bps loc IHchildren|t|value]
    using Statement_induction; intros parent; try (apply runs_ret; exact I).
  - simpl. eapply runs_bind; [apply runs_walkMustache|]. intros m' _. apply runs_ret. exact I.
  - simpl.
    eapply runs_bind; [apply runs_BlockStatement_visit|]. intros head1 _.
    eapply runs_bind; [apply runs_observe|]. intros [] _.
    eapply runs_bind; [apply runs_walkCall|]. intros head2 _.
    eapply runs_bind.
    { apply runs_walkBlock, runs_mapM. eapply Forall_impl; [exact IHprogram|]. auto. }
    intros r _. cbv zeta.
    destruct inverse as [[body2 bps2]|]; [|apply runs_ret; exact I].
    eapply runs_bind.
    { apply runs_walkBlock, runs_mapM. eapply Forall_impl; [exact IHinverse|]. auto. }
    intros r2 _. apply runs_ret. exact I.
  - simpl.
    eapply runs_bind; [apply runs_ElementNode_enter|]. intros tag' _.
    eapply runs_bind; [apply runs_observe|]. intros [] _.
    eapply runs_bind.
    { apply runs_mapM, Forall_forall. intros a _. apply runs_walkAttr. }
    intros attributes' _.
    eapply runs_bind.
    { apply runs_mapM, Forall_forall. intros a _. apply runs_walkModifier. }
    intros modifiers' _.
    eapply runs_bind.
    { apply runs_mapM. eapply Forall_impl; [exact IHchildren|]. auto. }
    intros children' _.
    eapply runs_bind; [apply runs_pop|]. intros attributes2 _.
    eapply runs_bind; [apply runs_observe|]. intros [] _. apply runs_ret. exact I.
Qed.

Lemma runs_resolverTransform (t : Template) :
  runs R X (resolverTransform this t) (fun _ => True).
Proof.
  unfold resolverTransform. destruct (strict (env this)); [apply runs_ret; exact I|].
  unfold walkTemplate.
  eapply runs_bind.
  { apply runs_walkBlock, runs_mapM, Forall_forall. intros x _. apply runs_walkStatement. }
  intros r _. apply runs_ret. exact I.
Qed.

End Runs.

(** X14: every import a transform binds is sanctioned: its specifier is
    [#embroider_compat/components/], [ambiguous/], [helpers/] or
    [modifiers/] followed by a name that is no built-in keyword; a
    component or ambiguous import is bound only with components resolved
    and for a name the rules do not flag [safeToIgnore], a helper import
    only with helpers resolved, a modifier import only with modifiers
    resolved.  Imports are only added, also by a run that throws. *)
Theorem imports_are_sanctioned (this : TemplateResolver) (t : Template) (s : State) :
  exists new,
    imports (finalState (resolverTransform this t s)) = imports s ++ new
    /\ Forall (sanctionedImport this) new.
Proof.
  pose proof (runs_resolverTransform this
                (fun s s' => exists new, imports s' = imports s ++ new
                                         /\ Forall (sanctionedImport this) new)
                (fun _ => True)) as Hruns.
  assert (Hsame : forall s s' : State, imports s' = imports s ->
            exists new, imports s' = imports s ++ new /\ Forall (sanctionedImport this) new).
  { intros s1 s2 Heq. exists []. rewrite app_nil_r. auto. }
  specialize (Hruns (fun s => Hsame s s eq_refl)).
  assert (Hgoal : runs (fun s s' => exists new, imports s' = imports s ++ new
                                               /\ Forall (sanctionedImport this) new)
                    (fun _ => True) (resolverTransform this t) (fun _ => True)).
  { apply Hruns; auto.
    - intros s1 s2 s3 (new1 & H1 & Hall1) (new2 & H2 & Hall2).
      exists (new1 ++ new2). rewrite H2, H1, app_assoc. split; [reflexivity|].
      apply Forall_app; auto.
    - intros specifier hint s1 Hok. exists [(specifier, bindImport (env this) specifier hint)].
      split; [reflexivity|]. constructor; [|constructor]. exists hint. auto. }
  specialize (Hgoal s). destruct (resolverTransform this t s); simpl; tauto.
Qed.

(** X15: the messages a transform hands to the audit handler are only
    added, each with the name and the contents of the file of the
    resolver; without a handler there is none. *)
Theorem audit_messages_name_the_file (this : TemplateResolver) (t : Template) (s : State) :
  exists new,
    audit (finalState (resolverTransform this t s)) = audit s ++ new
    /\ Forall (fun m => audit_filename m = filename (env this)
                        /\ audit_source m = contents (env this)) new
    /\ (auditHandler this = false -> new = []).
Proof.
  set (Rel := fun s s' : State =>
         exists new,
           audit s' = audit s ++ new
           /\ Forall (fun m => audit_filename m = filename (env this)
                               /\ audit_source m = contents (env this)) new
           /\ (auditHandler this = false -> new = [])).
  assert (Hsame : forall s s' : State, audit s' = audit s -> Rel s s').
  { intros s1 s2 Heq. exists []. rewrite app_nil_r. auto. }
  assert (Hgoal : runs Rel (fun _ => True) (resolverTransform this t) (fun _ => True)).
  { apply runs_resolverTransform; auto.
    - intros s1 s2 s3 (new1 & H1 & Hall1 & Hoff1) (new2 & H2 & Hall2 & Hoff2).
      exists (new1 ++ new2). rewrite H2, H1, app_assoc. split; [reflexivity|].
      split; [apply Forall_app; auto|].
      intros Hoff. rewrite (Hoff1 Hoff), (Hoff2 Hoff). reflexivity.
    - intros dep s1 Hon. exists [auditMessageFor this dep].
      split; [reflexivity|]. split; [repeat constructor|]. congruence. }
  specialize (Hgoal s). destruct (resolverTransform this t s); simpl; tauto.
Qed.

(** X16: a transform throws nothing but: the error of [reportError],
    and that only when no audit handler is installed and
    [allowUnsafeDynamicComponents] is off; the error of the first
    snippet of the package rules that does not parse; a [TypeError]. *)
Theorem exceptions_of_the_transform (this : TemplateResolver) (t : Template) (s : State) :
  match resolverTransform this t s with
  | Return _ _ => True
  | Throw e _ => mayThrow this e
  end.
Proof.
  assert (Hgoal : runs (fun _ _ => True) (mayThrow this) (resolverTransform this t)
                    (fun _ => True)).
  { apply runs_resolverTransform; auto.
    - intros dep Haudit Hallow. simpl. eauto.
    - intros e Hfailed.
      pose proof (collectRules_outcome (appRoot (config this))
                    (activePackageRules (config this)) {| files := ∅; components := ∅ |})
        as Hindex.
      fold (rules this) in Hindex.
      destruct (firstUnparsed (declaredComponents (activePackageRules (config this))))
        as [snippet|] eqn:Hfirst.
      + assert (e = SnippetError snippet) by congruence. subst e. exact Hfirst.
      + destruct Hindex as [index Hok]. congruence.
    - exact I. }
  specialize (Hgoal s). destruct (resolverTransform this t s); tauto.
Qed.

(** *** A resolver with nothing to resolve *)

Lemma resolvesNothing_ret {A} (a : A) : resolvesNothing (ret a) a.
Proof. intros s. exists s. auto. Qed.

Lemma resolvesNothing_bind {A B} (m : M A) (k : A -> M B) (a : A) (b : B) :
  resolvesNothing m a -> resolvesNothing (k a) b -> resolvesNothing (bind m k) b.
Proof.
  intros Hm Hk s. unfold bind. destruct (Hm s) as (s1 & -> & Hi1 & Ha1).
  destruct (Hk s1) as (s2 & -> & Hi2 & Ha2). exists s2. split; [reflexivity|]. split; congruence.
Qed.

Lemma resolvesNothing_any {A B} (m : M A) (k : A -> M B) (b : B) :
  (forall s, exists a s', m s = Return a s' /\ imports s' = imports s /\ audit s' = audit s) ->
  (forall a, resolvesNothing (k a) b) -> resolvesNothing (bind m k) b.
Proof.
  intros Hm Hk s. unfold bind. destruct (Hm s) as (a & s1 & -> & Hi1 & Ha1).
  destruct (Hk a s1) as (s2 & -> & Hi2 & Ha2). exists s2. split; [reflexivity|]. split; congruence.
Qed.

Lemma resolvesNothing_mapM {A} (f : A -> M A) (l : list A) :
  Forall (fun x => resolvesNothing (f x) x) l -> resolvesNothing (mapM f l) l.
Proof.
  induction 1 as [|x l Hx Hl IH]; [apply resolvesNothing_ret|].
  rewrite mapM_cons. eapply resolvesNothing_bind; [exact Hx|].
  eapply resolvesNothing_bind; [exact IH|]. apply resolvesNothing_ret.
Qed.

Lemma resolvesNothing_modifyStack {B} (f : list ScopeEntry -> list ScopeEntry) (k : unit -> M B)
    (b : B) :
  resolvesNothing (k tt) b -> resolvesNothing (bind (modifyStack f) k) b.
Proof.
  intros Hk. apply resolvesNothing_any; [|intros []; exact Hk].
  intros s. exists tt, (with_stack (f (stack s)) s). auto.
Qed.

Lemma resolvesNothing_observe {B} (ev : VisitorEvent) (k : unit -> M B) (b : B) :
  resolvesNothing (k tt) b -> resolvesNothing (bind (observe ev) k) b.
Proof.
  intros Hk. apply resolvesNothing_any; [|intros []; exact Hk].
  intros s. exists tt, (with_trace (trace s ++ [(ev, stack s)]) s). auto.
Qed.

Lemma resolvesNothing_getStack {B} (k : list ScopeEntry -> M B) (b : B) :
  (forall stack0, resolvesNothing (k stack0) b) -> resolvesNothing (bind getStack k) b.
Proof.
  intros Hk. apply resolvesNothing_any; [|exact Hk]. intros s. exists (stack s), s. auto.
Qed.

Lemma hashPairsOf_map (pairs : list HashPair) :
  hashPairsOf (map HashPairAttribute pairs) = pairs.
Proof. induction pairs as [|p r IH]; simpl; [reflexivity|]. now rewrite IH. Qed.

Lemma attrNodesOf_map (attributes : list AttrNode) :
  attrNodesOf (map AttrNodeAttribute attributes) = attributes.
Proof. induction attributes as [|a r IH]; simpl; [reflexivity|]. now rewrite IH. Qed.

Section Off.

Variable this : TemplateResolver.
Hypothesis components_off : staticComponentsEnabled this = false.
Hypothesis helpers_off : staticHelpersEnabled this = false.
Hypothesis modifiers_off : staticModifiersEnabled this = false.

Lemma off_handleDynamicHelper (param : Expression) : handleDynamicHelper this param = None.
Proof.
  destruct param; try reflexivity. simpl. unfold targetDynamicHelper.
  rewrite helpers_off. reflexivity.
Qed.

Lemma off_handleDynamicModifier (param : Expression) : handleDynamicModifier this param = None.
Proof.
  destruct param; try reflexivity. simpl. unfold targetDynamicModifier.
  rewrite modifiers_off. reflexivity.
Qed.

Lemma off_targetHelper (path : string) : targetHelper this path = None.
Proof. unfold targetHelper. rewrite helpers_off. reflexivity. Qed.

Lemma off_targetElementModifier (path : string) : targetElementModifier this path = None.
Proof. unfold targetElementModifier. rewrite modifiers_off. reflexivity. Qed.

Lemma off_targetComponent (name : string) : targetComponent this name = ret None.
Proof. unfold targetComponent. rewrite components_off. reflexivity. Qed.

Lemma off_targetHelperOrComponent (path : string) (loc : Loc) (hasArgs : bool) :
  targetHelperOrComponent this path loc hasArgs = ret None.
Proof. unfold targetHelperOrComponent. rewrite helpers_off, components_off. reflexivity. Qed.

Lemma off_resolveLocator (locator : ComponentLocator) (loc : Loc)
    (implied : option (string * string)) :
  resolvesNothing (resolveLocator this locator loc implied) None.
Proof.
  unfold resolveLocator. apply resolvesNothing_any.
  - intros s. destruct locator as [path|path|]; simpl; eauto.
    unfold safeComponentInScopeM. destruct (safeComponentInScope (stack s) path) as [b st].
    exists b, (with_stack st s). auto.
  - intros safe. destruct safe; [apply resolvesNothing_ret|].
    unfold targetComponentHelper. rewrite components_off. apply resolvesNothing_ret.
Qed.

Lemma off_handleComponentHelperExpression (param : Expression)
    (implied : option (string * string)) :
  resolvesNothing (handleComponentHelperExpression this param implied) None.
Proof.
  unfold handleComponentHelperExpression. destruct param; try apply off_resolveLocator.
  destruct (pathIs param "component"); [apply resolvesNothing_ret|].
  destruct (pathIs param "ensure-safe-component");
    [apply resolvesNothing_ret | apply off_resolveLocator].
Qed.

Lemma off_handleComponentHelper (param : Node) (implied : option (string * string)) :
  resolvesNothing (handleComponentHelper this param implied) None.
Proof.
  unfold handleComponentHelper. destruct param; try apply off_resolveLocator.
  - apply off_handleComponentHelperExpression.
  - destruct ((length (call_pairs m) =? 0)%nat && (length (call_params m) =? 0)%nat);
      [apply off_handleComponentHelperExpression|].
    destruct (pathIs (call_path m) "component");
      [apply resolvesNothing_ret | apply off_resolveLocator].
Qed.

Lemma off_handleDynamicComponentArguments (componentName : string) (names : list string)
    (attributes : list Attribute) :
  resolvesNothing (handleDynamicComponentArguments this componentName names attributes)
    attributes.
Proof.
  induction names as [|name rest IH]; simpl; [apply resolvesNothing_ret|].
  destruct (findAttribute name attributes) as [[i attr]|] eqn:Hfind; [|exact IH].
  apply findAttribute_found in Hfind as [Hi _].
  eapply resolvesNothing_bind; [apply off_handleComponentHelper|]. simpl.
  eapply resolvesNothing_bind; [apply resolvesNothing_ret|].
  rewrite (list_insert_id _ _ _ Hi). exact IH.
Qed.

Lemma off_pop (live : LiveNode) : resolvesNothing (pop this live) (live_attributes live).
Proof.
  unfold pop. apply resolvesNothing_modifyStack, resolvesNothing_getStack.
  intros [|[names|next] rest]; try apply resolvesNothing_ret.
  eapply resolvesNothing_bind.
  { unfold runExit. destruct (exit next); apply off_handleDynamicComponentArguments. }
  apply resolvesNothing_modifyStack, resolvesNothing_ret.
Qed.

Lemma off_firstParam {T : Type} (node : T) (params : list Expression)
    (setter : T -> PathExpression -> T) :
  resolvesNothing (match params with
                   | param :: _ =>
                       let! resolution0 :=
                         handleComponentHelper this (ExpressionNode param) None in
                       emit this node resolution0 setter
                   | [] => ret node
                   end) node.
Proof.
  destruct params as [|param rest]; [apply resolvesNothing_ret|].
  eapply resolvesNothing_bind; [apply off_handleComponentHelper|]. apply resolvesNothing_ret.
Qed.

Lemma off_BlockStatement_visit (node : Call) :
  resolvesNothing (BlockStatement_visit this node) node.
Proof.
  unfold BlockStatement_visit.
  destruct (call_path node) as [p| | |]; try apply resolvesNothing_ret.
  cbv zeta. apply resolvesNothing_getStack. intros stack0.
  destruct (rootInScope stack0 (head (parts p))); [apply resolvesNothing_ret|].
  destruct (this_ p); [apply resolvesNothing_ret|].
  destruct (1 <? length (parts p))%nat; [apply resolvesNothing_ret|].
  destruct (String.eqb (original p) "component" && (0 <? length (call_params node))%nat);
    [apply off_firstParam|].
  unfold resolveBlockComponent. rewrite off_targetComponent.
  eapply resolvesNothing_bind; [apply resolvesNothing_ret|]. simpl.
  eapply resolvesNothing_bind; apply resolvesNothing_ret.
Qed.

Lemma off_SubExpression_rewrite (node : Call) :
  resolvesNothing (SubExpression_rewrite this node) NoRewrite.
Proof.
  unfold SubExpression_rewrite.
  destruct (call_path node) as [p| | |]; try apply resolvesNothing_ret.
  destruct (this_ p); [apply resolvesNothing_ret|].
  apply resolvesNothing_getStack. intros stack0.
  destruct (rootInScope stack0 (head (parts p))); [apply resolvesNothing_ret|].
  destruct (String.eqb (original p) "component" && (0 <? length (call_params node))%nat);
    [apply off_firstParam|].
  destruct (String.eqb (original p) "helper" && (0 <? length (call_params node))%nat).
  { destruct (call_params node); [apply resolvesNothing_ret|].
    rewrite off_handleDynamicHelper. apply resolvesNothing_ret. }
  destruct (String.eqb (original p) "modifier" && (0 <? length (call_params node))%nat).
  { destruct (call_params node); [apply resolvesNothing_ret|].
    rewrite off_handleDynamicModifier. apply resolvesNothing_ret. }
  rewrite off_targetHelper. apply resolvesNothing_ret.
Qed.

Lemma off_MustacheStatement_enter (node : Call) (parent : option NodeType) :
  resolvesNothing (MustacheStatement_enter this node parent) node.
Proof.
  unfold MustacheStatement_enter.
  destruct (call_path node) as [p| | |]; try apply resolvesNothing_ret.
  cbv zeta. apply resolvesNothing_getStack. intros stack0.
  destruct (rootInScope stack0 (head (parts p))); [apply resolvesNothing_ret|].
  destruct (this_ p); [apply resolvesNothing_ret|].
  destruct (1 <? length (parts p))%nat; [apply resolvesNothing_ret|].
  destruct (startsWith (original p) "@"); [apply resolvesNothing_ret|].
  destruct (String.eqb (original p) "component" && (0 <? length (call_params node))%nat);
    [apply off_firstParam|].
  destruct (String.eqb (original p) "helper" && (0 <? length (call_params node))%nat).
  { destruct (call_params node); [apply resolvesNothing_ret|].
    rewrite off_handleDynamicHelper. apply resolvesNothing_ret. }
  assert (Hambiguous : resolvesNothing (resolveAmbiguous this node p) node).
  { unfold resolveAmbiguous. cbv zeta. rewrite off_targetHelperOrComponent.
    eapply resolvesNothing_bind; [apply resolvesNothing_ret|].
    eapply resolvesNothing_bind; apply resolvesNothing_ret. }
  destruct parent as [[]|]; try exact Hambiguous.
  rewrite off_targetHelper. apply resolvesNothing_ret.
Qed.

Lemma off_ElementModifierStatement_visit (node : Call) :
  resolvesNothing (ElementModifierStatement_visit this node) node.
Proof.
  unfold ElementModifierStatement_visit.
  destruct (call_path node) as [p| | |]; try apply resolvesNothing_ret.
  apply resolvesNothing_getStack. intros stack0.
  destruct (rootInScope stack0 (head (parts p))); [apply resolvesNothing_ret|].
  destruct (this_ p); [apply resolvesNothing_ret|].
  destruct (data p); [apply resolvesNothing_ret|].
  destruct (1 <? length (parts p))%nat; [apply resolvesNothing_ret|].
  rewrite off_targetElementModifier. apply resolvesNothing_ret.
Qed.

Lemma off_ElementNode_enter (tag : string) (names : list string) :
  String.eqb tag EmptyString = false ->
  resolvesNothing (ElementNode_enter this tag names) tag.
Proof.
  intros Htag. unfold ElementNode_enter. cbv zeta.
  apply resolvesNothing_getStack. intros stack0.
  apply resolvesNothing_bind with (a := tag);
    [|apply resolvesNothing_modifyStack, resolvesNothing_ret].
  destruct (negb (inScope stack0 (default "undefined" (head (split "." tag)))));
    [|apply resolvesNothing_ret].
  apply resolvesNothing_bind with (a := None).
  - destruct tag as [|c rest]; [discriminate|].
    destruct (negb (String.eqb (String c EmptyString) (toLowerCase (String c EmptyString))));
      [rewrite off_targetComponent|]; apply resolvesNothing_ret.
  - eapply resolvesNothing_bind; apply resolvesNothing_ret.
Qed.

Lemma off_walkExpression (e : Expression) : resolvesNothing (walkExpression this e) e.
Proof.
  induction e as [p|path params hash loc IHpath IHparams IHhash|value loc|loc]
    using Expression_induction; try apply resolvesNothing_ret.
  simpl.
  eapply resolvesNothing_bind; [apply off_SubExpression_rewrite|].
  apply resolvesNothing_observe.
  eapply resolvesNothing_bind; [exact IHpath|].
  eapply resolvesNothing_bind; [apply resolvesNothing_mapM; exact IHparams|].
  apply resolvesNothing_bind with (a := hash); [|apply resolvesNothing_ret].
  apply resolvesNothing_mapM. eapply Forall_impl; [exact IHhash|].
  intros [k v] Hkv. simpl in *. eapply resolvesNothing_bind; [exact Hkv|].
  apply resolvesNothing_ret.
Qed.

Lemma off_walkCall (node : Call) : resolvesNothing (walkCall this node) node.
Proof.
  unfold walkCall. destruct node as [path params pairs loc]. simpl.
  eapply resolvesNothing_bind; [apply off_walkExpression|].
  eapply resolvesNothing_bind.
  { apply resolvesNothing_mapM, Forall_forall. intros x _. apply off_walkExpression. }
  apply resolvesNothing_bind with (a := pairs); [|apply resolvesNothing_ret].
  apply resolvesNothing_mapM, Forall_forall. intros [k v] _. unfold walkPair. simpl.
  eapply resolvesNothing_bind; [apply off_walkExpression|]. apply resolvesNothing_ret.
Qed.

Lemma off_walkMustache (parent : NodeType) (node : Call) :
  resolvesNothing (walkMustache this parent node) node.
Proof.
  unfold walkMustache.
  eapply resolvesNothing_bind; [apply off_MustacheStatement_enter|].
  apply resolvesNothing_observe, off_walkCall.
Qed.

Lemma off_walkModifier (node : Call) : resolvesNothing (walkModifier this node) node.
Proof.
  unfold walkModifier.
  eapply resolvesNothing_bind; [apply off_ElementModifierStatement_visit|].
  apply resolvesNothing_observe, off_walkCall.
Qed.

Lemma off_walkAttr (a : AttrNode) : resolvesNothing (walkAttr this a) a.
Proof.
  unfold walkAttr. destruct a as [name [t|m|ps loc]]; simpl.
  - apply resolvesNothing_ret.
  - eapply resolvesNothing_bind; [apply off_walkMustache|]. apply resolvesNothing_ret.
  - apply resolvesNothing_bind with (a := ps); [|apply resolvesNothing_ret].
    apply resolvesNothing_mapM, Forall_forall. intros [t|m] _; simpl.
    + apply resolvesNothing_ret.
    + eapply resolvesNothing_bind; [apply off_walkMustache|]. apply resolvesNothing_ret.
Qed.

Lemma off_walkBlock (walkBody : list Statement -> M (list Statement))
    (body0 : list Statement) (names : list string) (owner : LiveNode) :
  resolvesNothing (walkBody body0) body0 ->
  resolvesNothing (walkBlock this walkBody body0 names owner) (body0, live_attributes owner).
Proof.
  intros Hbody. unfold walkBlock.
  apply resolvesNothing_bind with (a := tt).
  { unfold Program_enter. apply resolvesNothing_modifyStack.
    destruct (locals (env this)); [|apply resolvesNothing_ret].
    intros s. exists (with_stack (push l (stack s)) s). auto. }
  apply resolvesNothing_observe.
  eapply resolvesNothing_bind; [exact Hbody|].
  apply resolvesNothing_bind with (a := live_attributes owner).
  { unfold Program_exit. eapply resolvesNothing_bind; [apply off_pop|].
    destruct (locals (env this)); [apply (off_pop {| live_tag := _ |})|apply resolvesNothing_ret]. }
  apply resolvesNothing_observe, resolvesNothing_ret.
Qed.

Lemma off_walkStatement (s : Statement) :
  everyTagNamed s = true -> forall parent, resolvesNothing (walkStatement this parent s) s.
Proof.
  induction s as [m|head program bps inverse IHprogram IHinverse
                  |tag attributes modifiers children bps loc IHchildren|t|value]
    using Statement_induction; intros Hnamed parent; try apply resolvesNothing_ret.
  - simpl. eapply resolvesNothing_bind; [apply off_walkMustache|]. apply resolvesNothing_ret.
  - simpl in Hnamed. apply andb_prop in Hnamed as [Hprogram Hinverse].
    assert (Hbody : forall body0,
              Forall (fun s => everyTagNamed s = true ->
                               forall parent, resolvesNothing (walkStatement this parent s) s)
                body0 ->
              forallb everyTagNamed body0 = true ->
              resolvesNothing (mapM (walkStatement this BlockType) body0) body0).
    { intros body0 Hall Hok. apply resolvesNothing_mapM.
      rewrite forallb_forall in Hok. rewrite Forall_forall in *.
      intros x Hx. apply Hall; [exact Hx|]. apply Hok, list_elem_of_In, Hx. }
    destruct head as [path params pairs hloc].
    simpl.
    eapply resolvesNothing_bind; [apply off_BlockStatement_visit|].
    apply resolvesNothing_observe.
    eapply resolvesNothing_bind; [apply off_walkCall|].
    eapply resolvesNothing_bind; [apply off_walkBlock, Hbody; assumption|].
    cbv zeta. simpl. unfold setPairs. simpl. rewrite hashPairsOf_map.
    destruct inverse as [[body2 bps2]|]; [|apply resolvesNothing_ret].
    eapply resolvesNothing_bind; [apply off_walkBlock, Hbody; assumption|].
    simpl. rewrite hashPairsOf_map. apply resolvesNothing_ret.
  - simpl in Hnamed. apply andb_prop in Hnamed as [Htag Hchildren].
    apply negb_true_iff in Htag.
    simpl.
    eapply resolvesNothing_bind; [apply off_ElementNode_enter, Htag|].
    apply resolvesNothing_observe.
    eapply resolvesNothing_bind.
    { apply resolvesNothing_mapM, Forall_forall. intros a _. apply off_walkAttr. }
    eapply resolvesNothing_bind.
    { apply resolvesNothing_mapM, Forall_forall. intros a _. apply off_walkModifier. }
    eapply resolvesNothing_bind.
    { apply resolvesNothing_mapM.
      rewrite forallb_forall in Hchildren. rewrite Forall_forall in *.
      intros x Hx. apply IHchildren; [exact Hx|]. apply Hchildren, list_elem_of_In, Hx. }
    eapply resolvesNothing_bind; [apply (off_pop {| live_tag := _ |})|].
    apply resolvesNothing_observe. simpl. rewrite attrNodesOf_map. apply resolvesNothing_ret.
Qed.

End Off.

(** X17: with [staticComponents], [staticHelpers] and [staticModifiers]
    off and no audit handler, a transform returns the template it is
    given, node for node, whatever the rules and the names in scope: it
    binds no import, reports nothing and leaves the scope stack empty. *)
Theorem nothing_is_resolved_with_everything_off (this : TemplateResolver) (t : Template) :
  staticComponentsEnabled this = false ->
  staticHelpersEnabled this = false ->
  staticModifiersEnabled this = false ->
  forallb everyTagNamed (body t) = true ->
  exists s', resolverTransform this t initialState = Return t s'
             /\ imports s' = [] /\ audit s' = [] /\ stack s' = [].
Proof.
  intros Hc Hh Hm Hnamed.
  assert (Hwalk : resolvesNothing (resolverTransform this t) t).
  { unfold resolverTransform. destruct (strict (env this)); [apply resolvesNothing_ret|].
    unfold walkTemplate. destruct t as [body0 bps]. simpl in *.
    eapply resolvesNothing_bind.
    { apply off_walkBlock; try assumption. apply resolvesNothing_mapM.
      rewrite forallb_forall in Hnamed. apply Forall_forall. intros x Hx.
      apply off_walkStatement; try assumption. apply Hnamed, list_elem_of_In, Hx. }
    apply resolvesNothing_ret. }
  destruct (Hwalk initialState) as (s' & Hrun & Himports & Haudit).
  exists s'. repeat split; try assumption.
  assert (Hshape : hoare (stackIs []) (resolverTransform this t) (fun _ => stackIs []) traced).
  { unfold resolverTransform. destruct (strict (env this));
      [apply hoare_ret; auto | apply walkTemplate_shape]. }
  specialize (Hshape initialState). rewrite Hrun in Hshape.
  destruct Hshape as [Hshape _]; [split; [reflexivity|constructor]|].
  destruct (stack s'); [reflexivity|discriminate].
Qed.

(** *** The invocations the resolver resolves *)

Lemma keyword_forms (name : string) :
  Array_includes builtInKeywords name = false ->
  String.eqb name "component" = false
  /\ String.eqb name "helper" = false
  /\ String.eqb name "modifier" = false.
Proof.
  intros Hkw. repeat split.
  - destruct (String.eqb_spec name "component") as [->|]; [discriminate|reflexivity].
  - destruct (String.eqb_spec name "helper") as [->|]; [discriminate|reflexivity].
  - destruct (String.eqb_spec name "modifier") as [->|]; [discriminate|reflexivity].
Qed.

(** X18: with components resolved, an element whose tag is not bound by
    the scope stack and begins with a character that is not its own
    lower case is resolved under the dasherized tag: unless that name is
    a built-in keyword or flagged [safeToIgnore], the component is
    imported, the tag becomes the identifier of the import, and the
    stack gets the marker of the component with the frame of the block
    parameters on top.  Otherwise the frame alone is pushed. *)
Theorem element_is_resolved_as_a_component (this : TemplateResolver) (index : RuleIndex)
    (c : ascii) (r : string) (names : list string) (s : State) :
  staticComponentsEnabled this = true ->
  rules this = Ok index ->
  inScope (stack s) (default "undefined" (head (split "." (String c r)))) = false ->
  String.eqb (String c EmptyString) (toLowerCase (String c EmptyString)) = false ->
  ElementNode_enter this (String c r) names s
  = let name := dasherize (String c r) in
    let specifier := "#embroider_compat/components/" +:+ name in
    let resolution0 := componentResolution specifier (components index !! name) (nameHint name) in
    let identifier := bindImport (env this) specifier (nameHint name) in
    if Array_includes builtInKeywords name || isIgnored index name
    then Return (String c r) (with_stack (push names (stack s)) s)
    else Return (original (buildersPath (env this) identifier))
           (with_stack
              (push names (enteringComponentBlock resolution0 ElementNodeCallback (stack s)))
              (with_imports (imports s ++ [(specifier, identifier)]) s)).
Proof.
  intros Hon Hrules Hout Hupper. cbv zeta.
  unfold ElementNode_enter, bind, getStack. rewrite Hout, Hupper.
  change (negb false) with true. cbv beta iota.
  rewrite (targetComponent_enabled this _ index s Hon Hrules).
  destruct (Array_includes builtInKeywords (dasherize (String c r))
            || isIgnored index (dasherize (String c r)));
    destruct s; reflexivity.
Qed.

(** X19: with components resolved, a block statement whose callee is one
    name, no built-in keyword, not bound by the scope stack and not
    [this], is resolved under that name: unless the rules flag the name
    [safeToIgnore], the component is imported, the callee becomes the
    identifier of the import, and the marker of the component is pushed
    for the frame of the block to land on. *)
Theorem block_is_resolved_as_a_component (this : TemplateResolver) (index : RuleIndex)
    (node : Call) (p : PathExpression) (s : State) :
  staticComponentsEnabled this = true ->
  rules this = Ok index ->
  call_path node = EPath p ->
  rootInScope (stack s) (head (parts p)) = false ->
  this_ p = false ->
  (1 <? length (parts p))%nat = false ->
  Array_includes builtInKeywords (original p) = false ->
  BlockStatement_visit this node s
  = let name := original p in
    let specifier := "#embroider_compat/components/" +:+ name in
    let resolution0 := componentResolution specifier (components index !! name) (nameHint name) in
    let identifier := bindImport (env this) specifier (nameHint name) in
    if isIgnored index name
    then Return node s
    else Return (setPath node (buildersPath (env this) identifier))
           (with_stack
              (enteringComponentBlock resolution0
                 (BlockStatementCallback (default "undefined" (head (parts p)))) (stack s))
              (with_imports (imports s ++ [(specifier, identifier)]) s)).
Proof.
  intros Hon Hrules Hp Hout Hthis Hone Hkw. cbv zeta.
  unfold BlockStatement_visit. rewrite Hp. cbv zeta. unfold bind at 1, getStack.
  rewrite Hout, Hthis, Hone. cbv beta iota.
  destruct (keyword_forms _ Hkw) as (-> & _ & _). cbn [andb]. cbv beta iota.
  unfold resolveBlockComponent, bind.
  rewrite (targetComponent_enabled this _ index s Hon Hrules), Hkw. cbn [orb].
  destruct (isIgnored index (original p)); destruct s; reflexivity.
Qed.

(** X20: a callee that is one global name, no built-in keyword, is
    resolved as a modifier in an element modifier, when modifiers are
    resolved and the callee is not marked as data, and as a helper in a
    sub-expression, when helpers are resolved: the import is bound and
    the callee becomes its identifier.  The sub-expression is resolved
    whatever the number of segments of its callee. *)
Theorem modifiers_and_helpers_are_resolved (this : TemplateResolver) (node : Call)
    (p : PathExpression) (s : State) :
  call_path node = EPath p ->
  rootInScope (stack s) (head (parts p)) = false ->
  this_ p = false ->
  Array_includes builtInKeywords (original p) = false ->
  (staticModifiersEnabled this = true ->
   data p = false ->
   (1 <? length (parts p))%nat = false ->
   ElementModifierStatement_visit this node s
   = let specifier := "#embroider_compat/modifiers/" +:+ original p in
     let identifier := bindImport (env this) specifier (nameHint (original p)) in
     Return (setPath node (buildersPath (env this) identifier))
       (with_imports (imports s ++ [(specifier, identifier)]) s))
  /\ (staticHelpersEnabled this = true ->
      SubExpression_visit this node s
      = let specifier := "#embroider_compat/helpers/" +:+ original p in
        let identifier := bindImport (env this) specifier (nameHint (original p)) in
        Return (setPath node (buildersPath (env this) identifier))
          (with_imports (imports s ++ [(specifier, identifier)]) s)).
Proof.
  intros Hp Hout Hthis Hkw. destruct (keyword_forms _ Hkw) as (Hc & Hh & Hm). split.
  - intros Hon Hdata Hone. unfold ElementModifierStatement_visit, bind, getStack.
    rewrite Hp, Hout, Hthis, Hdata, Hone. unfold targetElementModifier. rewrite Hon, Hkw.
    reflexivity.
  - intros Hon. unfold SubExpression_visit, SubExpression_rewrite, bind, getStack.
    rewrite Hp, Hthis, Hout, Hc, Hh, Hm. simpl andb. cbv iota.
    unfold targetHelper. rewrite Hon, Hkw. reflexivity.
Qed.

(** *** Lexical scope

    The scope stack along the walk of a node: the entries it had when
    the walk began stay at its bottom, and are all of it again when the
    walk returns. *)

Lemma safeComponentInScope_frames (stack0 : list ScopeEntry) (name : string) :
  frames (snd (safeComponentInScope stack0 name)) = frames stack0.
Proof.
  unfold safeComponentInScope. destruct (2 <? length (split "." name))%nat; [reflexivity|].
  destruct (scanScopes_effect (split "." name) stack0)
    as [->|[_ (above & names & next & below & sourceArg & Hstack & _ & ->)]]; [reflexivity|].
  subst stack0. unfold frames. rewrite !map_app. reflexivity.
Qed.

Lemma inScope_frames (stack0 : list ScopeEntry) (name : string) :
  inScope stack0 name
  = existsb (fun f => match f with
                      | Some names => Array_includes names name
                      | None => false
                      end) (frames stack0).
Proof.
  induction stack0 as [|[names|m] rest IH]; simpl; [reflexivity| |exact IH].
  rewrite <- IH. now destruct (Array_includes names name).
Qed.

Lemma inScope_suffix (outer inner : list ScopeEntry) (name : string) :
  frames outer `suffix_of` frames inner ->
  inScope outer name = true -> inScope inner name = true.
Proof.
  intros [above Happ]. rewrite !inScope_frames, Happ, existsb_app.
  intros ->. apply orb_true_r.
Qed.

Lemma framesKept_refl (s : State) : framesKept s s.
Proof. split; reflexivity. Qed.

Lemma framesKept_trans (s1 s2 s3 : State) :
  framesKept s1 s2 -> framesKept s2 s3 -> framesKept s1 s3.
Proof. intros [H1 H2] [H3 H4]. split; congruence. Qed.

Lemma framesKept_safe (name : string) (s : State) :
  framesKept s (with_stack (snd (safeComponentInScope (stack s) name)) s).
Proof. split; [apply safeComponentInScope_frames | reflexivity]. Qed.

(** Discharges what a step lemma of the traversal asks of the relation
    [framesKept]. *)
Ltac frames_kept lemma :=
  apply lemma;
  first [ exact framesKept_refl | exact framesKept_trans | exact framesKept_safe
        | intros; split; reflexivity | intros; exact I ].

Lemma framesKept_emit {T : Type} (this : TemplateResolver) (target : T)
    (r : option Resolution) (setter : T -> PathExpression -> T) :
  runs framesKept (fun _ => True) (emit this target r setter) (fun _ => True).
Proof.
  intros s. destruct r as [[c|h|m|f]|]; simpl; try (split; [split; reflexivity | exact I]).
  unfold bind, reportError.
  destruct (negb (auditHandler this)
            && negb (allowUnsafeDynamicComponents (options (config this))));
    [|destruct (auditHandler this)]; simpl; split; try exact I; split; reflexivity.
Qed.

Section Scope.

Variable this : TemplateResolver.
Variable before : list (VisitorEvent * list ScopeEntry).
Variable base : list (option (list string)).

Lemma scope_keeps {A} (m : M A) (fs : list (option (list string))) :
  runs framesKept (fun _ => True) m (fun _ => True) ->
  hoare (scopeIs before base fs) m (fun _ => scopeIs before base fs) (recordedWithin before base).
Proof.
  intros Hk s [Hfs Hrec]. specialize (Hk s). unfold scopeIs, recordedWithin in *.
  destruct (m s) as [a s'|e s']; destruct Hk as [[Hf Ht] _]; rewrite ?Hf, Ht; auto.
Qed.

Lemma scope_observe (ev : VisitorEvent) (fs : list (option (list string))) :
  base `suffix_of` fs ->
  hoare (scopeIs before base fs) (observe ev) (fun _ => scopeIs before base fs) (recordedWithin before base).
Proof.
  intros Hbase s [Hfs (new & Htrace & Hall)]. unfold observe, scopeIs, recordedWithin. simpl.
  split; [exact Hfs|]. exists (new ++ [(ev, stack s)]).
  rewrite Htrace, app_assoc. split; [reflexivity|].
  apply Forall_app. split; [exact Hall|]. constructor; [|constructor].
  simpl. rewrite Hfs. exact Hbase.
Qed.

Lemma scope_push (names : list string) (fs : list (option (list string))) :
  hoare (scopeIs before base fs) (modifyStack (push names)) (fun _ => scopeIs before base (Some names :: fs)) (recordedWithin before base).
Proof.
  intros s [Hfs Hrec]. unfold modifyStack, push, scopeIs. simpl.
  split; [now rewrite <- Hfs | exact Hrec].
Qed.

Lemma scope_enteringComponentBlock (c : ComponentResolution) (cb : ExitCallback)
    (fs : list (option (list string))) :
  hoare (scopeIs before base fs) (modifyStack (enteringComponentBlock c cb))
    (fun _ => scopeIs before base (None :: fs)) (recordedWithin before base).
Proof.
  intros s [Hfs Hrec]. unfold modifyStack, enteringComponentBlock, scopeIs. simpl.
  split; [now rewrite <- Hfs | exact Hrec].
Qed.

Lemma scope_tail (fs : list (option (list string))) :
  hoare (scopeIs before base fs) (modifyStack (@tail ScopeEntry)) (fun _ => scopeIs before base (tail fs)) (recordedWithin before base).
Proof.
  intros s [Hfs Hrec]. unfold modifyStack, scopeIs. simpl.
  split; [|exact Hrec]. rewrite <- Hfs. now destruct (stack s).
Qed.

Lemma scope_pop (live : LiveNode) (fs : list (option (list string))) :
  hoare (scopeIs before base fs) (pop this live) (fun _ => scopeIs before base (popFrames fs)) (recordedWithin before base).
Proof.
  unfold pop. eapply hoare_bind; [apply scope_tail|]. intros [].
  intros s [Hfs Hrec]. unfold bind at 1. unfold getStack.
  destruct (stack s) as [|[bp|next] rest] eqn:Hstack.
  - simpl. split; [|exact Hrec]. rewrite Hstack.
    destruct fs as [|a [|[n|] r]]; simpl in *; congruence.
  - simpl. split; [|exact Hrec]. rewrite Hstack.
    destruct fs as [|a [|[n|] r]]; simpl in *; congruence.
  - assert (Hin : scopeIs before base (tail fs) s) by (split; [rewrite Hstack; exact Hfs | exact Hrec]).
    assert (Hk : hoare (scopeIs before base (tail fs))
                   (let! attributes := runExit this next live in
                    modifyStack (@tail ScopeEntry) ;;; ret attributes)
                   (fun _ => scopeIs before base (tail (tail fs))) (recordedWithin before base)).
    { eapply hoare_bind.
      { apply scope_keeps. unfold runExit.
        destruct (exit next); frames_kept runs_handleDynamicComponentArguments. }
      intros attributes.
      eapply hoare_bind; [apply scope_tail|]. intros []. apply hoare_ret. auto. }
    specialize (Hk s Hin).
    destruct fs as [|a [|[n|] r]]; simpl in *; congruence.
Qed.

Lemma scope_Program_enter (names : list string) (fs : list (option (list string))) :
  hoare (scopeIs before base fs) (Program_enter this names) (fun _ => scopeIs before base (enterFrames this names fs))
    (recordedWithin before base).
Proof.
  unfold Program_enter, enterFrames.
  eapply hoare_bind; [apply scope_push|]. intros [].
  destruct (locals (env this)); [apply scope_push | apply hoare_ret; auto].
Qed.

Lemma scope_Program_exit (live : LiveNode) (names : list string)
    (fs : list (option (list string))) :
  hoare (scopeIs before base (enterFrames this names fs)) (Program_exit this live)
    (fun _ => scopeIs before base (popFrames (Some names :: fs))) (recordedWithin before base).
Proof.
  unfold Program_exit, enterFrames.
  destruct (locals (env this)).
  - eapply hoare_bind; [apply scope_pop|]. intros attributes. simpl popFrames. apply scope_pop.
  - eapply hoare_bind; [apply scope_pop|]. intros attributes. apply hoare_ret. auto.
Qed.

Lemma scope_BlockStatement_visit (node : Call) (fs : list (option (list string))) :
  hoare (scopeIs before base fs) (BlockStatement_visit this node)
    (fun _ s => scopeIs before base fs s \/ scopeIs before base (None :: fs) s) (recordedWithin before base).
Proof.
  assert (Hkeep : forall m : M Call,
            runs framesKept (fun _ => True) m (fun _ => True) ->
            hoare (scopeIs before base fs) m (fun _ s => scopeIs before base fs s \/ scopeIs before base (None :: fs) s) (recordedWithin before base)).
  { intros m Hm.
    apply hoare_conseq with (P := scopeIs before base fs) (Q := fun _ => scopeIs before base fs);
      [apply scope_keeps, Hm | auto | auto]. }
  assert (Hret : forall node' : Call,
            hoare (scopeIs before base fs) (ret node') (fun _ s => scopeIs before base fs s \/ scopeIs before base (None :: fs) s)
              (recordedWithin before base)) by (intros node'; apply hoare_ret; auto).
  unfold BlockStatement_visit.
  destruct (call_path node) as [p| | |]; try apply Hret.
  cbv zeta. eapply hoare_bind; [apply scope_keeps; frames_kept runs_getStack|]. intros stack0.
  destruct (rootInScope stack0 (head (parts p))); [apply Hret|].
  destruct (this_ p); [apply Hret|].
  destruct (1 <? length (parts p))%nat; [apply Hret|].
  destruct (String.eqb (original p) "component" && (0 <? length (call_params node))%nat).
  - apply Hkeep. frames_kept runs_firstParam.
  - unfold resolveBlockComponent.
    eapply hoare_bind.
    { apply scope_keeps.
      apply runs_weaken with (Q := fun r => goodResolution this (option_map Component r));
        [frames_kept runs_targetComponent | auto]. }
    intros r.
    eapply hoare_bind.
    { apply scope_keeps, framesKept_emit. }
    intros node'. destruct r as [c|]; [|apply Hret].
    eapply hoare_bind; [apply scope_enteringComponentBlock|]. intros [].
    apply hoare_ret. auto.
Qed.

Lemma scope_ElementNode_enter (tag : string) (names : list string)
    (fs : list (option (list string))) :
  hoare (scopeIs before base fs) (ElementNode_enter this tag names)
    (fun _ s => scopeIs before base (Some names :: fs) s \/ scopeIs before base (Some names :: None :: fs) s) (recordedWithin before base).
Proof.
  unfold ElementNode_enter. cbv zeta.
  eapply hoare_bind; [apply scope_keeps; frames_kept runs_getStack|]. intros stack0.
  eapply hoare_bind with (Q := fun _ s => scopeIs before base fs s \/ scopeIs before base (None :: fs) s).
  - destruct (negb (inScope stack0 (default "undefined" (head (split "." tag)))));
      [|apply hoare_ret; auto].
    eapply hoare_bind.
    { apply scope_keeps. destruct tag as [|c rest].
      - intros s. simpl. split; [apply framesKept_refl | exact I].
      - destruct (negb (String.eqb (String c EmptyString) (toLowerCase (String c EmptyString)))).
        + apply runs_weaken with (Q := fun r => goodResolution this (option_map Component r));
            [frames_kept runs_targetComponent | auto].
        + intros s. simpl. split; [apply framesKept_refl | exact I]. }
    intros r.
    eapply hoare_bind.
    { apply scope_keeps, framesKept_emit. }
    intros tag1. destruct r as [c|]; [|apply hoare_ret; auto].
    eapply hoare_bind; [apply scope_enteringComponentBlock|]. intros [].
    apply hoare_ret. auto.
  - intros tag'. apply hoare_or.
    + eapply hoare_bind; [apply scope_push|]. intros []. apply hoare_ret. auto.
    + eapply hoare_bind; [apply scope_push|]. intros []. apply hoare_ret. auto.
Qed.


Lemma scope_walkExpression (e : Expression) (fs : list (option (list string))) :
  base `suffix_of` fs ->
  hoare (scopeIs before base fs) (walkExpression this e) (fun _ => scopeIs before base fs)
    (recordedWithin before base).
Proof.
  intros Hbase. induction e as [p|path params hash loc IHpath IHparams IHhash|value loc|loc]
    using Expression_induction; try (apply hoare_ret; auto).
  simpl.
  eapply hoare_bind; [apply scope_keeps; frames_kept runs_SubExpression_rewrite|]. intros rw.
  eapply hoare_bind; [apply scope_observe, Hbase|]. intros [].
  apply hoare_bind with (Q := fun _ => scopeIs before base fs).
  { destruct rw; [exact IHpath | apply hoare_ret; auto | exact IHpath]. }
  intros path'.
  apply hoare_bind with (Q := fun _ => scopeIs before base fs).
  { assert (Hall : hoare (scopeIs before base fs) (mapM (walkExpression this) params)
                     (fun _ => scopeIs before base fs) (recordedWithin before base))
      by (apply hoare_mapM; exact IHparams).
    destruct rw; try exact Hall.
    destruct params as [|x rest]; [exact Hall|].
    eapply hoare_bind; [apply hoare_mapM; inversion IHparams; assumption|].
    intros rest'. apply hoare_ret. auto. }
  intros params'.
  eapply hoare_bind.
  { apply hoare_mapM. eapply Forall_impl; [exact IHhash|].
    intros kv Hkv. simpl. eapply hoare_bind; [exact Hkv|]. intros v. apply hoare_ret. auto. }
  intros hash'. apply hoare_ret. auto.
Qed.

Lemma scope_walkCall (node : Call) (fs : list (option (list string))) :
  base `suffix_of` fs ->
  hoare (scopeIs before base fs) (walkCall this node) (fun _ => scopeIs before base fs)
    (recordedWithin before base).
Proof.
  intros Hbase. unfold walkCall.
  eapply hoare_bind; [apply scope_walkExpression; exact Hbase|]. intros path'.
  eapply hoare_bind.
  { apply hoare_mapM, Forall_forall. intros x _. apply scope_walkExpression; exact Hbase. }
  intros params'.
  eapply hoare_bind.
  { apply hoare_mapM, Forall_forall. intros kv _. unfold walkPair.
    eapply hoare_bind; [apply scope_walkExpression; exact Hbase|]. intros v.
    apply hoare_ret. auto. }
  intros pairs'. apply hoare_ret. auto.
Qed.

Lemma scope_walkMustache (parent : NodeType) (node : Call) (fs : list (option (list string))) :
  base `suffix_of` fs ->
  hoare (scopeIs before base fs) (walkMustache this parent node)
    (fun _ => scopeIs before base fs) (recordedWithin before base).
Proof.
  intros Hbase. unfold walkMustache.
  eapply hoare_bind; [apply scope_keeps; frames_kept runs_MustacheStatement_enter|].
  intros node'.
  eapply hoare_bind; [apply scope_observe, Hbase|]. intros [].
  apply scope_walkCall, Hbase.
Qed.

Lemma scope_walkModifier (node : Call) (fs : list (option (list string))) :
  base `suffix_of` fs ->
  hoare (scopeIs before base fs) (walkModifier this node) (fun _ => scopeIs before base fs)
    (recordedWithin before base).
Proof.
  intros Hbase. unfold walkModifier.
  eapply hoare_bind; [apply scope_keeps; frames_kept runs_ElementModifierStatement_visit|].
  intros node'.
  eapply hoare_bind; [apply scope_observe, Hbase|]. intros [].
  apply scope_walkCall, Hbase.
Qed.

Lemma scope_walkAttr (a : AttrNode) (fs : list (option (list string))) :
  base `suffix_of` fs ->
  hoare (scopeIs before base fs) (walkAttr this a) (fun _ => scopeIs before base fs)
    (recordedWithin before base).
Proof.
  intros Hbase. unfold walkAttr. destruct (attr_value a) as [t|m|ps loc].
  - apply hoare_ret. auto.
  - eapply hoare_bind; [apply scope_walkMustache; exact Hbase|]. intros m'.
    apply hoare_ret. auto.
  - eapply hoare_bind.
    { apply hoare_mapM, Forall_forall. intros part _. unfold walkConcatPart.
      destruct part as [t|m]; [apply hoare_ret; auto|].
      eapply hoare_bind; [apply scope_walkMustache; exact Hbase|]. intros m'.
      apply hoare_ret. auto. }
    intros ps'. apply hoare_ret. auto.
Qed.

Lemma suffix_enterFrames (names : list string) (fs : list (option (list string))) :
  base `suffix_of` fs -> base `suffix_of` enterFrames this names fs.
Proof.
  intros Hbase. unfold enterFrames.
  destruct (locals (env this)); repeat apply suffix_cons_r; exact Hbase.
Qed.

Lemma startsWithFrame_enterFrames (names : list string) (fs : list (option (list string))) :
  startsWithFrame (enterFrames this names fs) = true.
Proof. unfold enterFrames. destruct (locals (env this)); reflexivity. Qed.

Lemma popFrames_frame (names : list string) (fs : list (option (list string))) :
  startsWithFrame fs = true -> popFrames (Some names :: fs) = fs.
Proof. destruct fs as [|[n|] r]; [reflexivity|reflexivity|discriminate]. Qed.

Lemma scope_walkBlock (walkBody : list Statement -> M (list Statement))
    (body0 : list Statement) (names : list string) (owner : LiveNode)
    (fs : list (option (list string))) :
  base `suffix_of` fs ->
  base `suffix_of` popFrames (Some names :: fs) ->
  hoare (scopeIs before base (enterFrames this names fs)) (walkBody body0)
    (fun _ => scopeIs before base (enterFrames this names fs)) (recordedWithin before base) ->
  hoare (scopeIs before base fs) (walkBlock this walkBody body0 names owner)
    (fun _ => scopeIs before base (popFrames (Some names :: fs))) (recordedWithin before base).
Proof.
  intros Hbase Hafter Hbody. unfold walkBlock.
  eapply hoare_bind; [apply scope_Program_enter|]. intros [].
  eapply hoare_bind; [apply scope_observe, suffix_enterFrames, Hbase|]. intros [].
  eapply hoare_bind; [exact Hbody|]. intros body'.
  eapply hoare_bind; [apply scope_Program_exit|]. intros attributes.
  eapply hoare_bind; [apply scope_observe, Hafter|]. intros [].
  apply hoare_ret. auto.
Qed.

Lemma scope_walkStatement (s : Statement) :
  forall (parent : NodeType) (fs : list (option (list string))),
    base `suffix_of` fs ->
    startsWithFrame fs = true ->
    hoare (scopeIs before base fs) (walkStatement this parent s)
      (fun _ => scopeIs before base fs) (recordedWithin before base).
Proof.
  induction s as [m|head program bps inverse IHprogram IHinverse
                  |tag attributes modifiers children bps loc IHchildren|t|value]
    using Statement_induction; intros parent fs Hbase Htop; try (apply hoare_ret; auto).
  - simpl. eapply hoare_bind; [apply scope_walkMustache; exact Hbase|]. intros m'.
    apply hoare_ret. auto.
  - assert (Hblock : forall body0 names owner fs',
              Forall (fun s => forall parent fs,
                        base `suffix_of` fs -> startsWithFrame fs = true ->
                        hoare (scopeIs before base fs) (walkStatement this parent s)
                          (fun _ => scopeIs before base fs) (recordedWithin before base))
                body0 ->
              base `suffix_of` fs' ->
              popFrames (Some names :: fs') = fs ->
              hoare (scopeIs before base fs')
                (walkBlock this (mapM (walkStatement this BlockType)) body0 names owner)
                (fun _ => scopeIs before base fs) (recordedWithin before base)).
    { intros body0 names owner fs' Hall Hbase' Hpop. rewrite <- Hpop.
      apply scope_walkBlock; [exact Hbase' | rewrite Hpop; exact Hbase|].
      apply hoare_mapM. eapply Forall_impl; [exact Hall|].
      intros x Hx. apply Hx; [apply suffix_enterFrames, Hbase'|].
      apply startsWithFrame_enterFrames. }
    assert (Hrest : forall head2 (r : list Statement * list Attribute),
              hoare (scopeIs before base fs)
                (let head3 := setPairs head2 (hashPairsOf (snd r)) in
                 match inverse with
                 | None => ret (BlockStatement head3 (fst r) bps None)
                 | Some (body2, bps2) =>
                     let! r2 := walkBlock this (mapM (walkStatement this BlockType)) body2 bps2
                                  {| live_tag := EmptyString;
                                     live_attributes :=
                                       map HashPairAttribute (call_pairs head3) |} in
                     ret (BlockStatement (setPairs head3 (hashPairsOf (snd r2))) (fst r)
                            bps (Some (fst r2, bps2)))
                 end)
                (fun _ => scopeIs before base fs) (recordedWithin before base)).
    { intros head2 r. cbv zeta.
      destruct inverse as [[body2 bps2]|]; [|apply hoare_ret; auto].
      eapply hoare_bind;
        [apply Hblock; [exact IHinverse | exact Hbase | apply popFrames_frame, Htop]|].
      intros r2. apply hoare_ret. auto. }
    simpl.
    eapply hoare_bind; [apply scope_BlockStatement_visit|]. intros head1.
    apply hoare_or.
    + eapply hoare_bind; [apply scope_observe, Hbase|]. intros [].
      eapply hoare_bind; [apply scope_walkCall, Hbase|]. intros head2.
      eapply hoare_bind;
        [apply Hblock; [exact IHprogram | exact Hbase | apply popFrames_frame, Htop]|].
      intros r. apply Hrest.
    + assert (Hbase1 : base `suffix_of` None :: fs) by (apply suffix_cons_r, Hbase).
      eapply hoare_bind; [apply scope_observe, Hbase1|]. intros [].
      eapply hoare_bind; [apply scope_walkCall, Hbase1|]. intros head2.
      eapply hoare_bind; [apply Hblock; [exact IHprogram | exact Hbase1 | reflexivity]|].
      intros r. apply Hrest.
  - simpl.
    eapply hoare_bind; [apply scope_ElementNode_enter|]. intros tag'.
    assert (Hinside : forall fs',
              base `suffix_of` fs' ->
              startsWithFrame fs' = true ->
              popFrames fs' = fs ->
              hoare (scopeIs before base fs')
                (observe ElementNodeEnter ;;;
                 let! attributes' := mapM (walkAttr this) attributes in
                 let! modifiers' := mapM (walkModifier this) modifiers in
                 let! children' := mapM (walkStatement this ElementNodeType) children in
                 let! attributes2 :=
                   ElementNode_exit this {| live_tag := tag';
                                            live_attributes := map AttrNodeAttribute attributes' |} in
                 observe ElementNodeExit ;;;
                 ret (ElementNode tag' (attrNodesOf attributes2) modifiers' children' bps loc))
                (fun _ => scopeIs before base fs) (recordedWithin before base)).
    { intros fs' Hbase' Htop' Hpop.
      eapply hoare_bind; [apply scope_observe, Hbase'|]. intros [].
      eapply hoare_bind.
      { apply hoare_mapM, Forall_forall. intros a _. apply scope_walkAttr, Hbase'. }
      intros attributes'.
      eapply hoare_bind.
      { apply hoare_mapM, Forall_forall. intros a _. apply scope_walkModifier, Hbase'. }
      intros modifiers'.
      eapply hoare_bind.
      { apply hoare_mapM. eapply Forall_impl; [exact IHchildren|].
        intros x Hx. apply Hx; assumption. }
      intros children'.
      eapply hoare_bind; [apply scope_pop|]. intros attributes2. rewrite Hpop.
      eapply hoare_bind; [apply scope_observe, Hbase|]. intros [].
      apply hoare_ret. auto. }
    apply hoare_or; apply Hinside.
    + apply suffix_cons_r, Hbase.
    + reflexivity.
    + apply popFrames_frame, Htop.
    + do 2 apply suffix_cons_r. exact Hbase.
    + reflexivity.
    + reflexivity.
Qed.

End Scope.

(** X21: scope is lexical.  Along the walk of a statement from a scope
    stack whose top is not a marker, every handler leaves a stack that
    has, at its bottom, the entries the stack had when the walk began,
    up to the arguments their markers collect: every name in scope
    outside the statement is in scope at every handler inside it.  When
    the walk returns, the stack holds those entries again and no
    other. *)
Theorem scope_is_lexical (this : TemplateResolver) (parent : NodeType) (stmt : Statement)
    (s : State) :
  startsWithFrame (frames (stack s)) = true ->
  (exists new,
      trace (finalState (walkStatement this parent stmt s)) = trace s ++ new
      /\ Forall (fun entry =>
                   frames (stack s) `suffix_of` frames (snd entry)
                   /\ forall name, inScope (stack s) name = true ->
                                   inScope (snd entry) name = true) new)
  /\ match walkStatement this parent stmt s with
     | Return _ s' => frames (stack s') = frames (stack s)
     | Throw _ _ => True
     end.
Proof.
  intros Htop.
  pose proof (scope_walkStatement this (trace s) (frames (stack s)) stmt parent
                (frames (stack s)) (ex_intro _ [] eq_refl) Htop s) as Hwalk.
  assert (Hstart : scopeIs (trace s) (frames (stack s)) (frames (stack s)) s).
  { split; [reflexivity|]. exists []. rewrite app_nil_r. auto. }
  specialize (Hwalk Hstart).
  assert (Hnames : forall new : list (VisitorEvent * list ScopeEntry),
            Forall (fun entry => frames (stack s) `suffix_of` frames (snd entry)) new ->
            Forall (fun entry =>
                      frames (stack s) `suffix_of` frames (snd entry)
                      /\ forall name, inScope (stack s) name = true ->
                                      inScope (snd entry) name = true) new).
  { intros new Hall. eapply Forall_impl; [exact Hall|]. intros entry Hsuffix.
    split; [exact Hsuffix|]. intros name. apply inScope_suffix, Hsuffix. }
  destruct (walkStatement this parent stmt s) as [a s'|e s']; simpl.
  - destruct Hwalk as [Hfs (new & Htrace & Hall)]. split; [|exact Hfs]. eauto.
  - destruct Hwalk as (new & Htrace & Hall). split; [|exact I]. eauto.
Qed.

(** *** Components by name and by block parameter *)

Lemma handleComponentHelper_literal (this : TemplateResolver) (index : RuleIndex) (param : Node)
    (value : string) (implied : option (string * string)) (s : State) :
  staticComponentsEnabled this = true ->
  rules this = Ok index ->
  literalOf param = Some value ->
  handleComponentHelper this param implied s
  = if Array_includes builtInKeywords value || isIgnored index value then Return None s
    else Return (Some (Component (componentOf index "components" value))) s.
Proof.
  intros Hon Hrules Hliteral.
  assert (Hlocator : forall loc,
            resolveLocator this (LocatorLiteral value) loc implied s
            = if Array_includes builtInKeywords value || isIgnored index value
              then Return None s
              else Return (Some (Component (componentOf index "components" value))) s).
  { intros loc. rewrite (resolveLocator_literal this value loc implied s Hon). unfold bind.
    rewrite (targetComponent_enabled this value index s Hon Hrules).
    destruct (Array_includes builtInKeywords value || isIgnored index value); reflexivity. }
  destruct param as [[p|path params hash loc|v loc|loc]|m|t|ps loc]; try discriminate;
    injection Hliteral as <-; apply Hlocator.
Qed.

(** X22: a name of one segment that a frame directly above a marker
    binds at position [k], no nearer such frame binding it, is a safe
    component exactly when the component of the marker yields a safe
    component at [k] ([yieldsSafeComponents[k]] is [true]) or forwards
    an argument there ([yieldsArguments[k]] is a string); in the second
    case, and only then, the name of the argument is appended to the
    [argumentsAreComponents] of the marker. *)
Theorem yielded_name_is_safe_by_its_position (name : string) (pre : list ScopeEntry)
    (names : list string) (next : ComponentBlockMarker) (rest : list ScopeEntry) (k : nat) :
  String_includes name "." = false ->
  bindsAboveMarker name pre = false ->
  Array_indexOf names name = Some k ->
  safeComponentInScope (pre ++ blockParamsEntry names :: componentBlockMarker next :: rest) name
  = match yieldsComponents (resolution next) !! k,
          component_yieldsArguments (resolution next) !! k with
    | Some (SafeBool true), _ =>
        (true, pre ++ blockParamsEntry names :: componentBlockMarker next :: rest)
    | _, Some (ArgName sourceArg) =>
        (true, pre ++ blockParamsEntry names
                 :: componentBlockMarker (pushArgument next sourceArg) :: rest)
    | _, _ => (false, pre ++ blockParamsEntry names :: componentBlockMarker next :: rest)
    end.
Proof.
  intros Hdot Hpre Hk.
  assert (Hsplit : split "." name = [name]).
  { unfold split. apply (split_acc_without_separator "."%char name EmptyString Hdot). }
  unfold safeComponentInScope. rewrite Hsplit. simpl Nat.ltb. cbv iota.
  rewrite (scanScopes_nearest [name] pre names next rest k Hpre Hk).
  unfold markerProvesSafe.
  destruct (yieldsComponents (resolution next) !! k) as [[[|]|fields]|];
    destruct (component_yieldsArguments (resolution next) !! k) as [[sourceArg|fields']|];
    reflexivity.
Qed.

(** X23: the [component] keyword with a string literal as its first
    argument, in a block statement, a mustache or a sub-expression, with
    components resolved: unless the literal is a built-in keyword or
    flagged [safeToIgnore], the component of that name is imported and
    the identifier of the import takes the place of the literal;
    otherwise the node is left as it is. *)
Theorem component_keyword_with_a_literal (this : TemplateResolver) (index : RuleIndex)
    (node : Call) (p : PathExpression) (value : string) (loc : Loc)
    (others : list Expression) (parent : option NodeType) (s : State) :
  staticComponentsEnabled this = true ->
  rules this = Ok index ->
  call_path node = EPath p ->
  original p = "component" ->
  rootInScope (stack s) (head (parts p)) = false ->
  this_ p = false ->
  (1 <? length (parts p))%nat = false ->
  call_params node = StringLiteral value loc :: others ->
  let outcome :=
    if Array_includes builtInKeywords value || isIgnored index value
    then Return node s
    else Return (setFirstParam node (identifierOf this "components" value))
           (imported this "components" value s) in
  BlockStatement_visit this node s = outcome
  /\ MustacheStatement_enter this node parent s = outcome
  /\ SubExpression_visit this node s = outcome.
Proof.
  intros Hon Hrules Hp Hname Hout Hthis Hone Hparams outcome. subst outcome.
  pose proof (handleComponentHelper_literal this index
                (ExpressionNode (StringLiteral value loc)) value None s Hon Hrules eq_refl)
    as Hliteral.
  unfold BlockStatement_visit, MustacheStatement_enter, SubExpression_visit,
    SubExpression_rewrite.
  rewrite Hp. cbv zeta. unfold bind, getStack.
  rewrite Hthis, Hout, Hone, Hname, Hparams.
  change (String.eqb "component" "component") with true.
  change (startsWith "component" "@") with false.
  change (0 <? length (StringLiteral value loc :: others))%nat with true.
  cbv beta iota. cbn [andb]. cbv beta iota. rewrite Hliteral.
  destruct (Array_includes builtInKeywords value || isIgnored index value);
    repeat split; reflexivity.
Qed.


(** X25: the [helper] keyword with a string literal as its first
    argument, in a mustache or a sub-expression, with helpers resolved,
    and the [modifier] keyword with one in a sub-expression, with
    modifiers resolved: unless the literal is a built-in keyword, the
    helper or modifier of that name is imported and the identifier of
    the import takes the place of the literal; otherwise the node is
    left as it is. *)
Theorem helper_and_modifier_keywords_with_a_literal (this : TemplateResolver) (node : Call)
    (p : PathExpression) (value : string) (loc : Loc) (others : list Expression)
    (parent : option NodeType) (s : State) :
  call_path node = EPath p ->
  rootInScope (stack s) (head (parts p)) = false ->
  this_ p = false ->
  call_params node = StringLiteral value loc :: others ->
  (original p = "helper" ->
   staticHelpersEnabled this = true ->
   let outcome :=
     if Array_includes builtInKeywords value then Return node s
     else Return (setFirstParam node (identifierOf this "helpers" value))
            (imported this "helpers" value s) in
   SubExpression_visit this node s = outcome
   /\ ((1 <? length (parts p))%nat = false ->
       MustacheStatement_enter this node parent s = outcome))
  /\ (original p = "modifier" ->
      staticModifiersEnabled this = true ->
      SubExpression_visit this node s
      = if Array_includes builtInKeywords value then Return node s
        else Return (setFirstParam node (identifierOf this "modifiers" value))
               (imported this "modifiers" value s)).
Proof.
  intros Hp Hout Hthis Hparams. split.
  - intros Hname Hon outcome. subst outcome.
    unfold SubExpression_visit, SubExpression_rewrite, MustacheStatement_enter.
    rewrite Hp. cbv zeta. unfold bind, getStack.
    rewrite Hthis, Hout, Hname, Hparams.
    change (String.eqb "helper" "component") with false.
    change (String.eqb "helper" "helper") with true.
    change (startsWith "helper" "@") with false.
    change (0 <? length (StringLiteral value loc :: others))%nat with true.
    cbn [andb handleDynamicHelper]. cbv beta iota.
    unfold targetDynamicHelper, targetHelper. rewrite Hon. cbn [negb]. cbv beta iota.
    split; [|intros ->];
      destruct (Array_includes builtInKeywords value); reflexivity.
  - intros Hname Hon.
    unfold SubExpression_visit, SubExpression_rewrite.
    rewrite Hp. unfold bind, getStack.
    rewrite Hthis, Hout, Hname, Hparams.
    change (String.eqb "modifier" "component") with false.
    change (String.eqb "modifier" "helper") with false.
    change (String.eqb "modifier" "modifier") with true.
    change (0 <? length (StringLiteral value loc :: others))%nat with true.
    cbn [andb handleDynamicModifier]. cbv beta iota.
    unfold targetDynamicModifier, targetElementModifier. rewrite Hon. cbn [negb]. cbv beta iota.
    destruct (Array_includes builtInKeywords value); reflexivity.
Qed.

(** X26: a mustache outside an attribute value whose callee is a plain
    global name with arguments, with components and helpers both
    resolved and nothing in the rules to ignore or disambiguate the
    name, is resolved as a component of the [ambiguous] name space: the
    import is bound, the callee becomes its identifier, and the named
    arguments that the rule of the component lists under
    [argumentsAreComponents] are resolved at once, among the pairs of
    the hash, the component being named to them by the identifier that
    has taken the place of the callee. *)
Theorem curly_invocation_with_arguments (this : TemplateResolver) (index : RuleIndex)
    (node : Call) (p : PathExpression) (parent : option NodeType) (s : State) :
  staticComponentsEnabled this = true ->
  staticHelpersEnabled this = true ->
  rules this = Ok index ->
  call_path node = EPath p ->
  rootInScope (stack s) (head (parts p)) = false ->
  this_ p = false ->
  (1 <? length (parts p))%nat = false ->
  startsWith (original p) "@" = false ->
  Array_includes builtInKeywords (original p) = false ->
  isIgnored index (original p) = false ->
  disambiguation this index (original p) = None ->
  (0 <? length (call_params node))%nat || (0 <? length (call_pairs node))%nat = true ->
  parent <> Some AttrNodeType ->
  MustacheStatement_enter this node parent s
  = (let! pairs :=
       handleDynamicComponentArguments this
         (original (identifierOf this "ambiguous" (original p)))
         (component_argumentsAreComponents (componentOf index "ambiguous" (original p)))
         (map HashPairAttribute (call_pairs node)) in
     ret (setPairs (setPath node (identifierOf this "ambiguous" (original p)))
            (hashPairsOf pairs)))
      (imported this "ambiguous" (original p) s).
Proof.
  intros Hc Hh Hrules Hp Hout Hthis Hone Hat Hkw Hign Hdis Hargs Hparent.
  destruct (keyword_forms _ Hkw) as (Hcomponent & Hhelper & _).
  rewrite (MustacheStatement_enter_ambiguous this node p parent s Hp Hout Hthis Hone Hat)
    by (rewrite ?Hcomponent, ?Hhelper; auto).
  unfold resolveAmbiguous. cbv zeta. unfold bind at 1.
  rewrite (targetHelperOrComponent_undecided this (original p) (path_loc p) _ index s)
    by (rewrite ?Hc, ?Hh; auto).
  rewrite Hargs, Hc, Hh. cbn [negb andb orb]. cbv beta iota.
  destruct node as [path params pairs loc]. simpl in Hp. subst path. reflexivity.
Qed.

End Properties.

(** ** The properties at the inputs of the test suite *)

Import Sample.

(** [{{hello-world}}] with static components alone: the ambiguity error
    is thrown, as in the test "bare dasherized component with no args is
    ambiguous". *)
Lemma hello_world_is_ambiguous :
  MustacheStatement_enter strictComponents (mustache "hello-world" [] []) (Some TemplateType)
    initialState
  = Throw (resolverError strictComponents
             {| message := "unsupported ambiguous syntax";
                detail := ambiguousDetail "hello-world" "HelloWorld";
                fail_loc := noLoc |}) initialState
  /\ throwsMentioning
       (MustacheStatement_enter strictComponents (mustache "hello-world" [] [])
          (Some TemplateType) initialState) "is ambiguous" = true.
Proof.
  destruct (bare_mustache_without_arguments_is_ambiguous strictComponents
              (mustache "hello-world" [] []) (pathBuilder "hello-world") (Some TemplateType)
              emptyIndex "h" "elloWorld" initialState) as (Hrun & _ & Hmentions);
    try reflexivity.
  - discriminate.
  - split; [exact Hrun|]. rewrite Hrun. exact Hmentions.
Defined.

(** [{{yield}}] with static components on and no rule: a bare name
    without arguments for which nothing is reported. *)
Lemma keyword_is_not_reported :
  staticComponentsEnabled strictComponents = true
  /\ disambiguation strictComponents emptyIndex "yield" = None
  /\ MustacheStatement_enter strictComponents yieldMustache (Some TemplateType) initialState
     = Return yieldMustache initialState.
Proof. repeat split. Qed.





(** The ambiguity error of [{{hello-world}}] is thrown by the strict
    resolver, and neither thrown nor collected once unsafe dynamic
    components are tolerated. *)
Lemma tolerance_drops_the_ambiguity_error :
  throwsMentioning (transform strictComponents helloWorld) "unsupported ambiguous syntax" = true
  /\ returned (transform tolerantComponents helloWorld) = Some helloWorld
  /\ audit (finalState (transform tolerantComponents helloWorld)) = [].
Proof. repeat split. Qed.




(** [{{component "hello-world"}}], [{{component this.which}}] and
    [{{component 1}}] with static components on. *)
Lemma dynamic_component_arguments :
  handleComponentHelper strictComponents (ExpressionNode (StringLiteral "hello-world" noLoc)) None
    initialState
  = Return (Some (Component (componentResolution "#embroider_compat/components/hello-world" None
                               "hello-world_"))) initialState
  /\ handleComponentHelper strictComponents (ExpressionNode (pathExpression "this.which")) None
       initialState
     = Return (Some (unsafeDynamic None "this.which" noLoc)) initialState
  /\ handleComponentHelper strictComponents (ExpressionNode (OtherLiteral noLoc)) None initialState
     = Return (Some (unsafeDynamic None "cannot statically analyze this expression" noLoc))
         initialState.
Proof.
  destruct (dynamic_component_resolution strictComponents emptyIndex None initialState
              eq_refl eq_refl) as (Hliteral & _ & Hpath & _ & _ & _ & _ & Hother & _).
  split; [exact (Hliteral "hello-world" noLoc)|].
  split; [exact (Hpath (pathBuilder "this.which")) | exact (Hother noLoc)].
Defined.



(** [class={{hello-world}}] with static helpers on: the callee becomes the
    import of the helper. *)
Lemma attribute_value_is_a_helper :
  MustacheStatement_enter strictHelpers (mustache "hello-world" [] []) (Some AttrNodeType)
    initialState
  = Return (mustache "helloWorld_" [] [])
      (with_imports [("#embroider_compat/helpers/hello-world", "helloWorld_")] initialState).
Proof.
  exact (proj1 (attribute_mustache_is_a_helper strictHelpers (mustache "hello-world" [] [])
                  (pathBuilder "hello-world") initialState
                  eq_refl eq_refl eq_refl eq_refl eq_refl eq_refl)).
Defined.

(** ** Scenarios of the test suite *)

(** "emits no components when staticComponents is off" *)
Example nothing_is_resolved_with_every_toggle_off :
  returned (transform allOff helloWorldTwice) = Some helloWorldTwice
  /\ returned (transform allOff helloWorld) = Some helloWorld
  /\ imports (finalState (transform allOff helloWorldTwice)) = [].
Proof. repeat split. Qed.

(** "bare dasherized component in ambiguous position requires
    staticHelpers to agree" *)
Example argument_needs_both_toggles :
  throwsMentioning (transform strictComponents helloWorldArg)
    "and your settings for staticHelpers and staticComponents do not agree" = true.
Proof. reflexivity. Qed.

(** "coalesces repeated components": both tags get the identifier bound
    to the one specifier. *)
Example repeated_component_is_bound_to_one_specifier :
  returned (transform strictComponents helloWorldTwice)
  = Some {| body := [ElementNode "helloWorld_" [] [] [] [] noLoc;
                     ElementNode "helloWorld_" [] [] [] [] noLoc];
            template_blockParams := [] |}
  /\ imports (finalState (transform strictComponents helloWorldTwice))
     = [("#embroider_compat/components/hello-world", "helloWorld_");
        ("#embroider_compat/components/hello-world", "helloWorld_")].
Proof. split; reflexivity. Qed.

(** "acceptsComponentArguments works on all copies of a lexically-inserted
    component, element syntax": the exit callback of the marker resolves
    the text of the attribute as a component. *)
Example component_argument_is_resolved_on_exit :
  returned (transform strictAccepting helloWorldWithTarget)
  = Some {| body := [ElementNode "helloWorld_"
                       [ {| attr_name := "@iAmAComponent";
                            attr_value := AttrMustache (mustache "firstTarget_" [] []) |} ]
                       [] [] [] noLoc];
            template_blockParams := [] |}
  /\ imports (finalState (transform strictAccepting helloWorldWithTarget))
     = [("#embroider_compat/components/hello-world", "helloWorld_");
        ("#embroider_compat/components/first-target", "firstTarget_")].
Proof. split; reflexivity. Qed.

(** A frame that has no marker below it is no candidate of the search of
    [safeComponentInScope]: the frame of a plain block that binds [x]
    again does not end the search for [x]. *)
Example plain_frame_is_skipped :
  safeComponentInScope plainFrameStack "x" = (true, plainFrameStack).
Proof. reflexivity. Qed.

(** ** Further properties on the inputs of the tests *)

(** [yield] is resolved by nothing, with every toggle on. *)
Lemma yield_is_never_resolved :
  targetComponent strictAll "yield" initialState = Return None initialState
  /\ targetHelper strictAll "yield" = None
  /\ targetElementModifier strictAll "yield" = None
  /\ targetHelperOrComponent strictAll "yield" noLoc true initialState
     = Return None initialState.
Proof.
  destruct (built_in_keywords_are_never_resolved strictAll "yield" initialState eq_refl)
    as (Hc & Hh & Hm & Ha & _).
  split; [exact Hc|]. split; [exact Hh|]. split; [exact Hm | exact (Ha noLoc true)].
Defined.

(** [hello-world] is flagged [safeToIgnore] by the later of two rules:
    neither [<HelloWorld />] nor [{{hello-world}}] is resolved or
    reported. *)
Lemma ignored_hello_world_is_not_resolved :
  targetComponent strictIgnoring "hello-world" initialState = Return None initialState
  /\ targetHelperOrComponent strictIgnoring "hello-world" noLoc false initialState
     = Return None initialState.
Proof.
  destruct (ignored_components_are_never_resolved strictIgnoring "hello-world" ignoringIndex
              initialState eq_refl eq_refl) as (Hc & _ & Ha).
  split; [exact Hc | exact (Ha noLoc false)].
Defined.

(** [{{item}}], [{{#item}}], [{{x (item)}}] inside
    [{{#each this.items as |item|}}], with every toggle on. *)
Lemma block_parameter_is_left_alone :
  BlockStatement_visit strictAll (mustache "item" [] []) insideEach
  = Return (mustache "item" [] []) insideEach
  /\ MustacheStatement_enter strictAll (mustache "item" [] []) (Some BlockType) insideEach
     = Return (mustache "item" [] []) insideEach
  /\ ElementModifierStatement_visit strictAll (mustache "item" [] []) insideEach
     = Return (mustache "item" [] []) insideEach
  /\ SubExpression_visit strictAll (mustache "item" [] []) insideEach
     = Return (mustache "item" [] []) insideEach.
Proof.
  exact (local_callees_are_left_alone strictAll (mustache "item" [] []) (pathBuilder "item")
           (Some BlockType) insideEach eq_refl eq_refl).
Defined.

(** [{{model.title}}] with every toggle on. *)
Lemma dotted_mustache_is_left_alone :
  MustacheStatement_enter strictAll (mustache "model.title" [] []) (Some TemplateType)
    initialState
  = Return (mustache "model.title" [] []) initialState.
Proof.
  destruct (contextual_callees_are_left_alone strictAll (mustache "model.title" [] [])
              (pathBuilder "model.title") (Some TemplateType) initialState eq_refl)
    as (Hdotted & _ & _).
  destruct (Hdotted eq_refl) as (_ & Hmustache & _). exact Hmustache.
Defined.

(** [<div>] with every toggle on: the frame of its block parameters is
    pushed, and nothing else happens. *)
Lemma div_only_pushes_its_frame :
  ElementNode_enter strictAll "div" [] initialState
  = Return "div" (with_stack [blockParamsEntry []] initialState).
Proof.
  exact (plain_elements_only_push_their_frame strictAll "d" "iv" [] initialState
           (or_intror eq_refl)).
Defined.

(** The hints of [hello-world] and of [my-addon@hello-world]. *)
Lemma hint_of_hello_world :
  nameHint "hello-world" = "hello-world_"
  /\ nameHint "my-addon@hello-world" = "hello-world_".
Proof.
  destruct (nameHint_is_the_last_segment "hello-world" eq_refl) as (Hplain & Hscoped).
  split; [exact Hplain | exact (Hscoped "my-addon")].
Defined.

(** The file of the tests, below the root [/app]. *)
Lemma application_template_is_named_relative_to_the_root :
  humanReadableFile strictComponents "/app/templates/application.hbs"
  = "templates/application.hbs".
Proof.
  exact (proj1 (files_are_named_relative_to_the_root strictComponents
                  "templates/application.hbs"
                  {| message := ""; detail := ""; fail_loc := noLoc |} eq_refl)).
Defined.

(** Two packages declare a rule for [hello-world]; the rule in force is
    that of the second.  The template rule of the second is stored under
    the root of the application. *)
Lemma second_rule_for_hello_world_wins :
  components ignoringIndex !! "hello-world" = Some ignoredRule
  /\ files ignoringIndex !! "/app/templates/application.hbs" = Some ignoredRule.
Proof.
  split.
  - exact (proj1 (later_rules_win strictIgnoring ignoringIndex "hello-world" eq_refl)).
  - exact (proj2 (later_rules_win strictIgnoring ignoringIndex
                    "/app/templates/application.hbs" eq_refl)).
Defined.

(** [z] is bound by no block of the stack. *)
Lemma unbound_z_is_not_safe :
  safeComponentInScope shadowingStack "z" = (false, shadowingStack).
Proof. exact (unbound_names_are_never_safe shadowingStack "z" eq_refl). Defined.

(** A template with elements, a block, a modifier, a sub-expression and
    an attribute comes back as it is from a resolver with every toggle
    off. *)
Lemma mixed_template_is_untouched_with_everything_off :
  exists s', resolverTransform allOff mixedTemplate initialState = Return mixedTemplate s'
             /\ imports s' = [] /\ audit s' = [] /\ stack s' = [].
Proof.
  exact (nothing_is_resolved_with_everything_off allOff mixedTemplate
           eq_refl eq_refl eq_refl eq_refl).
Defined.

(** [<HelloWorld>] with static components on and no rule. *)
Lemma hello_world_element_is_resolved :
  ElementNode_enter strictComponents "HelloWorld" [] initialState
  = Return "helloWorld_"
      (with_stack
         [blockParamsEntry [];
          componentBlockMarker
            {| resolution := componentResolution "#embroider_compat/components/hello-world"
                               None "hello-world_";
               marker_argumentsAreComponents := [];
               exit := ElementNodeCallback |}]
         (with_imports [("#embroider_compat/components/hello-world", "helloWorld_")]
            initialState)).
Proof.
  exact (element_is_resolved_as_a_component strictComponents emptyIndex "H" "elloWorld" []
           initialState eq_refl eq_refl eq_refl eq_refl).
Defined.

(** [{{#hello-world}}] with static components on and no rule. *)
Lemma hello_world_block_is_resolved :
  BlockStatement_visit strictComponents (mustache "hello-world" [] []) initialState
  = Return (mustache "helloWorld_" [] [])
      (with_stack
         [componentBlockMarker
            {| resolution := componentResolution "#embroider_compat/components/hello-world"
                               None "hello-world_";
               marker_argumentsAreComponents := [];
               exit := BlockStatementCallback "hello-world" |}]
         (with_imports [("#embroider_compat/components/hello-world", "helloWorld_")]
            initialState)).
Proof.
  exact (block_is_resolved_as_a_component strictComponents emptyIndex
           (mustache "hello-world" [] []) (pathBuilder "hello-world") initialState
           eq_refl eq_refl eq_refl eq_refl eq_refl eq_refl eq_refl).
Defined.

(** [{{autofocus}}] as a modifier and [(fmt)] with every toggle on. *)
Lemma autofocus_and_fmt_are_resolved :
  ElementModifierStatement_visit strictAll (mustache "autofocus" [] []) initialState
  = Return (mustache "autofocus_" [] [])
      (with_imports [("#embroider_compat/modifiers/autofocus", "autofocus_")] initialState)
  /\ SubExpression_visit strictAll (mustache "fmt" [] []) initialState
     = Return (mustache "fmt_" [] [])
         (with_imports [("#embroider_compat/helpers/fmt", "fmt_")] initialState).
Proof.
  split.
  - exact (proj1 (modifiers_and_helpers_are_resolved strictAll (mustache "autofocus" [] [])
                    (pathBuilder "autofocus") initialState eq_refl eq_refl eq_refl eq_refl)
             eq_refl eq_refl eq_refl).
  - exact (proj2 (modifiers_and_helpers_are_resolved strictAll (mustache "fmt" [] [])
                    (pathBuilder "fmt") initialState eq_refl eq_refl eq_refl eq_refl)
             eq_refl).
Defined.

(** [<HelloWorld as |form|>{{item}}{{form}}</HelloWorld>] inside
    [{{#each this.items as |item|}}]: [item] stays in scope at every
    handler, and the frame of [item] is the whole stack again at the
    end. *)
Lemma item_stays_in_scope_inside_hello_world :
  (exists new,
      trace (finalState (walkStatement strictAll BlockType helloWorldYielding insideEach))
      = trace insideEach ++ new
      /\ Forall (fun entry =>
                   frames (stack insideEach) `suffix_of` frames (snd entry)
                   /\ forall name, inScope (stack insideEach) name = true ->
                                   inScope (snd entry) name = true) new)
  /\ match walkStatement strictAll BlockType helloWorldYielding insideEach with
     | Return _ s' => frames (stack s') = frames (stack insideEach)
     | Throw _ _ => True
     end.
Proof. exact (scope_is_lexical strictAll BlockType helloWorldYielding insideEach eq_refl). Defined.

(** [x] is yielded by a component that forwards its argument [body]
    there: [x] is safe, and [body] is noted on the marker. *)
Lemma forwarded_parameter_is_safe :
  safeComponentInScope forwardedStack "x"
  = (true, [ blockParamsEntry ["x"];
             componentBlockMarker
               (pushArgument (yielding [SafeBool false] [ArgName "body"]) "body") ]).
Proof.
  exact (yielded_name_is_safe_by_its_position "x" [] ["x"]
           (yielding [SafeBool false] [ArgName "body"]) [] 0 eq_refl eq_refl eq_refl).
Defined.

(** [{{component "hello-world"}}], [{{#component "hello-world"}}] and
    [(component "hello-world")] with static components on. *)
Lemma component_hello_world_is_resolved :
  BlockStatement_visit strictComponents componentHelloWorld initialState
  = Return (setFirstParam componentHelloWorld
              (identifierOf strictComponents "components" "hello-world"))
      (imported strictComponents "components" "hello-world" initialState)
  /\ MustacheStatement_enter strictComponents componentHelloWorld (Some TemplateType)
       initialState
     = Return (setFirstParam componentHelloWorld
                 (identifierOf strictComponents "components" "hello-world"))
         (imported strictComponents "components" "hello-world" initialState)
  /\ SubExpression_visit strictComponents componentHelloWorld initialState
     = Return (setFirstParam componentHelloWorld
                 (identifierOf strictComponents "components" "hello-world"))
         (imported strictComponents "components" "hello-world" initialState).
Proof.
  exact (component_keyword_with_a_literal strictComponents emptyIndex componentHelloWorld
           (pathBuilder "component") "hello-world" noLoc [] (Some TemplateType) initialState
           eq_refl eq_refl eq_refl eq_refl eq_refl eq_refl eq_refl eq_refl).
Defined.


(** [{{helper "fmt"}}], [(helper "fmt")] and [(modifier "autofocus")]
    with every toggle on. *)
Lemma helper_fmt_and_modifier_autofocus_are_resolved :
  SubExpression_visit strictAll helperFmt initialState
  = Return (setFirstParam helperFmt (identifierOf strictAll "helpers" "fmt"))
      (imported strictAll "helpers" "fmt" initialState)
  /\ MustacheStatement_enter strictAll helperFmt (Some TemplateType) initialState
     = Return (setFirstParam helperFmt (identifierOf strictAll "helpers" "fmt"))
         (imported strictAll "helpers" "fmt" initialState)
  /\ SubExpression_visit strictAll modifierAutofocus initialState
     = Return (setFirstParam modifierAutofocus (identifierOf strictAll "modifiers" "autofocus"))
         (imported strictAll "modifiers" "autofocus" initialState).
Proof.
  destruct (proj1 (helper_and_modifier_keywords_with_a_literal strictAll helperFmt
                     (pathBuilder "helper") "fmt" noLoc [] (Some TemplateType) initialState
                     eq_refl eq_refl eq_refl eq_refl) eq_refl eq_refl) as [Hsub Hmustache].
  split; [exact Hsub|]. split; [exact (Hmustache eq_refl)|].
  exact (proj2 (helper_and_modifier_keywords_with_a_literal strictAll modifierAutofocus
                  (pathBuilder "modifier") "autofocus" noLoc [] None initialState
                  eq_refl eq_refl eq_refl eq_refl) eq_refl eq_refl).
Defined.

(** [{{hello-world iAmAComponent="first-target"}}] with components and
    helpers on: the callee is bound in the ambiguous name space, and
    the argument as a component. *)
Lemma curly_hello_world_with_a_component_argument :
  MustacheStatement_enter strictBothAccepting curlyHelloWorld (Some TemplateType) initialState
  = Return
      (setPairs
         (setPath curlyHelloWorld (identifierOf strictBothAccepting "ambiguous" "hello-world"))
         [("iAmAComponent",
           EPath (identifierOf strictBothAccepting "components" "first-target"))])
      (imported strictBothAccepting "components" "first-target"
         (imported strictBothAccepting "ambiguous" "hello-world" initialState)).
Proof.
  refine (curly_invocation_with_arguments strictBothAccepting acceptingIndex curlyHelloWorld
            (pathBuilder "hello-world") (Some TemplateType) initialState
            eq_refl eq_refl eq_refl eq_refl eq_refl eq_refl eq_refl eq_refl eq_refl eq_refl
            eq_refl eq_refl _).
  discriminate.
Defined.
